(** * Sparkling: the embedding context (ctx.c) and the runtime library (rtlb.c)

    A shallow embedding of the context API of [ctx.c] and of the native
    callables of [rtlb.c] that the specification talks about, followed by
    the properties proved about them.

    Conventions of the embedding:
    - a C function that mutates [*ctx] takes the context and returns the new
      one next to its C return value;
    - a pointer that may be [NULL] is an [option];
    - a native callable [int f(SpnValue *ret, int argc, SpnValue *argv, void *ctx)]
      takes the initial contents of the return slot and the argument vector
      ([argc] is its length) and returns its status, the final contents of
      the slot and the runtime error it reported, if any; where it returns
      with the slot referring to an object it has released, the result says
      so instead of giving the slot a value;
    - a function value handed to a callable is script code: where the
      callable works on an array in place, a call of the function may not
      return, and may have changed the array when it does;
    - the parser, the compiler, the virtual machine, the format engine and
      the file helpers are not part of these sources: they are collaborators
      taken as parameters. *)

From Stdlib Require Import ZArith List String Ascii Bool Lia.
From Stdlib Require Import Floats.SpecFloat.
From Stdlib Require Import Zpower.
From stdpp Require Import base list.
Import ListNotations.

Set Implicit Arguments.
Set Warnings "-register-all".
Set Default Proof Using "Type*".

Local Open Scope Z_scope.

(* ===================================================================== *)
(** * Part I: definitions *)
(* ===================================================================== *)

(** ** Values *)

(** The bytes of a Sparkling string: [len] bytes at [cstr], any byte value
    allowed ([makestring_nocopy_len] takes the length from its caller).  The
    terminating NUL that follows them in memory is not part of the list. *)
Definition SpnString := list ascii.

(** C's [double]: IEEE-754 binary64. *)
Definition double := spec_float.

Definition dprec : Z := 53.
Definition demax : Z := 1024.

(** A bytecode buffer, [spn_uword *]: a sequence of machine words. *)
Definition spn_uword := Z.
Definition bytecode := list spn_uword.

(** A function object: a compiled program, which these sources handle
    through its bytecode, or a native callable, known by its name. *)
Inductive SpnFunction : Type :=
| Program (b : bytecode)
| Native (name : string).

Inductive SpnValue : Type :=
| Nil
| Bool (b : bool)
| Int (i : Z)
| Float (f : double)
| String (s : SpnString)
| Array (a : list SpnValue)
| HashMap (m : list (SpnValue * SpnValue))
| Func (f : SpnFunction)
| UserInfo (p : Z)
| WeakUserInfo (p : Z).

Definition spn_nilval : SpnValue := Nil.
Definition spn_falseval : SpnValue := Bool false.
Definition spn_trueval : SpnValue := Bool true.

Definition makeint (i : Z) : SpnValue := Int i.
Definition makefloat (f : double) : SpnValue := Float f.
Definition makebool (b : bool) : SpnValue := Bool b.
Definition makearray : SpnValue := Array [].
Definition makestring (s : string) : SpnValue := String (list_ascii_of_string s).
Definition makestring_nocopy_len (buf : list ascii) : SpnValue := String buf.

Definition isnil (v : SpnValue) : bool := match v with Nil => true | _ => false end.
Definition isbool (v : SpnValue) : bool := match v with Bool _ => true | _ => false end.
Definition isint (v : SpnValue) : bool := match v with Int _ => true | _ => false end.
Definition isfloat (v : SpnValue) : bool := match v with Float _ => true | _ => false end.
Definition isnum (v : SpnValue) : bool := isint v || isfloat v.
Definition isstring (v : SpnValue) : bool := match v with String _ => true | _ => false end.
Definition isarray (v : SpnValue) : bool := match v with Array _ => true | _ => false end.
Definition isfunc (v : SpnValue) : bool := match v with Func _ => true | _ => false end.

(** The type tags, as [v.type] has them. *)
Inductive spn_type : Type :=
| SPN_TYPE_NIL | SPN_TYPE_BOOL | SPN_TYPE_INT | SPN_TYPE_FLOAT
| SPN_TYPE_STRING | SPN_TYPE_ARRAY | SPN_TYPE_HASHMAP | SPN_TYPE_FUNC
| SPN_TYPE_USERINFO | SPN_TYPE_WEAKUSERINFO.

Definition type_of (v : SpnValue) : spn_type :=
  match v with
  | Nil => SPN_TYPE_NIL
  | Bool _ => SPN_TYPE_BOOL
  | Int _ => SPN_TYPE_INT
  | Float _ => SPN_TYPE_FLOAT
  | String _ => SPN_TYPE_STRING
  | Array _ => SPN_TYPE_ARRAY
  | HashMap _ => SPN_TYPE_HASHMAP
  | Func _ => SPN_TYPE_FUNC
  | UserInfo _ => SPN_TYPE_USERINFO
  | WeakUserInfo _ => SPN_TYPE_WEAKUSERINFO
  end.

(** ** Runtime errors reported by native callables *)

(** One argument of the [args] vector handed to [spn_ctx_runtime_error]. *)
Inductive FmtArg : Type :=
| ArgStr (s : string)
| ArgInt (i : Z).

(** A call [spn_ctx_runtime_error(ctx, fmt, args)]. *)
Record RuntimeError : Type := mkErr { err_fmt : string; err_args : list FmtArg }.

(** What a native callable leaves behind: its status, the contents of the
    return slot, and the last runtime error it reported. *)
Record NativeResult : Type :=
  mkRes { status : Z; ret : SpnValue; rterr : option RuntimeError }.

(** [spn_ctx_runtime_error(ctx, msg, args); return code;] *)
Definition raise (code : Z) (slot : SpnValue) (msg : string) (args : list FmtArg) :=
  mkRes code slot (Some (mkErr msg args)).

(** [return 0;] *)
Definition done_ok (slot : SpnValue) := mkRes 0 slot None.

(** The result of running code of the source that loops, with a bound on
    the number of iterations, or that can step outside what C defines (a
    pointer past its buffer, a NULL passed where a string is expected). *)
Inductive outcome (A : Type) : Type :=
| Ret (a : A)
| OutOfFuel
| Undefined.

Arguments Ret {A} a.
Arguments OutOfFuel {A}.
Arguments Undefined {A}.

(** ** The context (ctx.c) *)

Inductive spn_error_type : Type :=
| SPN_ERROR_OK
| SPN_ERROR_SYNTAX
| SPN_ERROR_SEMANTIC
| SPN_ERROR_RUNTIME
| SPN_ERROR_GENERIC.

(** The collaborators of the context: their state types and what the
    context reads from them. *)
Class Collaborators : Type := {
  SpnParser : Type;
  SpnCompiler : Type;
  SpnVMachine : Type;
  SpnAST : Type;
  (** [parser->errmsg] *)
  parser_errmsg : SpnParser -> option string;
  spn_compiler_errmsg : SpnCompiler -> option string;
  spn_vm_geterrmsg : SpnVMachine -> option string;
  (** [spn_parser_parse(parser, str)]: the AST, or NULL *)
  spn_parser_parse : SpnParser -> string -> SpnParser * option SpnAST;
  (** the parser's entry point for a single expression *)
  spn_parser_parse_expression : SpnParser -> string -> SpnParser * option SpnAST;
  (** [spn_compiler_compile(cmp, ast, &len)]: the bytecode and its
      length in words, or NULL *)
  spn_compiler_compile : SpnCompiler -> SpnAST -> SpnCompiler * option (bytecode * Z);
  (** [spn_read_text_file(fname)] *)
  spn_read_text_file : string -> option string;
  (** [spn_read_binary_file(fname, &filesize)] *)
  spn_read_binary_file : string -> option (bytecode * Z);
  (** [sizeof(spn_uword)] *)
  sizeof_uword : Z
}.

Record spn_bc_node `{Collaborators} : Type :=
  mkNode { bc : bytecode; len : Z }.

Arguments mkNode {_} _ _.

Record SpnContext `{Collaborators} : Type := mkCtx {
  parser : SpnParser;
  cmp : SpnCompiler;
  vm : SpnVMachine;
  bclist : list spn_bc_node;
  errtype : spn_error_type;
  errmsg : option string;
  info : Z
}.

Arguments mkCtx {_} _ _ _ _ _ _ _.

(** The virtual machine runs native callables that get the context as
    their [ctx] argument and may call back into it, so executing a program
    can change every field of the context, not only [vm]. *)
Class Machine `{Collaborators} : Type := {
  (** [spn_vm_exec(ctx->vm, bc, ret)] *)
  spn_vm_exec : SpnContext -> bytecode -> SpnValue -> SpnContext * Z * SpnValue;
  (** [spn_vm_callfunc(ctx->vm, func, ret, argc, argv)] *)
  spn_vm_callfunc :
    SpnContext -> SpnValue -> SpnValue -> list SpnValue -> SpnContext * Z * SpnValue
}.

Section Context.
Context `{M : Machine}.

Definition set_errtype (ctx : SpnContext) (e : spn_error_type) : SpnContext :=
  mkCtx (parser ctx) (cmp ctx) (vm ctx) (bclist ctx) e (errmsg ctx) (info ctx).

Definition set_errmsg (ctx : SpnContext) (m : option string) : SpnContext :=
  mkCtx (parser ctx) (cmp ctx) (vm ctx) (bclist ctx) (errtype ctx) m (info ctx).

Definition set_parser (ctx : SpnContext) (p : SpnParser) : SpnContext :=
  mkCtx p (cmp ctx) (vm ctx) (bclist ctx) (errtype ctx) (errmsg ctx) (info ctx).

Definition set_cmp (ctx : SpnContext) (c : SpnCompiler) : SpnContext :=
  mkCtx (parser ctx) c (vm ctx) (bclist ctx) (errtype ctx) (errmsg ctx) (info ctx).

Definition spn_ctx_geterrtype (ctx : SpnContext) : spn_error_type := errtype ctx.

Definition spn_ctx_geterrmsg (ctx : SpnContext) : option string :=
  match errtype ctx with
  | SPN_ERROR_OK => None
  | SPN_ERROR_SYNTAX => parser_errmsg (parser ctx)
  | SPN_ERROR_SEMANTIC => spn_compiler_errmsg (cmp ctx)
  | SPN_ERROR_RUNTIME => spn_vm_geterrmsg (vm ctx)
  | SPN_ERROR_GENERIC => errmsg ctx
  end.

Definition prepend_bytecode_list (ctx : SpnContext) (b : bytecode) (n : Z) : SpnContext :=
  mkCtx (parser ctx) (cmp ctx) (vm ctx) (mkNode b n :: bclist ctx)
        (errtype ctx) (errmsg ctx) (info ctx).

Definition spn_ctx_loadstring (ctx : SpnContext) (str : string)
  : SpnContext * option bytecode :=
  let ctx := set_errtype ctx SPN_ERROR_OK in
  let '(p, ast) := spn_parser_parse (parser ctx) str in
  let ctx := set_parser ctx p in
  match ast with
  | None => (set_errtype ctx SPN_ERROR_SYNTAX, None)
  | Some ast =>
      let '(c, r) := spn_compiler_compile (cmp ctx) ast in
      let ctx := set_cmp ctx c in
      match r with
      | None => (set_errtype ctx SPN_ERROR_SEMANTIC, None)
      | Some (b, n) => (prepend_bytecode_list ctx b n, Some b)
      end
  end.

Definition spn_ctx_loadsrcfile (ctx : SpnContext) (fname : string)
  : SpnContext * option bytecode :=
  let ctx := set_errtype ctx SPN_ERROR_OK in
  match spn_read_text_file fname with
  | None =>
      let ctx := set_errtype ctx SPN_ERROR_GENERIC in
      (set_errmsg ctx (Some "Sparkling: I/O error: could not read source file"%string),
       None)
  | Some src => spn_ctx_loadstring ctx src
  end.

Definition spn_ctx_loadobjfile (ctx : SpnContext) (fname : string)
  : SpnContext * option bytecode :=
  let ctx := set_errtype ctx SPN_ERROR_OK in
  match spn_read_binary_file fname with
  | None =>
      let ctx := set_errtype ctx SPN_ERROR_GENERIC in
      (set_errmsg ctx (Some "Sparkling: I/O error: could not read object file"%string),
       None)
  | Some (b, filesize) =>
      let nwords := filesize / sizeof_uword in
      (prepend_bytecode_list ctx b nwords, Some b)
  end.

Definition spn_ctx_execbytecode (ctx : SpnContext) (b : bytecode) (slot : SpnValue)
  : SpnContext * Z * SpnValue :=
  let ctx := set_errtype ctx SPN_ERROR_OK in
  let '(ctx, st, slot) := spn_vm_exec ctx b slot in
  if st =? 0 then (ctx, st, slot)
  else (set_errtype ctx SPN_ERROR_RUNTIME, st, slot).

Definition spn_ctx_execstring (ctx : SpnContext) (str : string) (slot : SpnValue)
  : SpnContext * Z * SpnValue :=
  match spn_ctx_loadstring ctx str with
  | (ctx, None) => (ctx, -1, slot)
  | (ctx, Some b) => spn_ctx_execbytecode ctx b slot
  end.

Definition spn_ctx_execsrcfile (ctx : SpnContext) (fname : string) (slot : SpnValue)
  : SpnContext * Z * SpnValue :=
  match spn_ctx_loadsrcfile ctx fname with
  | (ctx, None) => (ctx, -1, slot)
  | (ctx, Some b) => spn_ctx_execbytecode ctx b slot
  end.

Definition spn_ctx_execobjfile (ctx : SpnContext) (fname : string) (slot : SpnValue)
  : SpnContext * Z * SpnValue :=
  match spn_ctx_loadobjfile ctx fname with
  | (ctx, None) => (ctx, -1, slot)
  | (ctx, Some b) => spn_ctx_execbytecode ctx b slot
  end.

Definition spn_ctx_callfunc (ctx : SpnContext) (func : SpnValue) (slot : SpnValue)
           (argv : list SpnValue) : SpnContext * Z * SpnValue :=
  let ctx := set_errtype ctx SPN_ERROR_OK in
  let '(ctx, st, slot) := spn_vm_callfunc ctx func slot argv in
  if st =? 0 then (ctx, st, slot)
  else (set_errtype ctx SPN_ERROR_RUNTIME, st, slot).

End Context.

(** ** The entry points of the context, taken together *)

(** A call of one of the load, exec and call entry points. *)
Inductive entry_point : Type :=
| LoadString (str : string)
| LoadSrcFile (fname : string)
| LoadObjFile (fname : string)
| ExecString (str : string) (slot : SpnValue)
| ExecSrcFile (fname : string) (slot : SpnValue)
| ExecObjFile (fname : string) (slot : SpnValue)
| ExecBytecode (b : bytecode) (slot : SpnValue)
| CallFunc (func : SpnValue) (slot : SpnValue) (argv : list SpnValue).

Section EntryPoints.
Context `{M : Machine}.

Definition is_null {A : Type} (p : option A) : bool :=
  match p with None => true | Some _ => false end.

(** The context after the call, and whether the call failed: a load
    returned NULL, an exec or a call returned a nonzero status. *)
Definition run_entry (e : entry_point) (ctx : SpnContext) : SpnContext * bool :=
  match e with
  | LoadString str =>
      let '(ctx, r) := spn_ctx_loadstring ctx str in (ctx, is_null r)
  | LoadSrcFile fname =>
      let '(ctx, r) := spn_ctx_loadsrcfile ctx fname in (ctx, is_null r)
  | LoadObjFile fname =>
      let '(ctx, r) := spn_ctx_loadobjfile ctx fname in (ctx, is_null r)
  | ExecString str slot =>
      let '(ctx, st, _) := spn_ctx_execstring ctx str slot in (ctx, negb (st =? 0))
  | ExecSrcFile fname slot =>
      let '(ctx, st, _) := spn_ctx_execsrcfile ctx fname slot in (ctx, negb (st =? 0))
  | ExecObjFile fname slot =>
      let '(ctx, st, _) := spn_ctx_execobjfile ctx fname slot in (ctx, negb (st =? 0))
  | ExecBytecode b slot =>
      let '(ctx, st, _) := spn_ctx_execbytecode ctx b slot in (ctx, negb (st =? 0))
  | CallFunc func slot argv =>
      let '(ctx, st, _) := spn_ctx_callfunc ctx func slot argv in (ctx, negb (st =? 0))
  end.

(** Which component makes a call fail, in the words of the specification:
    the parser rejects the input, the compiler rejects the AST, a source or
    object file cannot be read, the machine returns a nonzero status; with
    the category each failure is reported under. *)
Inductive failure : entry_point -> SpnContext -> spn_error_type -> Prop :=
| parser_rejects ctx str p :
    spn_parser_parse (parser ctx) str = (p, None) ->
    failure (LoadString str) ctx SPN_ERROR_SYNTAX
| compiler_rejects ctx str p ast c :
    spn_parser_parse (parser ctx) str = (p, Some ast) ->
    spn_compiler_compile (cmp ctx) ast = (c, None) ->
    failure (LoadString str) ctx SPN_ERROR_SEMANTIC
| source_unreadable ctx fname :
    spn_read_text_file fname = None ->
    failure (LoadSrcFile fname) ctx SPN_ERROR_GENERIC
| source_rejected ctx fname src cat :
    spn_read_text_file fname = Some src ->
    failure (LoadString src) ctx cat ->
    failure (LoadSrcFile fname) ctx cat
| object_unreadable ctx fname :
    spn_read_binary_file fname = None ->
    failure (LoadObjFile fname) ctx SPN_ERROR_GENERIC
| execution_fails ctx b slot ctx' st slot' :
    spn_vm_exec (set_errtype ctx SPN_ERROR_OK) b slot = (ctx', st, slot') ->
    st <> 0 ->
    failure (ExecBytecode b slot) ctx SPN_ERROR_RUNTIME
| call_fails ctx func slot argv ctx' st slot' :
    spn_vm_callfunc (set_errtype ctx SPN_ERROR_OK) func slot argv = (ctx', st, slot') ->
    st <> 0 ->
    failure (CallFunc func slot argv) ctx SPN_ERROR_RUNTIME
| execstring_not_loaded ctx str slot cat :
    failure (LoadString str) ctx cat ->
    failure (ExecString str slot) ctx cat
| execstring_not_run ctx str slot ctx1 b cat :
    spn_ctx_loadstring ctx str = (ctx1, Some b) ->
    failure (ExecBytecode b slot) ctx1 cat ->
    failure (ExecString str slot) ctx cat
| execsrcfile_not_loaded ctx fname slot cat :
    failure (LoadSrcFile fname) ctx cat ->
    failure (ExecSrcFile fname slot) ctx cat
| execsrcfile_not_run ctx fname slot ctx1 b cat :
    spn_ctx_loadsrcfile ctx fname = (ctx1, Some b) ->
    failure (ExecBytecode b slot) ctx1 cat ->
    failure (ExecSrcFile fname slot) ctx cat
| execobjfile_not_loaded ctx fname slot cat :
    failure (LoadObjFile fname) ctx cat ->
    failure (ExecObjFile fname slot) ctx cat
| execobjfile_not_run ctx fname slot ctx1 b cat :
    spn_ctx_loadobjfile ctx fname = (ctx1, Some b) ->
    failure (ExecBytecode b slot) ctx1 cat ->
    failure (ExecObjFile fname slot) ctx cat.

(** The component that owns the message of each category. *)
Definition owner_message (ctx : SpnContext) (cat : spn_error_type) : option string :=
  match cat with
  | SPN_ERROR_OK => None
  | SPN_ERROR_SYNTAX => parser_errmsg (parser ctx)
  | SPN_ERROR_SEMANTIC => spn_compiler_errmsg (cmp ctx)
  | SPN_ERROR_RUNTIME => spn_vm_geterrmsg (vm ctx)
  | SPN_ERROR_GENERIC => errmsg ctx
  end.

Definition is_load (e : entry_point) : bool :=
  match e with
  | LoadString _ | LoadSrcFile _ | LoadObjFile _ => true
  | _ => false
  end.

End EntryPoints.

(** ** The string library (rtlb.c) *)

Definition NUL : ascii := Ascii.zero.

Definition is_nul (c : ascii) : bool := Ascii.eqb c NUL.

(** What the C string functions see at a [char *] whose buffer holds the
    bytes [buf] followed by a NUL: the bytes before the first NUL. *)
Fixpoint c_str (buf : list ascii) : list ascii :=
  match buf with
  | [] => []
  | c :: rest => if is_nul c then [] else c :: c_str rest
  end.

Fixpoint starts_with (needle hay : list ascii) : bool :=
  match needle, hay with
  | [], _ => true
  | _ :: _, [] => false
  | n :: needle', h :: hay' => Ascii.eqb n h && starts_with needle' hay'
  end.

(** [strstr(hay, needle)] on two C strings: the offset of the first
    occurrence of [needle] in [hay], or NULL. *)
Fixpoint strstr (hay needle : list ascii) : option nat :=
  if starts_with needle hay then Some 0%nat
  else match hay with
       | [] => None
       | _ :: hay' => option_map S (strstr hay' needle)
       end.

(** main substring function, used by substr(), substrto() and substrfrom() *)
Definition rtlb_aux_substr (slot : SpnValue) (str : SpnString) (begin length : Z)
  : NativeResult :=
  let slen := Z.of_nat (List.length str) in
  if (begin <? 0) || (begin >? slen) then
    raise (-1) slot "starting index is negative or too high" []
  else if (length <? 0) || (length >? slen) then
    raise (-2) slot "length is negative or too big" []
  else if begin + length >? slen then
    raise (-3) slot "end of substring is out of bounds" []
  else
    done_ok (makestring_nocopy_len (take (Z.to_nat length) (drop (Z.to_nat begin) str))).

Definition rtlb_substr (slot : SpnValue) (argv : list SpnValue) : NativeResult :=
  match argv with
  | [a0; a1; a2] =>
      match a0 with
      | String str =>
          match a1, a2 with
          | Int begin, Int length => rtlb_aux_substr slot str begin length
          | _, _ => raise (-2) slot "second and third argument must be integers" []
          end
      | _ => raise (-2) slot "first argument must be a string" []
      end
  | _ => raise (-1) slot "exactly three arguments are required" []
  end.

(** The loop of [rtlb_split].  [rest] holds the bytes from [s] to the end
    of the haystack, [needle] the [needle->len] bytes of the separator.
    [strstr] sees both as C strings; the next [s] is [t + needle->len],
    which leaves the haystack when the separator has a NUL inside and the
    match is near the end. *)
Fixpoint split_loop (fuel : nat) (rest needle : list ascii) (arr : list SpnValue)
  : outcome (list SpnValue) :=
  match fuel with
  | O => OutOfFuel
  | S fuel' =>
      match strstr (c_str rest) (c_str needle) with
      | None => Ret (arr ++ [makestring_nocopy_len rest])
      | Some t =>
          let arr := arr ++ [makestring_nocopy_len (take t rest)] in
          if (t + List.length needle <=? List.length rest)%nat
          then split_loop fuel' (drop (t + List.length needle) rest) needle arr
          else Undefined
      end
  end.

Definition rtlb_split (slot : SpnValue) (argv : list SpnValue) : outcome NativeResult :=
  match argv with
  | [a0; a1] =>
      match a0, a1 with
      | String haystack, String needle =>
          if (List.length needle =? 0)%nat then
            Ret (raise (-3) slot "cannot split on empty string" [])
          else
            match split_loop (S (List.length haystack)) haystack needle [] with
            | Ret arr => Ret (done_ok (Array arr))
            | OutOfFuel => OutOfFuel
            | Undefined => Undefined
            end
      | _, _ => Ret (raise (-2) slot "arguments must be strings" [])
      end
  | _ => Ret (raise (-1) slot "exactly two arguments are required" [])
  end.

(** The loop of [rtlb_join] from index [i] on: [None] when an element is
    not a string. *)
Fixpoint join_loop (elems : list SpnValue) (i : nat) (delim buf : list ascii)
  : option (list ascii) :=
  match elems with
  | [] => Some buf
  | val :: elems' =>
      match val with
      | String str =>
          let buf := if (0 <? i)%nat then buf ++ delim ++ str else buf ++ str in
          join_loop elems' (S i) delim buf
      | _ => None
      end
  end.

Definition rtlb_join (slot : SpnValue) (argv : list SpnValue) : NativeResult :=
  match argv with
  | [a0; a1] =>
      match a0 with
      | Array arr =>
          match a1 with
          | String delim =>
              match join_loop arr 0 delim [] with
              | None => raise (-3) slot "array must contain strings only" []
              | Some buf => done_ok (makestring_nocopy_len buf)
              end
          | _ => raise (-2) slot "second argument must be a string" []
          end
      | _ => raise (-2) slot "first argument must be an array" []
      end
  | _ => raise (-1) slot "exactly two arguments are required" []
  end.

(** A string without a NUL byte inside: the strings the C string
    functions see whole. *)
Definition nul_free (s : list ascii) : bool := forallb (fun c => negb (is_nul c)) s.

(** [needle] occurs in [hay]. *)
Definition occurs_in (needle hay : list ascii) : Prop :=
  exists before after, hay = before ++ needle ++ after.

(** The pieces [p0; p1; ...; pn] put together again around a separator:
    [p0 ++ sep ++ p1 ++ ... ++ sep ++ pn]. *)
Definition rejoin (sep : list ascii) (pieces : list (list ascii)) : list ascii :=
  match pieces with
  | [] => []
  | p :: rest => p ++ concat (map (fun q => sep ++ q) rest)
  end.

(** ** The I/O library (rtlb.c) *)

(** The format engine, [spn_string_format_obj(fmt, argc, argv, &errmsg)]:
    the expanded string, or NULL and an error message. *)
Class FormatEngine : Type := {
  spn_string_format_obj : SpnString -> list SpnValue -> SpnString + string
}.

(** [fputs(s, stream)]: the stream, here the bytes written to it so far,
    receives the C string at [s]. *)
Definition fputs (s : list ascii) (stream : list ascii) : list ascii :=
  stream ++ c_str s.

(** [rtlb_printf] also returns the new contents of [stdout]. *)
Definition rtlb_printf `{FormatEngine} (stdout : list ascii) (slot : SpnValue)
           (argv : list SpnValue) : NativeResult * list ascii :=
  match argv with
  | [] => (raise (-1) slot "at least one argument is required" [], stdout)
  | a0 :: rest =>
      match a0 with
      | String fmt =>
          match spn_string_format_obj fmt rest with
          | inl res =>
              (done_ok (makeint (Z.of_nat (List.length res))), fputs res stdout)
          | inr errmsg =>
              (raise (-3) slot "error in format string: %s" [ArgStr errmsg], stdout)
          end
      | _ => (raise (-2) slot "first argument must be a format string" [], stdout)
      end
  end.

(** The files [rtlb_readfile] sees: [fopen(fname, "rb")] gives the bytes
    of the file and whether reading them succeeds, or fails with
    [strerror(errno)]. *)
Class FileSystem : Type := {
  fopen_rb : list ascii -> (list ascii * bool) + string;
  (** [strerror(errno)] after a failed [fread] *)
  fread_error : list ascii -> string
}.

Definition rtlb_readfile `{FileSystem} (slot : SpnValue) (argv : list SpnValue)
  : NativeResult :=
  match argv with
  | [a0] =>
      match a0 with
      | String str =>
          let fname := c_str str in
          match fopen_rb fname with
          | inr e =>
              raise (-3) slot "can't open file `%s': %s"
                    [ArgStr (string_of_list_ascii fname); ArgStr e]
          | inl (buf, readable) =>
              (* fread(buf, size, 1, f) reads one item of [size] bytes *)
              if readable && negb (List.length buf =? 0)%nat then
                done_ok (makestring_nocopy_len buf)
              else
                raise (-4) slot "can't read file `%s': %s"
                      [ArgStr (string_of_list_ascii fname); ArgStr (fread_error fname)]
          end
      | _ => raise (-2) slot "argument must be a string (filename)" []
      end
  | _ => raise (-1) slot "exactly one argument is required" []
  end.

(** ** The array library (rtlb.c) *)

(** [spn_array_get(a, i, &x)] and [spn_array_set(a, i, &x)] for an index
    inside the array, which is all the sort uses. *)
Definition spn_array_get (a : list SpnValue) (i : Z) : SpnValue :=
  nth (Z.to_nat i) a Nil.

Definition spn_array_set (a : list SpnValue) (i : Z) (x : SpnValue) : list SpnValue :=
  <[Z.to_nat i := x]> a.

Definition spn_array_count (a : list SpnValue) : Z := Z.of_nat (List.length a).

Definition rtlb_aux_swap (a : list SpnValue) (i j : Z) : list SpnValue :=
  let x := spn_array_get a i in
  let y := spn_array_get a j in
  let a := spn_array_set a i y in
  spn_array_set a j x.

(** Modelled from the spec: [spn_values_comparable], which is declared in
    the API header and defined outside these sources.  "Int and Float are
    mutually comparable; strings compare lexicographically; other
    combinations are uncomparable". *)
Definition spn_values_comparable (lhs rhs : SpnValue) : bool :=
  (isnum lhs && isnum rhs) || (isstring lhs && isstring rhs).

(** The remaining value operations the sort uses: the name of a type, for
    error messages, and the three-way comparison of two comparable values. *)
Class ValueOps : Type := {
  spn_type_name : spn_type -> string;
  spn_value_compare : SpnValue -> SpnValue -> Z
}.

(** One call of the comparator function made by the sort: its two
    arguments, the status of the call and the value it returned. *)
Record CmpCall : Type :=
  mkCall { call_args : SpnValue * SpnValue; call_status : Z; call_ret : SpnValue }.

(** A comparator handed to the sort is script code.  A call of it need
    not return, and it can reach the array being sorted, which is a shared
    object, and change its elements and its size; the sort reads the array
    again after every call.  [spn_vm_callfunc] says what a call returns
    when it returns; [array_after_call ctx f argv a] says whether the call
    of [f] on [argv] returns at all ([None] when it does not), and what
    the array, which held [a], holds by then. *)
Class Callbacks `{Collaborators} : Type := {
  array_after_call :
    SpnContext -> SpnValue -> list SpnValue -> list SpnValue -> option (list SpnValue)
}.

(** Whether [i] is an index of [a].  The array module defines reading and
    writing there only; the sort stays inside as long as the comparator
    leaves the size of the array alone. *)
Definition inside (a : list SpnValue) (i : Z) : bool :=
  (0 <=? i) && (i <? spn_array_count a).

Section Sort.
Context `{M : Machine} {K : Callbacks} `{V : ValueOps}.

(** What the sort works on: the context, the elements of the array
    being sorted in place, and the comparator calls made so far (a
    record of the run, not a variable of the source). *)
Record SortState : Type :=
  mkSort { st_ctx : SpnContext; st_arr : list SpnValue; st_calls : list CmpCall }.

(** [rtlb_aux_partition] either sets [*error] (and has reported a
    runtime error, unless the comparator call itself failed), or
    returns the index of the pivot.  It does not return when a call of
    the comparator does not, and it leaves what the array module defines
    when the comparator has shortened the array under it. *)
Inductive partition_result : Type :=
| PartError (e : option RuntimeError)
| PartIndex (store_idx : Z)
| PartNoReturn
| PartOutside.

(** The [for] loop of [rtlb_aux_partition]; [n] is [right - i]. *)
Fixpoint partition_loop (n : nat) (st : SortState) (i right store_idx : Z)
         (pivot : SpnValue) (comp : option SpnValue)
  : SortState * partition_result :=
  match n with
  | O =>
      if inside (st_arr st) store_idx && inside (st_arr st) right then
        (mkSort (st_ctx st) (rtlb_aux_swap (st_arr st) store_idx right) (st_calls st),
         PartIndex store_idx)
      else (st, PartOutside)
  | S n' =>
      if negb (inside (st_arr st) i) then (st, PartOutside)
      else
        let ith_elem := spn_array_get (st_arr st) i in
        let continue (st : SortState) (lessthan : bool) :=
          if lessthan then
            if inside (st_arr st) i && inside (st_arr st) store_idx then
              partition_loop n'
                (mkSort (st_ctx st) (rtlb_aux_swap (st_arr st) i store_idx) (st_calls st))
                (i + 1) right (store_idx + 1) pivot comp
            else (st, PartOutside)
          else partition_loop n' st (i + 1) right store_idx pivot comp in
        match comp with
        | Some f =>
            let argv := [ith_elem; pivot] in
            match array_after_call (st_ctx st) f argv (st_arr st) with
            | None => (st, PartNoReturn)
            | Some arr =>
                let '(ctx, status, r) := spn_ctx_callfunc (st_ctx st) f spn_nilval argv in
                let st := mkSort ctx arr
                                 (st_calls st ++ [mkCall (ith_elem, pivot) status r]) in
                if negb (status =? 0) then (st, PartError None)
                else
                  match r with
                  | Bool lessthan => continue st lessthan
                  | _ =>
                      (st, PartError
                             (Some (mkErr "comparator function must return a Boolean" [])))
                  end
            end
        | None =>
            if negb (spn_values_comparable ith_elem pivot) then
              (st, PartError
                     (Some (mkErr "attempt to sort uncomparable values of type %s and %s"
                                  [ArgStr (spn_type_name (type_of ith_elem));
                                   ArgStr (spn_type_name (type_of pivot))])))
            else continue st (spn_value_compare ith_elem pivot <? 0)
        end
  end.

Definition rtlb_aux_partition (st : SortState) (left right : Z) (comp : option SpnValue)
  : SortState * partition_result :=
  let store_idx := left in
  let pivot_idx := left + Z.quot (right - left) 2 in
  if inside (st_arr st) pivot_idx && inside (st_arr st) right then
    let pivot := spn_array_get (st_arr st) pivot_idx in
    let st := mkSort (st_ctx st) (rtlb_aux_swap (st_arr st) pivot_idx right) (st_calls st) in
    partition_loop (Z.to_nat (right - left)) st left right store_idx pivot comp
  else (st, PartOutside).

(** [rtlb_aux_qsort] returns its status and the runtime error reported
    on the way, if any.  When a call of the comparator does not return,
    neither does the sort, whatever the fuel. *)
Fixpoint rtlb_aux_qsort (fuel : nat) (st : SortState) (left right : Z)
         (comp : option SpnValue) : outcome (SortState * Z * option RuntimeError) :=
  if left >=? right then Ret (st, 0, None)
  else
    match fuel with
    | O => OutOfFuel
    | S fuel' =>
        match rtlb_aux_partition st left right comp with
        | (st, PartError e) => Ret (st, -1, e)
        | (st, PartNoReturn) => OutOfFuel
        | (st, PartOutside) => Undefined
        | (st, PartIndex pivot_index) =>
            match rtlb_aux_qsort fuel' st left (pivot_index - 1) comp with
            | Ret (st, status, e) =>
                if negb (status =? 0) then Ret (st, -1, e)
                else
                  match rtlb_aux_qsort fuel' st (pivot_index + 1) right comp with
                  | Ret (st, status, e) =>
                      if negb (status =? 0) then Ret (st, -1, e)
                      else Ret (st, 0, None)
                  | other => other
                  end
            | other => other
            end
        end
    end.

(** [rtlb_sort]: the context after the call, the native result, the
    elements of the array afterwards and the comparator calls made. *)
Definition rtlb_sort (ctx : SpnContext) (slot : SpnValue) (argv : list SpnValue)
  : outcome (SortState * NativeResult) :=
  let st0 (a : list SpnValue) := mkSort ctx a [] in
  let run (array : list SpnValue) (comparator : option SpnValue) :=
    match rtlb_aux_qsort (List.length array) (st0 array) 0
                         (spn_array_count array - 1) comparator with
    | Ret (st, status, e) => Ret (st, mkRes status slot e)
    | OutOfFuel => OutOfFuel
    | Undefined => Undefined
    end in
  match argv with
  | [a0] =>
      match a0 with
      | Array array => run array None
      | _ => Ret (st0 [], raise (-2) slot "first argument must be an array" [])
      end
  | [a0; a1] =>
      match a0 with
      | Array array =>
          if isfunc a1 then run array (Some a1)
          else Ret (st0 array,
                    raise (-3) slot "second argument must be a comparator function" [])
      | _ => Ret (st0 [], raise (-2) slot "first argument must be an array" [])
      end
  | _ => Ret (st0 [], raise (-1) slot "one or two arguments are required" [])
  end.

End Sort.

(** A comparator call that went through and returned something other
    than a Boolean. *)
Definition not_a_boolean (c : CmpCall) : Prop :=
  call_status c = 0 /\ isbool (call_ret c) = false.

(** The runtime errors of the sort. *)
Definition comparator_error : RuntimeError :=
  mkErr "comparator function must return a Boolean" [].

Definition uncomparable_error `{ValueOps} (x y : SpnValue) : RuntimeError :=
  mkErr "attempt to sort uncomparable values of type %s and %s"
        [ArgStr (spn_type_name (type_of x)); ArgStr (spn_type_name (type_of y))].

(** Every call of the function [f] returns and leaves the array the
    caller works on as it is. *)
Definition leaves_array `{Callbacks} (f : SpnValue) : Prop :=
  forall ctx argv a, array_after_call ctx f argv a = Some a.

(** The comparator, when there is one, leaves the array alone. *)
Definition tame `{Callbacks} (comp : option SpnValue) : Prop :=
  match comp with
  | Some f => leaves_array f
  | None => True
  end.

(** The function [f] is a function of its two arguments and nothing
    more: a call returns [g x y] with status 0, changes nothing in the
    context and leaves the array alone. *)
Definition answers `{M : Machine} {K : Callbacks} (f : SpnValue)
           (g : SpnValue -> SpnValue -> SpnValue) : Prop :=
  leaves_array f /\
  forall ctx slot x y, spn_vm_callfunc ctx f slot [x; y] = (ctx, 0, g x y).

(** Being below, as [lt] decides it, is transitive and not mutual on the
    elements of [a]. *)
Record strict_order (lt : SpnValue -> SpnValue -> bool) (a : list SpnValue) : Prop := {
  lt_transitive :
    forall x y z, x ∈ a -> y ∈ a -> z ∈ a ->
                  lt x y = true -> lt y z = true -> lt x z = true;
  lt_asymmetric :
    forall x y, x ∈ a -> y ∈ a -> lt x y = true -> lt y x = false
}.

(** How the partition tells whether an element is below the pivot: by
    the built-in order, on elements it can compare, when there is no
    comparator; else by the comparator, here one that answers with [lt]. *)
Definition decided_by `{M : Machine} {K : Callbacks} `{V : ValueOps}
           (comp : option SpnValue) (lt : SpnValue -> SpnValue -> bool)
           (base : list SpnValue) : Prop :=
  match comp with
  | Some f => answers f (fun x y => Bool (lt x y))
  | None =>
      forall x y, x ∈ base -> y ∈ base ->
                  spn_values_comparable x y = true /\
                  lt x y = (spn_value_compare x y <? 0)
  end.

(** Without a comparator the sort changes nothing of its state but the
    array: the context and the record of calls stay. *)
Definition quiet `{Machine} `{ValueOps} (comp : option SpnValue) (st st' : SortState)
  : Prop :=
  comp = None -> st_ctx st' = st_ctx st /\ st_calls st' = st_calls st.

(** A call that returns with its return slot referring to an object the
    call itself has released: the status and the runtime error reported.
    The slot holds a pointer to an object that is gone; it must not be
    read, and it is not the value the caller had put there. *)
Record Dangling : Type := mkDangling { dg_status : Z; dg_rterr : option RuntimeError }.

(** The loop of [rtlb_concat] over [argv] from index [i] on; [result] holds
    the elements pushed so far onto the new array, which the return slot
    refers to from the start.  On a non-array argument the callable
    reports the error, releases the new array with [spn_value_release(ret)]
    and returns -1 without resetting the slot. *)
Fixpoint concat_loop `{ValueOps} (argv : list SpnValue) (i : Z) (result : list SpnValue)
  : NativeResult + Dangling :=
  match argv with
  | [] => inl (done_ok (Array result))
  | arg :: argv' =>
      match arg with
      | Array arr => concat_loop argv' (i + 1) (result ++ arr)
      | _ =>
          inr (mkDangling (-1)
                 (Some (mkErr "arguments must be arrays (arg %i was %s)"
                              [ArgInt (i + 1); ArgStr (spn_type_name (type_of arg))])))
      end
  end.

Definition rtlb_concat `{ValueOps} (slot : SpnValue) (argv : list SpnValue)
  : NativeResult + Dangling :=
  concat_loop argv 0 [].

(** ** The math library (rtlb.c) *)

(** The conversion of a [long] to [double]. *)
Definition of_long (i : Z) : double := binary_normalize dprec demax i 0 false.

Definition dadd : double -> double -> double := SFadd dprec demax.
Definition dmul : double -> double -> double := SFmul dprec demax.

(** [#define FLOATVAL(f) (isint(f) ? intvalue(f) : floatvalue(f))] *)
Definition FLOATVAL (v : SpnValue) : double :=
  match v with
  | Int i => of_long i
  | Float f => f
  | _ => S754_nan
  end.

(** A [double] held by a value is a float of the format: its mantissa has
    the digits its exponent calls for, and the exponent is in range. *)
Definition double_of_format (v : SpnValue) : Prop :=
  forall f, v = Float f -> valid_binary dprec demax f = true.

(** A float that is zero or below: not a NaN, and a negative sign unless it
    is a zero. *)
Definition nonpositive (y : spec_float) : Prop :=
  match y with
  | S754_zero _ => True
  | S754_finite s _ _ => s = true
  | S754_infinity s => s = true
  | S754_nan => False
  end.

(** The number of binary digits of a positive number, as the rounding of
    [SpecFloat] counts them. *)
Definition ndigits (p : positive) : Z := Z.pos (digits2_pos p).

(** Whether a right shift lost a nonzero bit: the round bit or the sticky
    bit of its record. *)
Definition inexact (mrs : shr_record) : bool := shr_r mrs || shr_s mrs.

(** [for (i = begin; i < end; i++)] of the integer forms of [rtlb_range]. *)
Fixpoint range_int_loop (fuel : nat) (i end_ : Z) (range : list SpnValue)
  : outcome (list SpnValue) :=
  if i <? end_ then
    match fuel with
    | O => OutOfFuel
    | S fuel' => range_int_loop fuel' (i + 1) end_ (range ++ [makeint i])
    end
  else Ret range.

(** The largest [long], where [long] has 64 bits. *)
Definition LONG_MAX : Z := 2 ^ 63 - 1.

(** [for (i = 0, x = begin; x <= end; x = begin + step * ++i)], where [i]
    is a [long]: incrementing it past [LONG_MAX] is undefined. *)
Fixpoint range_float_loop (fuel : nat) (begin end_ step : double) (i : Z) (x : double)
         (range : list SpnValue) : outcome (list SpnValue) :=
  if SFleb x end_ then
    match fuel with
    | O => OutOfFuel
    | S fuel' =>
        if i + 1 >? LONG_MAX then Undefined
        else
          range_float_loop fuel' begin end_ step (i + 1)
                           (dadd begin (dmul step (of_long (i + 1))))
                           (range ++ [makefloat x])
    end
  else Ret range.

Definition rtlb_range (fuel : nat) (slot : SpnValue) (argv : list SpnValue)
  : outcome NativeResult :=
  let finish (r : outcome (list SpnValue)) :=
    match r with
    | Ret range => Ret (done_ok (Array range))
    | OutOfFuel => OutOfFuel
    | Undefined => Undefined
    end in
  match argv with
  | [] | _ :: _ :: _ :: _ :: _ => Ret (raise (-1) slot "expecting 1, 2 or 3 arguments" [])
  | _ =>
      if negb (forallb isnum argv) then
        Ret (raise (-2) slot "arguments must be numbers" [])
      else
        match argv with
        | [Int n] => finish (range_int_loop fuel 0 n [])
        | [_] => Ret (raise (-3) slot "argument must be an integer" [])
        | [Int begin; Int end_] => finish (range_int_loop fuel begin end_ [])
        | [_; _] => Ret (raise (-3) slot "arguments must be integers" [])
        | [a0; a1; a2] =>
            let begin := FLOATVAL a0 in
            let end_ := FLOATVAL a1 in
            let step := FLOATVAL a2 in
            finish (range_float_loop fuel begin end_ step 0 begin [])
        | _ => Ret (raise (-1) slot "expecting 1, 2 or 3 arguments" [])
        end
  end.

(** The terms of the three-argument form: [begin], then
    [begin + step * 1], [begin + step * 2], ... *)
Definition range_term (begin step : double) (k : nat) : double :=
  match k with
  | O => begin
  | S _ => dadd begin (dmul step (of_long (Z.of_nat k)))
  end.

(** The loop of [rtlb_min] over [argv] from index 1 on: the return slot
    holds the least argument seen so far. *)
Fixpoint min_loop (argv : list SpnValue) (slot : SpnValue) : NativeResult :=
  match argv with
  | [] => done_ok slot
  | arg :: argv' =>
      match arg with
      | Float f =>
          match slot with
          | Float r => min_loop argv' (if SFltb f r then arg else slot)
          | Int r => min_loop argv' (if SFltb f (of_long r) then arg else slot)
          | _ => min_loop argv' slot
          end
      | Int i =>
          match slot with
          | Float r => min_loop argv' (if SFltb (of_long i) r then arg else slot)
          | Int r => min_loop argv' (if i <? r then arg else slot)
          | _ => min_loop argv' slot
          end
      | _ => raise (-2) slot "arguments must be numbers" []
      end
  end.

Definition rtlb_min (slot : SpnValue) (argv : list SpnValue) : NativeResult :=
  match argv with
  | [] => raise (-1) slot "at least one argument is required" []
  | a0 :: argv' =>
      if negb (isnum a0) then raise (-2) slot "arguments must be numbers" []
      else min_loop argv' a0
  end.

(** ** The system library (rtlb.c) *)

Section Sysutil.
Context `{M : Machine}.

(** Modelled from the spec: [spn_ctx_clearerror], which [rtlb.c] calls and
    [ctx.c] does not define.  "Calling clearerror resets the category to Ok
    but does not free previously returned values". *)
Definition spn_ctx_clearerror (ctx : SpnContext) : SpnContext :=
  set_errtype ctx SPN_ERROR_OK.

(** Modelled from the spec: [spn_ctx_compile_expr], which [rtlb.c] calls
    and [ctx.c] does not define.  "compile a single expression to a function
    with implicit return"; it reports its errors as [spn_ctx_loadstring]
    does and keeps the bytecode in the chain of the context. *)
Definition spn_ctx_compile_expr (ctx : SpnContext) (str : string)
  : SpnContext * option bytecode :=
  let ctx := set_errtype ctx SPN_ERROR_OK in
  let '(p, ast) := spn_parser_parse_expression (parser ctx) str in
  let ctx := set_parser ctx p in
  match ast with
  | None => (set_errtype ctx SPN_ERROR_SYNTAX, None)
  | Some ast =>
      let '(c, r) := spn_compiler_compile (cmp ctx) ast in
      let ctx := set_cmp ctx c in
      match r with
      | None => (set_errtype ctx SPN_ERROR_SEMANTIC, None)
      | Some (b, n) => (prepend_bytecode_list ctx b n, Some b)
      end
  end.

Definition rtlb_compile (ctx : SpnContext) (slot : SpnValue) (argv : list SpnValue)
  : outcome (SpnContext * NativeResult) :=
  match argv with
  | [a0] =>
      match a0 with
      | String s =>
          let src := string_of_list_ascii (c_str s) in
          match spn_ctx_loadstring ctx src with
          | (ctx, None) =>
              (* return parser/compiler error message *)
              match spn_ctx_geterrmsg ctx with
              | Some errmsg => Ret (spn_ctx_clearerror ctx, done_ok (makestring errmsg))
              | None => Undefined
              end
          | (ctx, Some fn) =>
              (* return function, make it owning *)
              Ret (ctx, done_ok (Func (Program fn)))
          end
      | _ => Ret (ctx, raise (-2) slot "argument must be a string" [])
      end
  | _ => Ret (ctx, raise (-1) slot "exactly one argument is required" [])
  end.

Definition rtlb_exprtofn (ctx : SpnContext) (slot : SpnValue) (argv : list SpnValue)
  : outcome (SpnContext * NativeResult) :=
  match argv with
  | [a0] =>
      match a0 with
      | String s =>
          match spn_ctx_compile_expr ctx (string_of_list_ascii (c_str s)) with
          | (ctx, None) =>
              match spn_ctx_geterrmsg ctx with
              | Some errmsg => Ret (spn_ctx_clearerror ctx, done_ok (makestring errmsg))
              | None => Undefined
              end
          | (ctx, Some fn) => Ret (ctx, done_ok (Func (Program fn)))
          end
      | _ => Ret (ctx, raise (-2) slot "argument must be a string" [])
      end
  | _ => Ret (ctx, raise (-1) slot "requiring exactly one argument" [])
  end.

End Sysutil.

Section SysutilSpec.
Context `{M : Machine}.

(** What [compile] and [exprtofn] have in common: [parse] is the entry
    point of the parser that the call goes through. *)
Definition reports_errors_as_strings
           (native : SpnContext -> SpnValue -> list SpnValue -> outcome (SpnContext * NativeResult))
           (parse : SpnParser -> string -> SpnParser * option SpnAST) : Prop :=
  forall (ctx : SpnContext) (slot : SpnValue),
    (* invalid source text: status 0, the message as a string, category Ok *)
    (forall s p msg,
        parse (parser ctx) (string_of_list_ascii (c_str s)) = (p, None) ->
        parser_errmsg p = Some msg ->
        exists ctx',
          native ctx slot [String s] = Ret (ctx', done_ok (makestring msg)) /\
          spn_ctx_geterrtype ctx' = SPN_ERROR_OK /\
          spn_ctx_geterrmsg ctx' = None) /\
    (forall s p ast c msg,
        parse (parser ctx) (string_of_list_ascii (c_str s)) = (p, Some ast) ->
        spn_compiler_compile (cmp ctx) ast = (c, None) ->
        spn_compiler_errmsg c = Some msg ->
        exists ctx',
          native ctx slot [String s] = Ret (ctx', done_ok (makestring msg)) /\
          spn_ctx_geterrtype ctx' = SPN_ERROR_OK /\
          spn_ctx_geterrmsg ctx' = None) /\
    (* valid source text: the function *)
    (forall s p ast c b n,
        parse (parser ctx) (string_of_list_ascii (c_str s)) = (p, Some ast) ->
        spn_compiler_compile (cmp ctx) ast = (c, Some (b, n)) ->
        exists ctx',
          native ctx slot [String s] = Ret (ctx', done_ok (Func (Program b))) /\
          spn_ctx_geterrtype ctx' = SPN_ERROR_OK) /\
    (* a nonzero status: only for a wrong count or a non-string *)
    (forall argv ctx' r,
        native ctx slot argv = Ret (ctx', r) ->
        (status r <> 0 <-> ~ exists s, argv = [String s])) /\
    (forall argv,
        (~ exists s, argv = [String s]) ->
        exists code msg, code < 0 /\ native ctx slot argv = Ret (ctx, raise code slot msg [])).

End SysutilSpec.

(** ** The return slot on the error path *)

(** A call that fails leaves the return slot as the caller set it up. *)
Definition keeps_slot (slot : SpnValue) (r : NativeResult) : Prop :=
  status r <> 0 -> ret r = slot.

(** ** Small collaborators to run the code on

    A parser that rejects every source starting with [@], a compiler that
    rejects the program [break], a machine whose programs are one word
    long, and a file system with two files. *)
Module Sample.

Definition parse (p : option string) (str : string)
  : option string * option string :=
  match str with
  | String.String "@" _ => (Some "syntax error: unexpected character"%string, None)
  | _ => (p, Some str)
  end.

Definition compile (c : option string) (ast : string)
  : option string * option (bytecode * Z) :=
  if String.eqb ast "break" then
    (Some "semantic error: break outside of a loop"%string, None)
  else (c, Some ([Z.of_nat (String.length ast)], 1)).

#[export] Instance collaborators : Collaborators := {|
  SpnParser := option string;
  SpnCompiler := option string;
  SpnVMachine := option string;
  SpnAST := string;
  parser_errmsg := fun p => p;
  spn_compiler_errmsg := fun c => c;
  spn_vm_geterrmsg := fun v => v;
  spn_parser_parse := parse;
  spn_parser_parse_expression := parse;
  spn_compiler_compile := compile;
  spn_read_text_file := fun fname =>
    if String.eqb fname "main.spn" then Some "return 1"%string else None;
  spn_read_binary_file := fun fname =>
    if String.eqb fname "main.spo" then Some ([7], 4) else None;
  sizeof_uword := 4
|}.

Definition set_vm (ctx : SpnContext) (v : option string) : SpnContext :=
  mkCtx (parser ctx) (cmp ctx) v (bclist ctx) (errtype ctx) (errmsg ctx) (info ctx).

(** A program of one word [w] returns [Int w]; the word 0 raises. *)
Definition exec (ctx : SpnContext) (b : bytecode) (slot : SpnValue)
  : SpnContext * Z * SpnValue :=
  match b with
  | [w] => if w =? 0 then (set_vm ctx (Some "runtime error"%string), -1, slot)
           else (ctx, 0, Int w)
  | _ => (set_vm ctx (Some "malformed bytecode"%string), -1, slot)
  end.

(** The built-in order, on integers only. *)
Definition compare_values (x y : SpnValue) : Z :=
  match x, y with
  | Int a, Int b => a - b
  | _, _ => 0
  end.

(** The native function [lt] is the less-than of the built-in order, [one]
    returns 1; calling anything else fails. *)
Definition callfunc (ctx : SpnContext) (func slot : SpnValue) (argv : list SpnValue)
  : SpnContext * Z * SpnValue :=
  match func, argv with
  | Func (Native "lt"), [Int x; Int y] => (ctx, 0, Bool (x <? y))
  | Func (Native "one"), _ => (ctx, 0, Int 1)
  | Func (Program b), _ => exec ctx b slot
  | _, _ => (set_vm ctx (Some "attempt to call a non-function"%string), -1, slot)
  end.

#[export] Instance machine : Machine :=
  {| spn_vm_exec := exec; spn_vm_callfunc := callfunc |}.

(** The functions of the sample return from every call and do not touch
    the array of their caller. *)
#[export] Instance callbacks : Callbacks :=
  {| array_after_call := fun _ _ _ a => Some a |}.

Definition ctx0 : SpnContext :=
  mkCtx None None None [] SPN_ERROR_OK None 0.

#[export] Instance value_ops : ValueOps := {|
  spn_type_name := fun t =>
    match t with
    | SPN_TYPE_NIL => "nil"
    | SPN_TYPE_BOOL => "bool"
    | SPN_TYPE_INT => "int"
    | SPN_TYPE_FLOAT => "float"
    | SPN_TYPE_STRING => "string"
    | SPN_TYPE_ARRAY => "array"
    | SPN_TYPE_HASHMAP => "hashmap"
    | SPN_TYPE_FUNC => "function"
    | SPN_TYPE_USERINFO => "userinfo"
    | SPN_TYPE_WEAKUSERINFO => "userinfo"
    end%string;
  spn_value_compare := fun x y =>
    match x, y with
    | Int a, Int b => a - b
    | _, _ => 0
    end
|}.

#[export] Instance file_system : FileSystem := {|
  fopen_rb := fun fname =>
    if String.eqb (string_of_list_ascii fname) "notes.txt"
    then inl (list_ascii_of_string "hello", true)
    else inr "No such file or directory"%string;
  fread_error := fun _ => "Input/output error"%string
|}.

(** Modelled from the spec: the format engine, which lives in the string
    module outside these sources.  Of its conversions this one has [%s]
    (string), [%d] and [%i] (integer) and [%%]; anything else is an error,
    as is a missing or ill-typed argument. *)
Fixpoint digits (fuel : nat) (n : Z) (acc : list ascii) : list ascii :=
  match fuel with
  | O => acc
  | S fuel' =>
      let d := ascii_of_nat (48 + Z.to_nat (n mod 10)) in
      if n <? 10 then d :: acc else digits fuel' (n / 10) (d :: acc)
  end.

Definition decimal (n : Z) : list ascii :=
  if n <? 0 then "-"%char :: digits (Z.to_nat (- n)) (- n) []
  else digits (S (Z.to_nat n)) n [].

Fixpoint format (fmt : list ascii) (args : list SpnValue) : SpnString + string :=
  match fmt with
  | [] => inl []
  | "%"%char :: "%"%char :: fmt' =>
      match format fmt' args with
      | inl res => inl ("%"%char :: res)
      | inr e => inr e
      end
  | "%"%char :: "s"%char :: fmt' =>
      match args with
      | String str :: args' =>
          match format fmt' args' with
          | inl res => inl (str ++ res)
          | inr e => inr e
          end
      | _ :: _ => inr "%s expects a string"%string
      | [] => inr "too few arguments"%string
      end
  | "%"%char :: ("d" | "i")%char :: fmt' =>
      match args with
      | Int n :: args' =>
          match format fmt' args' with
          | inl res => inl (decimal n ++ res)
          | inr e => inr e
          end
      | _ :: _ => inr "%d expects an integer"%string
      | [] => inr "too few arguments"%string
      end
  | "%"%char :: _ => inr "unknown conversion specifier"%string
  | c :: fmt' =>
      match format fmt' args with
      | inl res => inl (c :: res)
      | inr e => inr e
      end
  end.

#[export] Instance format_engine : FormatEngine :=
  {| spn_string_format_obj := fun fmt args => format (c_str fmt) args |}.

End Sample.

(* ===================================================================== *)
(** ** The context: the rest of its accessors (ctx.c) *)

Section ContextAccessors.
Context `{C : Collaborators}.

Definition spn_ctx_getbclist (ctx : SpnContext) : list spn_bc_node := bclist ctx.

Definition spn_ctx_getuserinfo (ctx : SpnContext) : Z := info ctx.

Definition spn_ctx_setuserinfo (ctx : SpnContext) (p : Z) : SpnContext :=
  mkCtx (parser ctx) (cmp ctx) (vm ctx) (bclist ctx) (errtype ctx) (errmsg ctx) p.

(** What a load does to the context besides the parser, the compiler
    and the error: the user info and the machine stay, and the list of
    bytecodes gets the bytecode returned as its new head, or stays as it
    is when nothing is returned. *)
Definition load_extends (ctx : SpnContext) (res : SpnContext * option bytecode) : Prop :=
  let '(ctx', r) := res in
  spn_ctx_getuserinfo ctx' = spn_ctx_getuserinfo ctx /\
  vm ctx' = vm ctx /\
  match r with
  | Some b => exists n, spn_ctx_getbclist ctx' = mkNode b n :: spn_ctx_getbclist ctx
  | None => spn_ctx_getbclist ctx' = spn_ctx_getbclist ctx
  end.

End ContextAccessors.

(** ** The string library, continued (rtlb.c) *)

(** [rtlb_str_find] from the offset on: a negative offset counts from the
    end of the haystack; [strstr] starts at [haystack->cstr + off] and the
    result is the distance of the match from the start of the haystack. *)
Definition str_find_from (slot : SpnValue) (haystack needle : SpnString) (off : Z)
  : NativeResult :=
  let len := Z.of_nat (List.length haystack) in
  let off := if off <? 0 then len + off else off in
  if (off <? 0) || (off >? len) then
    raise (-4) slot "normalized index out of bounds" []
  else
    match strstr (c_str (drop (Z.to_nat off) haystack)) (c_str needle) with
    | Some t => done_ok (makeint (off + Z.of_nat t))
    | None => done_ok (makeint (-1))
    end.

Definition rtlb_str_find (slot : SpnValue) (argv : list SpnValue) : NativeResult :=
  let strings (a0 a1 : SpnValue) (off : option SpnValue) :=
    match a0, a1 with
    | String haystack, String needle =>
        match off with
        | None => str_find_from slot haystack needle 0
        | Some (Int off) => str_find_from slot haystack needle off
        | Some _ => raise (-3) slot "third argument must be an integer" []
        end
    | _, _ => raise (-2) slot "first two arguments must be strings" []
    end in
  match argv with
  | [a0; a1] => strings a0 a1 None
  | [a0; a1; a2] => strings a0 a1 (Some a2)
  | _ => raise (-1) slot "two or three arguments are required" []
  end.

Definition rtlb_substrto (slot : SpnValue) (argv : list SpnValue) : NativeResult :=
  match argv with
  | [a0; a1] =>
      match a0 with
      | String str =>
          match a1 with
          | Int length => rtlb_aux_substr slot str 0 length
          | _ => raise (-2) slot "second argument must be an integer" []
          end
      | _ => raise (-2) slot "first argument must be a string" []
      end
  | _ => raise (-1) slot "exactly two arguments are required" []
  end.

(** The least [long], where [long] has 64 bits. *)
Definition LONG_MIN : Z := - 2 ^ 63.

(** [rtlb_substrfrom]: [length = slen - begin] is a subtraction of
    [long]s, which is undefined when it overflows. *)
Definition rtlb_substrfrom (slot : SpnValue) (argv : list SpnValue)
  : outcome NativeResult :=
  match argv with
  | [a0; a1] =>
      match a0 with
      | String str =>
          match a1 with
          | Int begin =>
              let slen := Z.of_nat (List.length str) in
              let length := slen - begin in
              if length >? LONG_MAX then Undefined
              else Ret (rtlb_aux_substr slot str begin length)
          | _ => Ret (raise (-2) slot "second argument must be an integer" [])
          end
      | _ => Ret (raise (-2) slot "first argument must be a string" [])
      end
  | _ => Ret (raise (-1) slot "exactly two arguments are required" [])
  end.

(** The largest [size_t], of 64 bits. *)
Definition SIZE_MAX : Z := 2 ^ 64 - 1.

(** The loop of [rtlb_repeat]: the [i]-th [memcpy] writes the bytes of
    the string at [buf + i * str->len]. *)
Fixpoint repeat_loop (n : nat) (str buf : list ascii) : list ascii :=
  match n with
  | O => buf
  | S n' => repeat_loop n' str (buf ++ str)
  end.

(** [rtlb_repeat]: the buffer has [str->len * n + 1] bytes, computed in
    [size_t]; when that wraps around, the copies run past the buffer. *)
Definition rtlb_repeat (slot : SpnValue) (argv : list SpnValue) : outcome NativeResult :=
  match argv with
  | [a0; a1] =>
      match a0 with
      | String str =>
          match a1 with
          | Int n =>
              if n <? 0 then
                Ret (raise (-3) slot "second argument must not be negative" [])
              else if Z.of_nat (List.length str) * n + 1 >? SIZE_MAX then Undefined
              else Ret (done_ok (makestring_nocopy_len (repeat_loop (Z.to_nat n) str [])))
          | _ => Ret (raise (-2) slot "second argument must be an integer" [])
          end
      | _ => Ret (raise (-2) slot "first argument must be a string" [])
      end
  | _ => Ret (raise (-1) slot "exactly two arguments are required" [])
  end.

Definition rtlb_format `{FormatEngine} (slot : SpnValue) (argv : list SpnValue)
  : NativeResult :=
  match argv with
  | [] => raise (-1) slot "at least one argument is required" []
  | a0 :: rest =>
      match a0 with
      | String fmt =>
          match spn_string_format_obj fmt rest with
          | inl res => done_ok (String res)
          | inr errmsg => raise (-3) slot "error in format string: %s" [ArgStr errmsg]
          end
      | _ => raise (-2) slot "first argument must be a format string" []
      end
  end.

(** ** The array library, continued (rtlb.c) *)

(** The loop of [rtlb_slice]: [spn_array_get(arr, idx + i, &tmp)] and a
    push onto the result, for [i] from 0 to [len - 1]. *)
Fixpoint slice_loop (n : nat) (arr : list SpnValue) (idx i : Z) (result : list SpnValue)
  : list SpnValue :=
  match n with
  | O => result
  | S n' => slice_loop n' arr idx (i + 1) (result ++ [spn_array_get arr (idx + i)])
  end.

(** [rtlb_slice]; [idx + len] is an addition of [long]s, undefined when
    it overflows. *)
Definition rtlb_slice (slot : SpnValue) (argv : list SpnValue) : outcome NativeResult :=
  match argv with
  | [a0; a1; a2] =>
      match a0 with
      | Array arr =>
          match a1 with
          | Int idx =>
              match a2 with
              | Int len =>
                  let n := spn_array_count arr in
                  if (idx <? 0) || (idx >? n) then
                    Ret (raise (-5) slot
                           "starting index %d is out of bounds for array of length %d"
                           [ArgInt idx; ArgInt n])
                  else if len <? 0 then
                    Ret (raise (-6) slot "length was negative (%d)" [ArgInt len])
                  else if idx + len >? LONG_MAX then Undefined
                  else if idx + len >? n then
                    Ret (raise (-7) slot
                           "range [%d, %d) out of bounds for array of size %d"
                           [ArgInt idx; ArgInt (idx + len); ArgInt n])
                  else Ret (done_ok (Array (slice_loop (Z.to_nat len) arr idx 0 [])))
              | _ => Ret (raise (-4) slot "third argument must be an integer length" [])
              end
          | _ => Ret (raise (-3) slot "second argument must be an integer index" [])
          end
      | _ => Ret (raise (-2) slot "first argument must be an array" [])
      end
  | _ => Ret (raise (-1) slot "expecting 3 arguments" [])
  end.

(** The loop of [rtlb_reverse]: [for (i = n; i > 0; i--)], reading the
    element at [i - 1]. *)
Fixpoint reverse_loop (i : nat) (arr result : list SpnValue) : list SpnValue :=
  match i with
  | O => result
  | S i' => reverse_loop i' arr (result ++ [spn_array_get arr (Z.of_nat i')])
  end.

Definition rtlb_reverse (slot : SpnValue) (argv : list SpnValue) : NativeResult :=
  match argv with
  | [a0] =>
      match a0 with
      | Array arr => done_ok (Array (reverse_loop (List.length arr) arr []))
      | _ => raise (-2) slot "argument must be an array" []
      end
  | _ => raise (-1) slot "expecting one argument" []
  end.

(** A native callable that works on its array argument in place: what it
    returns, and the elements of the array afterwards. *)
Record InPlace : Type := mkInPlace { in_res : NativeResult; in_arr : list SpnValue }.

(** [rtlb_swap] on the elements [arr] of its first argument. *)
Definition swap_in (slot : SpnValue) (arr : list SpnValue) (a1 a2 : SpnValue) : InPlace :=
  match a1, a2 with
  | Int idx_a, Int idx_b =>
      let n := spn_array_count arr in
      if (idx_a <? 0) || (idx_a >=? n) || (idx_b <? 0) || (idx_b >=? n) then
        let bad := if (idx_a <? 0) || (idx_a >=? n) then idx_a else idx_b in
        mkInPlace (raise (-3) slot "index %d is out of bounds for array of size %d"
                         [ArgInt bad; ArgInt n])
                  arr
      else
        let tmp_a := spn_array_get arr idx_a in
        let tmp_b := spn_array_get arr idx_b in
        let arr := spn_array_set arr idx_a tmp_b in
        let arr := spn_array_set arr idx_b tmp_a in
        mkInPlace (done_ok slot) arr
  | _, _ =>
      mkInPlace (raise (-2) slot "second and third arguments must be integers" []) arr
  end.

(** [rtlb_swap]: the result alone when the call does not get to an array. *)
Definition rtlb_swap (slot : SpnValue) (argv : list SpnValue)
  : NativeResult + InPlace :=
  match argv with
  | [a0; a1; a2] =>
      match a0 with
      | Array arr => inr (swap_in slot arr a1 a2)
      | _ => inl (raise (-2) slot "first argument must be an array" [])
      end
  | _ => inl (raise (-1) slot "expecting 3 arguments" [])
  end.

(** The equality of values, [spn_value_equal], which lives outside these
    sources. *)
Class ValueEq : Type := {
  spn_value_equal : SpnValue -> SpnValue -> bool
}.

(** The loop of [rtlb_arr_find] from index [i] on, [n] elements to go. *)
Fixpoint arr_find_loop `{ValueEq} (n : nat) (arr : list SpnValue) (i : Z) (x : SpnValue)
  : Z :=
  match n with
  | O => -1
  | S n' =>
      let tmp := spn_array_get arr i in
      if spn_value_equal tmp x then i else arr_find_loop n' arr (i + 1) x
  end.

Definition rtlb_arr_find `{ValueEq} (slot : SpnValue) (argv : list SpnValue)
  : NativeResult :=
  match argv with
  | [a0; a1] =>
      match a0 with
      | Array arr => done_ok (makeint (arr_find_loop (List.length arr) arr 0 a1))
      | _ => raise (-2) slot "first argument must be an array" []
      end
  | _ => raise (-1) slot "expecting two arguments" []
  end.

(** Modelled from the spec: the primitives of the array object that change
    its size, which live in the array module outside these sources.
    "push(v): append", "pop(): remove last", "insert(i,v): i in [0,count];
    shifts tail right", "inject(i,other): splice another sequence at i",
    "remove(i): i in [0,count); shifts tail left". *)
Definition spn_array_push (a : list SpnValue) (x : SpnValue) : list SpnValue := a ++ [x].

Definition spn_array_pop (a : list SpnValue) : list SpnValue :=
  take (List.length a - 1) a.

Definition spn_array_insert (a : list SpnValue) (i : Z) (x : SpnValue) : list SpnValue :=
  take (Z.to_nat i) a ++ x :: drop (Z.to_nat i) a.

Definition spn_array_inject (a : list SpnValue) (i : Z) (other : list SpnValue)
  : list SpnValue :=
  take (Z.to_nat i) a ++ other ++ drop (Z.to_nat i) a.

Definition spn_array_remove (a : list SpnValue) (i : Z) : list SpnValue :=
  take (Z.to_nat i) a ++ drop (S (Z.to_nat i)) a.

Definition rtlb_push (slot : SpnValue) (argv : list SpnValue) : NativeResult + InPlace :=
  match argv with
  | [a0; a1] =>
      match a0 with
      | Array arr => inr (mkInPlace (done_ok slot) (spn_array_push arr a1))
      | _ => inl (raise (-2) slot "first argument must be an array" [])
      end
  | _ => inl (raise (-1) slot "expecting 2 arguments" [])
  end.

Definition rtlb_pop (slot : SpnValue) (argv : list SpnValue) : NativeResult + InPlace :=
  match argv with
  | [a0] =>
      match a0 with
      | Array arr =>
          let n := spn_array_count arr in
          if n =? 0 then
            inr (mkInPlace (raise (-3) slot "cannot pop() empty array" []) arr)
          else
            (* return last element, remove it from array *)
            inr (mkInPlace (done_ok (spn_array_get arr (n - 1))) (spn_array_pop arr))
      | _ => inl (raise (-2) slot "argument must be an array" [])
      end
  | _ => inl (raise (-1) slot "expecting one argument" [])
  end.

Definition rtlb_last (slot : SpnValue) (argv : list SpnValue) : NativeResult :=
  match argv with
  | [a0] =>
      match a0 with
      | Array arr =>
          let n := spn_array_count arr in
          if n =? 0 then raise (-3) slot "cannot get last element of empty array" []
          else done_ok (spn_array_get arr (n - 1))
      | _ => raise (-2) slot "argument must be an array" []
      end
  | _ => raise (-1) slot "expecting one argument" []
  end.

Definition rtlb_insert (slot : SpnValue) (argv : list SpnValue) : NativeResult + InPlace :=
  match argv with
  | [a0; a1; a2] =>
      match a0 with
      | Array arr =>
          match a2 with
          | Int index =>
              let size := spn_array_count arr in
              if (index <? 0) || (index >? size) then
                inr (mkInPlace (raise (-4) slot "index %d out of bounds for array of size %d"
                                      [ArgInt index; ArgInt size])
                               arr)
              else inr (mkInPlace (done_ok slot) (spn_array_insert arr index a1))
          | _ => inr (mkInPlace (raise (-3) slot "third argument must be an integer" []) arr)
          end
      | _ => inl (raise (-2) slot "first argument must be an array" [])
      end
  | _ => inl (raise (-1) slot "expecting 3 arguments" [])
  end.

Definition rtlb_erase (slot : SpnValue) (argv : list SpnValue) : NativeResult + InPlace :=
  match argv with
  | [a0; a1] =>
      match a0 with
      | Array arr =>
          match a1 with
          | Int index =>
              let n := spn_array_count arr in
              if (index <? 0) || (index >=? n) then
                inr (mkInPlace (raise (-4) slot "index %d out of bounds for array of size %d"
                                      [ArgInt index; ArgInt n])
                               arr)
              else inr (mkInPlace (done_ok slot) (spn_array_remove arr index))
          | _ =>
              inr (mkInPlace (raise (-3) slot "second argument must be an integer index" [])
                             arr)
          end
      | _ => inl (raise (-2) slot "first argument must be an array" [])
      end
  | _ => inl (raise (-1) slot "expecting 2 arguments" [])
  end.

(** *** The array callables that call back (rtlb.c)

    The callback runs on the machine through [spn_ctx_callfunc], so it
    can change the context; the elements of the array are read from the
    array as it was when the call started.  The variable that receives
    the result of the callback is not initialised in the source; here the
    call starts with nil in it ([reduce] passes the value folded so far). *)

Section Callbacks.
Context `{M : Machine}.

(** The loop of [rtlb_array_foreach] from index [i] on. *)
Fixpoint foreach_loop (n : nat) (ctx : SpnContext) (slot : SpnValue)
         (arr : list SpnValue) (predicate : SpnValue) (i : Z)
  : SpnContext * NativeResult :=
  match n with
  | O => (ctx, done_ok slot)
  | S n' =>
      let args := [spn_array_get arr i; makeint i] in
      let '(ctx, err, cbret) := spn_ctx_callfunc ctx predicate spn_nilval args in
      if negb (err =? 0) then (ctx, mkRes (-4) slot None)
      else
        (* the callback must return a Boolean or nothing *)
        match cbret with
        | Bool false => (ctx, done_ok slot)
        | Bool true | Nil => foreach_loop n' ctx slot arr predicate (i + 1)
        | _ => (ctx, raise (-5) slot "callback function must return boolean or nil" [])
        end
  end.

(** The loop of [rtlb_reduce]: [tmp] is the value folded so far, which
    is also what the slot of the call holds when the callback starts. *)
Fixpoint reduce_loop (n : nat) (ctx : SpnContext) (slot : SpnValue)
         (arr : list SpnValue) (func : SpnValue) (i : Z) (tmp : SpnValue)
  : SpnContext * NativeResult :=
  match n with
  | O => (ctx, done_ok tmp)
  | S n' =>
      let args := [tmp; spn_array_get arr i] in
      let '(ctx, err, tmp) := spn_ctx_callfunc ctx func tmp args in
      if negb (err =? 0) then (ctx, mkRes (-4) slot None)
      else reduce_loop n' ctx slot arr func (i + 1) tmp
  end.

(** The loop of [rtlb_array_filter]; [filt] holds the elements kept. *)
Fixpoint filter_loop (n : nat) (ctx : SpnContext) (slot : SpnValue)
         (orig : list SpnValue) (predicate : SpnValue) (i : Z) (filt : list SpnValue)
  : SpnContext * NativeResult :=
  match n with
  | O => (ctx, done_ok (Array filt))
  | S n' =>
      let args := [spn_array_get orig i; makeint i] in
      let '(ctx, err, cond) := spn_ctx_callfunc ctx predicate spn_nilval args in
      if negb (err =? 0) then (ctx, mkRes (-4) slot None)
      else
        match cond with
        | Bool b =>
            filter_loop n' ctx slot orig predicate (i + 1)
                        (if b then filt ++ [spn_array_get orig i] else filt)
        | _ => (ctx, raise (-5) slot "predicate must return a boolean" [])
        end
  end.

(** The loop of [rtlb_array_map]; [mapped] holds the results so far. *)
Fixpoint map_loop (n : nat) (ctx : SpnContext) (slot : SpnValue)
         (orig : list SpnValue) (predicate : SpnValue) (i : Z) (mapped : list SpnValue)
  : SpnContext * NativeResult :=
  match n with
  | O => (ctx, done_ok (Array mapped))
  | S n' =>
      let args := [spn_array_get orig i; makeint i] in
      let '(ctx, err, result) := spn_ctx_callfunc ctx predicate spn_nilval args in
      if negb (err =? 0) then (ctx, mkRes (-4) slot None)
      else map_loop n' ctx slot orig predicate (i + 1) (mapped ++ [result])
  end.

(** The argument checks that [foreach], [filter], [map], [any], [all]
    and [pfind] share: two arguments, an array and a function; [msg] is
    the message for a wrong count. *)
Definition with_array_and_function (msg : string) (ctx : SpnContext) (slot : SpnValue)
           (argv : list SpnValue)
           (body : list SpnValue -> SpnValue -> SpnContext * NativeResult)
  : SpnContext * NativeResult :=
  match argv with
  | [a0; a1] =>
      match a0 with
      | Array arr =>
          if isfunc a1 then body arr a1
          else (ctx, raise (-3) slot "second argument must be a function" [])
      | _ => (ctx, raise (-2) slot "first argument must be an array" [])
      end
  | _ => (ctx, raise (-1) slot msg [])
  end.

Definition rtlb_array_foreach (ctx : SpnContext) (slot : SpnValue) (argv : list SpnValue)
  : SpnContext * NativeResult :=
  with_array_and_function "two arguments are required" ctx slot argv
    (fun arr predicate => foreach_loop (List.length arr) ctx slot arr predicate 0).

Definition rtlb_array_filter (ctx : SpnContext) (slot : SpnValue) (argv : list SpnValue)
  : SpnContext * NativeResult :=
  with_array_and_function "expecting two arguments" ctx slot argv
    (fun orig predicate => filter_loop (List.length orig) ctx slot orig predicate 0 []).

Definition rtlb_array_map (ctx : SpnContext) (slot : SpnValue) (argv : list SpnValue)
  : SpnContext * NativeResult :=
  with_array_and_function "expecting two arguments" ctx slot argv
    (fun orig predicate => map_loop (List.length orig) ctx slot orig predicate 0 []).

Definition rtlb_reduce (ctx : SpnContext) (slot : SpnValue) (argv : list SpnValue)
  : SpnContext * NativeResult :=
  match argv with
  | [arrval; first; a2] =>
      match arrval with
      | Array arr =>
          if isfunc a2 then reduce_loop (List.length arr) ctx slot arr a2 0 first
          else (ctx, raise (-3) slot "third argument must be a function" [])
      | _ => (ctx, raise (-2) slot "first argument must be an array" [])
      end
  | _ => (ctx, raise (-1) slot "expecting three arguments" [])
  end.

(** The loop of [rtlb_aux_anyall]; the slot holds the answer for an
    array without a deciding element from before the loop starts. *)
Fixpoint anyall_loop (n : nat) (ctx : SpnContext) (arr : list SpnValue)
         (predicate : SpnValue) (i : Z) (any : bool) : SpnContext * NativeResult :=
  let slot := if any then spn_falseval else spn_trueval in
  match n with
  | O => (ctx, done_ok slot)
  | S n' =>
      let keyval := [spn_array_get arr i; makeint i] in
      let '(ctx, err, result) := spn_ctx_callfunc ctx predicate spn_nilval keyval in
      if negb (err =? 0) then (ctx, mkRes (-4) slot None)
      else
        match result with
        | Bool b =>
            if any && b then (ctx, done_ok spn_trueval)
            else if negb any && negb b then (ctx, done_ok spn_falseval)
            else anyall_loop n' ctx arr predicate (i + 1) any
        | _ => (ctx, raise (-5) slot "predicate must return a Boolean" [])
        end
  end.

Definition rtlb_aux_anyall (ctx : SpnContext) (slot : SpnValue) (argv : list SpnValue)
           (any : bool) : SpnContext * NativeResult :=
  with_array_and_function "expecting two arguments" ctx slot argv
    (fun arr predicate => anyall_loop (List.length arr) ctx arr predicate 0 any).

Definition rtlb_any (ctx : SpnContext) (slot : SpnValue) (argv : list SpnValue) :=
  rtlb_aux_anyall ctx slot argv true.

Definition rtlb_all (ctx : SpnContext) (slot : SpnValue) (argv : list SpnValue) :=
  rtlb_aux_anyall ctx slot argv false.

(** The loop of [rtlb_pfind]: the predicate gets the element alone. *)
Fixpoint pfind_loop (n : nat) (ctx : SpnContext) (slot : SpnValue)
         (arr : list SpnValue) (predicate : SpnValue) (i : Z)
  : SpnContext * NativeResult :=
  match n with
  | O => (ctx, done_ok (makeint (-1)))
  | S n' =>
      let tmp := spn_array_get arr i in
      let '(ctx, err, pret) := spn_ctx_callfunc ctx predicate spn_nilval [tmp] in
      if negb (err =? 0) then (ctx, mkRes (-4) slot None)
      else
        match pret with
        | Bool b =>
            if b then (ctx, done_ok (makeint i))
            else pfind_loop n' ctx slot arr predicate (i + 1)
        | _ => (ctx, raise (-5) slot "predicate must return a Boolean" [])
        end
  end.

Definition rtlb_pfind (ctx : SpnContext) (slot : SpnValue) (argv : list SpnValue)
  : SpnContext * NativeResult :=
  with_array_and_function "expecting two arguments" ctx slot argv
    (fun arr predicate => pfind_loop (List.length arr) ctx slot arr predicate 0).

End Callbacks.

(** The function [f], called through the machine, returns [g] of its
    arguments with status 0 and does nothing else. *)
Definition computes `{Machine} (f : SpnValue) (g : list SpnValue -> SpnValue) : Prop :=
  forall ctx slot argv, spn_vm_callfunc ctx f slot argv = (ctx, 0, g argv).

(** The function [f], called through the machine, always fails. *)
Definition always_fails `{Machine} (f : SpnValue) : Prop :=
  forall ctx slot argv, snd (fst (spn_vm_callfunc ctx f slot argv)) <> 0.

(** The context after [n] calls that changed nothing: a call through
    [spn_ctx_callfunc] resets the category. *)
Definition after_calls `{Collaborators} (ctx : SpnContext) (n : nat) : SpnContext :=
  match n with
  | O => ctx
  | S _ => mkCtx (parser ctx) (cmp ctx) (vm ctx) (bclist ctx) SPN_ERROR_OK
                 (errmsg ctx) (info ctx)
  end.

(** *** Binary search (rtlb.c) *)

Section BinarySearch.
Context `{M : Machine} `{V : ValueOps}.

(** [rtlb_aux_bsearch_compare]: positive if [a < b], zero if [a >= b],
    negative if an error occurred; with the context afterwards and the
    runtime error the function itself reported, if any. *)
Definition rtlb_aux_bsearch_compare (ctx : SpnContext) (a b : SpnValue)
           (predicate : option SpnValue) : SpnContext * Z * option RuntimeError :=
  match predicate with
  | Some f =>
      let '(ctx, err, pret) := spn_ctx_callfunc ctx f spn_nilval [a; b] in
      if negb (err =? 0) then (ctx, -1, None)
      else
        match pret with
        | Bool b => (ctx, if b then 1 else 0, None)
        | _ => (ctx, -2, Some (mkErr "predicate must return a Boolean" []))
        end
  | None =>
      (* if no predicate was supplied, use the "<" operator *)
      if spn_values_comparable a b then
        (ctx, if spn_value_compare a b <? 0 then 1 else 0, None)
      else
        (ctx, -3,
         Some (mkErr "cannot compare values of type %s and %s"
                     [ArgStr (spn_type_name (type_of a));
                      ArgStr (spn_type_name (type_of b))]))
  end.

(** [rtlb_aux_bsearch] searches [lower, upper); the [assert] at its
    head stops the program when [lower > upper]. *)
Fixpoint rtlb_aux_bsearch (fuel : nat) (ctx : SpnContext) (slot : SpnValue)
         (arr : list SpnValue) (elem : SpnValue) (lower upper : Z)
         (predicate : option SpnValue) : outcome (SpnContext * NativeResult) :=
  if lower >? upper then Undefined
  else if lower =? upper then Ret (ctx, done_ok (makeint (-1)))
  else
    match fuel with
    | O => OutOfFuel
    | S fuel' =>
        let middle := lower + (upper - lower) / 2 in
        (* first, check if elem < middle *)
        let '(ctx, is_smaller, e) :=
          rtlb_aux_bsearch_compare ctx elem (spn_array_get arr middle) predicate in
        if is_smaller <? 0 then Ret (ctx, mkRes (-1) slot e)
        else if is_smaller >? 0 then
          rtlb_aux_bsearch fuel' ctx slot arr elem lower middle predicate
        else
          (* key was not smaller than middle element, so check if "elem > middle" *)
          let '(ctx, is_greater, e) :=
            rtlb_aux_bsearch_compare ctx (spn_array_get arr middle) elem predicate in
          if is_greater <? 0 then Ret (ctx, mkRes (-1) slot e)
          else if is_greater >? 0 then
            rtlb_aux_bsearch fuel' ctx slot arr elem (middle + 1) upper predicate
          else Ret (ctx, done_ok (makeint middle))
    end.

Definition rtlb_bsearch (ctx : SpnContext) (slot : SpnValue) (argv : list SpnValue)
  : outcome (SpnContext * NativeResult) :=
  let search (arr : list SpnValue) (elem : SpnValue) (predicate : option SpnValue) :=
    rtlb_aux_bsearch (List.length arr) ctx slot arr elem 0 (spn_array_count arr)
                     predicate in
  match argv with
  | [a0; a1] =>
      match a0 with
      | Array arr => search arr a1 None
      | _ => Ret (ctx, raise (-2) slot "first argument must be an array" [])
      end
  | [a0; a1; a2] =>
      match a0 with
      | Array arr =>
          if isfunc a2 then search arr a1 (Some a2)
          else Ret (ctx, raise (-3) slot "third argument must be a function" [])
      | _ => Ret (ctx, raise (-2) slot "first argument must be an array" [])
      end
  | _ => Ret (ctx, raise (-1) slot "expecting 2 or 3 arguments" [])
  end.

End BinarySearch.

(** The order the sort and the search work with: [x] is below [y]. *)
Definition value_lt `{ValueOps} (x y : SpnValue) : bool := spn_value_compare x y <? 0.

(** The elements of [a] at the indices [left..right] are in order: none
    is below one that comes before it. *)
Definition sorted_between `{ValueOps} (a : list SpnValue) (left right : Z) : Prop :=
  forall i j, left <= i -> i < j -> j <= right ->
              value_lt (spn_array_get a j) (spn_array_get a i) = false.

Definition sorted `{ValueOps} (a : list SpnValue) : Prop :=
  sorted_between a 0 (spn_array_count a - 1).

(** [a'] differs from [a] inside the indices [left..right] only, where
    its elements are elements that [a] has there. *)
Definition within (left right : Z) (a a' : list SpnValue) : Prop :=
  spn_array_count a' = spn_array_count a /\
  (forall k, 0 <= k -> k < left \/ right < k -> spn_array_get a' k = spn_array_get a k) /\
  (forall k, left <= k <= right ->
             exists k', left <= k' <= right /\ spn_array_get a' k = spn_array_get a k').

(** The built-in order on the elements of [a]: any two can be compared,
    and being below is transitive and not mutual. *)
Record ordered_elements `{ValueOps} (a : list SpnValue) : Prop := {
  elements_comparable :
    forall x y, x ∈ a -> y ∈ a -> spn_values_comparable x y = true;
  below_transitive :
    forall x y z, x ∈ a -> y ∈ a -> z ∈ a ->
                  value_lt x y = true -> value_lt y z = true -> value_lt x z = true;
  below_asymmetric :
    forall x y, x ∈ a -> y ∈ a -> value_lt x y = true -> value_lt y x = false
}.

(** ** The math library, continued (rtlb.c) *)

(** [val2float]: the floating-point value of a number, [assert]ed to be
    one, even if it holds an integer. *)
Definition val2float (val : SpnValue) : double :=
  match val with
  | Float f => f
  | Int i => of_long i
  | _ => S754_nan
  end.

(** Whether a number is in the range of [long]; arithmetic on [long]s that
    leaves it is undefined. *)
Definition in_long (z : Z) : bool := (LONG_MIN <=? z) && (z <=? LONG_MAX).

(** The loop of [rtlb_max] over [argv] from index 1 on: the return slot
    holds the greatest argument seen so far. *)
Fixpoint max_loop (argv : list SpnValue) (slot : SpnValue) : NativeResult :=
  match argv with
  | [] => done_ok slot
  | arg :: argv' =>
      match arg with
      | Float f =>
          match slot with
          | Float r => max_loop argv' (if SFltb r f then arg else slot)
          | Int r => max_loop argv' (if SFltb (of_long r) f then arg else slot)
          | _ => max_loop argv' slot
          end
      | Int i =>
          match slot with
          | Float r => max_loop argv' (if SFltb r (of_long i) then arg else slot)
          | Int r => max_loop argv' (if i >? r then arg else slot)
          | _ => max_loop argv' slot
          end
      | _ => raise (-2) slot "arguments must be numbers" []
      end
  end.

Definition rtlb_max (slot : SpnValue) (argv : list SpnValue) : NativeResult :=
  match argv with
  | [] => raise (-1) slot "at least one argument is required" []
  | a0 :: argv' =>
      if negb (isnum a0) then raise (-2) slot "arguments must be numbers" []
      else max_loop argv' a0
  end.

(** The loop of [rtlb_fact]: [for (i = 2; i <= n; i++) r *= i]. *)
Fixpoint fact_loop (fuel : nat) (i n r : Z) : outcome Z :=
  if i <=? n then
    match fuel with
    | O => OutOfFuel
    | S fuel' =>
        if negb (in_long (r * i)) then Undefined
        else fact_loop fuel' (i + 1) n (r * i)
    end
  else Ret r.

Definition rtlb_fact (slot : SpnValue) (argv : list SpnValue) : outcome NativeResult :=
  match argv with
  | [a0] =>
      match a0 with
      | Int n =>
          if n <? 0 then Ret (raise (-3) slot "argument must not be negative" [])
          else
            match fact_loop (Z.to_nat n) 2 n 1 with
            | Ret r => Ret (done_ok (makeint r))
            | OutOfFuel => OutOfFuel
            | Undefined => Undefined
            end
      | _ => Ret (raise (-2) slot "argument must be an integer" [])
      end
  | _ => Ret (raise (-1) slot "exactly one argument is required" [])
  end.

(** The loop of [rtlb_binom]: [while (m-- > 0) p = p * i++ / j++]. *)
Fixpoint binom_loop (m : nat) (p i j : Z) : outcome Z :=
  match m with
  | O => Ret p
  | S m' =>
      if negb (in_long (p * i)) then Undefined
      else if negb (in_long (i + 1)) then Undefined
      else binom_loop m' (Z.quot (p * i) j) (i + 1) (j + 1)
  end.

Definition rtlb_binom (slot : SpnValue) (argv : list SpnValue) : outcome NativeResult :=
  match argv with
  | [a0; a1] =>
      match a0, a1 with
      | Int n, Int k =>
          if (n <? 0) || (k <? 0) || (n <? k) then
            Ret (raise (-3) slot "n >= k >= 0 is expected" [])
          else
            let m := if k <? n - k then k else n - k in (* min(k, n - k) *)
            let k := m in
            if negb (in_long (n - k + 1)) then Undefined
            else
              match binom_loop (Z.to_nat m) 1 (n - k + 1) 1 with
              | Ret p => Ret (done_ok (makeint p))
              | OutOfFuel => OutOfFuel
              | Undefined => Undefined
              end
      | _, _ => Ret (raise (-2) slot "arguments must be integers" [])
      end
  | _ => Ret (raise (-1) slot "exactly two arguments are required" [])
  end.

(** The loop of the integer branch of [rtlb_pow], exponentiation by
    squaring: [while (e != 0) { if (e & 0x01) r *= b; b *= b; e >>= 1; }]. *)
Fixpoint pow_loop (fuel : nat) (b e r : Z) : outcome Z :=
  if e =? 0 then Ret r
  else
    match fuel with
    | O => OutOfFuel
    | S fuel' =>
        let r := if negb (Z.land e 1 =? 0) then r * b else r in
        if negb (in_long r) then Undefined
        else if negb (in_long (b * b)) then Undefined
        else pow_loop fuel' (b * b) (Z.shiftr e 1) r
    end.

(** [pow] of the C library. *)
Class LibM : Type := { c_pow : double -> double -> double }.

Definition rtlb_pow `{LibM} (slot : SpnValue) (argv : list SpnValue)
  : outcome NativeResult :=
  match argv with
  | [a0; a1] =>
      if negb (isnum a0) || negb (isnum a1) then
        Ret (raise (-2) slot "arguments must be numbers" [])
      else
        match a0, a1 with
        | Int b, Int e =>
            if e <? 0 then Ret (done_ok (makefloat (c_pow (val2float a0) (val2float a1))))
            else
              match pow_loop 64 b e 1 with
              | Ret r => Ret (done_ok (makeint r))
              | OutOfFuel => OutOfFuel
              | Undefined => Undefined
              end
        | _, _ => Ret (done_ok (makefloat (c_pow (val2float a0) (val2float a1))))
        end
  | _ => Ret (raise (-1) slot "exactly two arguments are required" [])
  end.

Definition dsub : double -> double -> double := SFsub dprec demax.

(** [x != x] *)
Definition rtlb_aux_isnan (x : double) : bool := negb (SFeqb x x).

Definition rtlb_aux_isfin (x : double) : bool :=
  let zero := dsub x x in
  SFeqb x x && SFeqb zero zero.

Definition rtlb_aux_isinf (x : double) : bool :=
  let zero := dsub x x in
  SFeqb x x && negb (SFeqb zero zero).

(** floating-point classification: double -> boolean *)
Definition rtlb_aux_fltclass (slot : SpnValue) (argv : list SpnValue) (fn : double -> bool)
  : NativeResult :=
  match argv with
  | [a0] =>
      if negb (isnum a0) then raise (-2) slot "argument must be a number" []
      else done_ok (makebool (fn (val2float a0)))
  | _ => raise (-1) slot "exactly one argument is required" []
  end.

Definition rtlb_isfin (slot : SpnValue) (argv : list SpnValue) :=
  rtlb_aux_fltclass slot argv rtlb_aux_isfin.
Definition rtlb_isinf (slot : SpnValue) (argv : list SpnValue) :=
  rtlb_aux_fltclass slot argv rtlb_aux_isinf.
Definition rtlb_isnan (slot : SpnValue) (argv : list SpnValue) :=
  rtlb_aux_fltclass slot argv rtlb_aux_isnan.

(** The constants [+1.0], [-1.0] and [0.0] of [rtlb_sgn]. *)
Definition d_one (negative : bool) : double := S754_finite negative 4503599627370496 (-52).
Definition d_zero : double := S754_zero false.

Definition rtlb_sgn (slot : SpnValue) (argv : list SpnValue) : NativeResult :=
  match argv with
  | [a0] =>
      match a0 with
      | Float x =>
          if SFltb d_zero x then done_ok (makefloat (d_one false))
          else if SFltb x d_zero then done_ok (makefloat (d_one true))
          else if SFeqb x d_zero then done_ok (makefloat d_zero) (* yup, always +0 *)
          else done_ok (makefloat (SFdiv dprec demax d_zero d_zero)) (* sgn(NaN) = NaN *)
      | Int x => done_ok (makeint (if x >? 0 then 1 else if x <? 0 then -1 else 0))
      | _ => raise (-2) slot "argument must be a number" []
      end
  | _ => raise (-1) slot "exactly one argument is required" []
  end.

(** [rtlb_abs]; [-ret->v.i] is undefined for the least [long]. *)
Definition rtlb_abs (slot : SpnValue) (argv : list SpnValue) : outcome NativeResult :=
  match argv with
  | [a0] =>
      match a0 with
      | Float f => Ret (done_ok (Float (SFabs f)))
      | Int i =>
          if i <? 0 then
            if negb (in_long (- i)) then Undefined else Ret (done_ok (Int (- i)))
          else Ret (done_ok (Int i))
      | _ => Ret (raise (-2) slot "argument must be a number" [])
      end
  | _ => Ret (raise (-1) slot "exactly one argument is required" [])
  end.

(** The factorial and the binomial coefficients (by Pascal's rule): what
    [fact] and [binom] are to compute. *)
Fixpoint factorial (n : nat) : Z :=
  match n with
  | O => 1
  | S n' => Z.of_nat n * factorial n'
  end.

Fixpoint binomial (n k : nat) : Z :=
  match n, k with
  | _, O => 1
  | O, S _ => 0
  | S n', S k' => binomial n' k' + binomial n' (S k')
  end.


(** ** A sample machine with callbacks

    Three native functions that compute a value from their arguments and
    touch nothing else; calling anything else fails. *)

Module SampleNatives.
Import Sample.

(** [positive(x, ...)]: whether the integer [x] is above zero. *)
Definition positive (argv : list SpnValue) : bool :=
  match argv with
  | Int x :: _ => 0 <? x
  | _ => false
  end.

(** [plus(x, y)]: the sum of two integers, nil for anything else. *)
Definition plus (argv : list SpnValue) : SpnValue :=
  match argv with
  | [Int x; Int y] => Int (x + y)
  | _ => Nil
  end.

Definition call_native (ctx : SpnContext) (func slot : SpnValue) (argv : list SpnValue)
  : SpnContext * Z * SpnValue :=
  match func with
  | Func (Native "positive") => (ctx, 0, Bool (positive argv))
  | Func (Native "plus") => (ctx, 0, plus argv)
  | _ => (set_vm ctx (Some "attempt to call a non-function"%string), -1, slot)
  end.

Definition machine : Machine :=
  {| spn_vm_exec := exec; spn_vm_callfunc := call_native |}.

(** A stand-in for [pow] of the C library, which the integer branch of
    [rtlb_pow] does not call. *)
Definition libm : LibM := {| c_pow := fun x _ => x |}.

(** Comparators that do not behave: [wipe] answers true and empties the
    array of its caller on the way, [hang] never returns. *)
Definition call_unruly (ctx : SpnContext) (func slot : SpnValue) (argv : list SpnValue)
  : SpnContext * Z * SpnValue :=
  match func with
  | Func (Native "wipe") => (ctx, 0, Bool true)
  | _ => (ctx, 0, Bool false)
  end.

Definition unruly_machine : Machine :=
  {| spn_vm_exec := exec; spn_vm_callfunc := call_unruly |}.

Definition unruly : Callbacks :=
  {| array_after_call := fun _ f _ a =>
       match f with
       | Func (Native "wipe") => Some []
       | Func (Native "hang") => None
       | _ => Some a
       end |}.

End SampleNatives.

(** * Part II: properties *)
(* ===================================================================== *)

(** ** The context *)

Section ContextFacts.
Context `{M : Machine}.

Lemma loadstring_syntax ctx str p :
  spn_parser_parse (parser ctx) str = (p, None) ->
  spn_ctx_loadstring ctx str =
    (set_errtype (set_parser (set_errtype ctx SPN_ERROR_OK) p) SPN_ERROR_SYNTAX, None).
Proof.
  intros Hp. unfold spn_ctx_loadstring. simpl.
  rewrite Hp. reflexivity.
Qed.

Lemma loadstring_semantic ctx str p ast c :
  spn_parser_parse (parser ctx) str = (p, Some ast) ->
  spn_compiler_compile (cmp ctx) ast = (c, None) ->
  spn_ctx_loadstring ctx str =
    (set_errtype (set_cmp (set_parser (set_errtype ctx SPN_ERROR_OK) p) c)
                 SPN_ERROR_SEMANTIC, None).
Proof.
  intros Hp Hc. unfold spn_ctx_loadstring. simpl.
  rewrite Hp. simpl. rewrite Hc. reflexivity.
Qed.

Lemma loadstring_success ctx str p ast c b n :
  spn_parser_parse (parser ctx) str = (p, Some ast) ->
  spn_compiler_compile (cmp ctx) ast = (c, Some (b, n)) ->
  spn_ctx_loadstring ctx str =
    (prepend_bytecode_list (set_cmp (set_parser (set_errtype ctx SPN_ERROR_OK) p) c) b n,
     Some b).
Proof.
  intros Hp Hc. unfold spn_ctx_loadstring. simpl.
  rewrite Hp. simpl. rewrite Hc. reflexivity.
Qed.

(** The three ways a load of a string can go. *)
Lemma loadstring_cases ctx str :
  (exists p, spn_parser_parse (parser ctx) str = (p, None)) \/
  (exists p ast c, spn_parser_parse (parser ctx) str = (p, Some ast) /\
                   spn_compiler_compile (cmp ctx) ast = (c, None)) \/
  (exists p ast c b n, spn_parser_parse (parser ctx) str = (p, Some ast) /\
                       spn_compiler_compile (cmp ctx) ast = (c, Some (b, n))).
Proof.
  destruct (spn_parser_parse (parser ctx) str) as [p [ast|]] eqn:Hp.
  - destruct (spn_compiler_compile (cmp ctx) ast) as [c [[b n]|]] eqn:Hc.
    + right; right. exists p, ast, c, b, n. auto.
    + right; left. exists p, ast, c. auto.
  - left. exists p. reflexivity.
Qed.


(** *** The error discriminator *)

Lemma loadstring_reset ctx cat0 str :
  spn_ctx_loadstring (set_errtype ctx cat0) str = spn_ctx_loadstring ctx str.
Proof. reflexivity. Qed.

Lemma run_entry_reset e ctx cat0 :
  run_entry e (set_errtype ctx cat0) = run_entry e ctx.
Proof. destruct e; reflexivity. Qed.

Lemma execbytecode_failed ctx b slot ctx' st slot' :
  spn_vm_exec (set_errtype ctx SPN_ERROR_OK) b slot = (ctx', st, slot') ->
  st <> 0 ->
  spn_ctx_execbytecode ctx b slot = (set_errtype ctx' SPN_ERROR_RUNTIME, st, slot').
Proof.
  intros Hv Hst. unfold spn_ctx_execbytecode. rewrite Hv.
  destruct (Z.eqb_spec st 0); [contradiction | reflexivity].
Qed.

Lemma callfunc_failed ctx func slot argv ctx' st slot' :
  spn_vm_callfunc (set_errtype ctx SPN_ERROR_OK) func slot argv = (ctx', st, slot') ->
  st <> 0 ->
  spn_ctx_callfunc ctx func slot argv = (set_errtype ctx' SPN_ERROR_RUNTIME, st, slot').
Proof.
  intros Hv Hst. unfold spn_ctx_callfunc. rewrite Hv.
  destruct (Z.eqb_spec st 0); [contradiction | reflexivity].
Qed.

Lemma failure_reported e ctx cat :
  failure e ctx cat ->
  snd (run_entry e ctx) = true /\ spn_ctx_geterrtype (fst (run_entry e ctx)) = cat.
Proof.
  induction 1 as
    [ ctx str p Hp | ctx str p ast c Hp Hc | ctx fname Hf | ctx fname src cat Hf _ IH
    | ctx fname Hf | ctx b slot ctx' st slot' Hv Hst
    | ctx func slot argv ctx' st slot' Hv Hst
    | ctx str slot cat _ IH | ctx str slot ctx1 b cat Hl _ IH
    | ctx fname slot cat _ IH | ctx fname slot ctx1 b cat Hl _ IH
    | ctx fname slot cat _ IH | ctx fname slot ctx1 b cat Hl _ IH ]; cbn [run_entry] in *.
  - rewrite (loadstring_syntax _ _ Hp). split; reflexivity.
  - rewrite (loadstring_semantic _ _ Hp Hc). split; reflexivity.
  - unfold spn_ctx_loadsrcfile. rewrite Hf. split; reflexivity.
  - unfold spn_ctx_loadsrcfile. rewrite Hf. rewrite loadstring_reset. exact IH.
  - unfold spn_ctx_loadobjfile. rewrite Hf. split; reflexivity.
  - rewrite (execbytecode_failed _ _ _ Hv Hst). cbn.
    split; [| reflexivity]. destruct (Z.eqb_spec st 0); [contradiction | reflexivity].
  - rewrite (callfunc_failed _ _ _ _ Hv Hst). cbn.
    split; [| reflexivity]. destruct (Z.eqb_spec st 0); [contradiction | reflexivity].
  - unfold spn_ctx_execstring.
    destruct (spn_ctx_loadstring ctx str) as [ctx1 [b|]]; cbn in *.
    + destruct IH; discriminate.
    + split; [reflexivity | apply IH].
  - unfold spn_ctx_execstring. rewrite Hl. exact IH.
  - unfold spn_ctx_execsrcfile.
    destruct (spn_ctx_loadsrcfile ctx fname) as [ctx1 [b|]]; cbn in *.
    + destruct IH; discriminate.
    + split; [reflexivity | apply IH].
  - unfold spn_ctx_execsrcfile. rewrite Hl. exact IH.
  - unfold spn_ctx_execobjfile.
    destruct (spn_ctx_loadobjfile ctx fname) as [ctx1 [b|]]; cbn in *.
    + destruct IH; discriminate.
    + split; [reflexivity | apply IH].
  - unfold spn_ctx_execobjfile. rewrite Hl. exact IH.
Qed.

Lemma failure_not_ok e ctx cat : failure e ctx cat -> cat <> SPN_ERROR_OK.
Proof. induction 1; try discriminate; assumption. Qed.

Lemma loadstring_failure ctx str :
  snd (run_entry (LoadString str) ctx) = true ->
  exists cat, failure (LoadString str) ctx cat.
Proof.
  cbn [run_entry].
  destruct (loadstring_cases ctx str)
    as [[p Hp] | [(p & ast & c & Hp & Hc) | (p & ast & c & b & n & Hp & Hc)]].
  - intros _. exists SPN_ERROR_SYNTAX. eapply parser_rejects; eassumption.
  - intros _. exists SPN_ERROR_SEMANTIC. eapply compiler_rejects; eassumption.
  - rewrite (loadstring_success _ _ Hp Hc). discriminate.
Qed.

Lemma loadsrcfile_failure ctx fname :
  snd (run_entry (LoadSrcFile fname) ctx) = true ->
  exists cat, failure (LoadSrcFile fname) ctx cat.
Proof.
  cbn [run_entry]. unfold spn_ctx_loadsrcfile.
  destruct (spn_read_text_file fname) as [src|] eqn:Hf.
  - rewrite loadstring_reset. intros Hl.
    destruct (loadstring_failure ctx src Hl) as [cat Hc].
    exists cat. eapply source_rejected; eassumption.
  - intros _. exists SPN_ERROR_GENERIC. apply source_unreadable. exact Hf.
Qed.

Lemma loadobjfile_failure ctx fname :
  snd (run_entry (LoadObjFile fname) ctx) = true ->
  exists cat, failure (LoadObjFile fname) ctx cat.
Proof.
  cbn [run_entry]. unfold spn_ctx_loadobjfile.
  destruct (spn_read_binary_file fname) as [[b n]|] eqn:Hf.
  - discriminate.
  - intros _. exists SPN_ERROR_GENERIC. apply object_unreadable. exact Hf.
Qed.

Lemma execbytecode_failure ctx b slot :
  snd (run_entry (ExecBytecode b slot) ctx) = true ->
  failure (ExecBytecode b slot) ctx SPN_ERROR_RUNTIME.
Proof.
  cbn [run_entry]. unfold spn_ctx_execbytecode.
  destruct (spn_vm_exec (set_errtype ctx SPN_ERROR_OK) b slot) as [[ctx' st] slot'] eqn:Hv.
  destruct (Z.eqb_spec st 0) as [->|Hst]; cbn.
  - discriminate.
  - intros _. eapply execution_fails; eassumption.
Qed.

Lemma failure_complete e ctx :
  snd (run_entry e ctx) = true -> exists cat, failure e ctx cat.
Proof.
  destruct e as [str | fname | fname | str slot | fname slot | fname slot
                | b slot | func slot argv].
  - apply loadstring_failure.
  - apply loadsrcfile_failure.
  - apply loadobjfile_failure.
  - cbn [run_entry]. unfold spn_ctx_execstring.
    pose proof (loadstring_failure ctx str) as Hl. cbn [run_entry] in Hl.
    destruct (spn_ctx_loadstring ctx str) as [ctx1 [b|]] eqn:Hload.
    + intros Hx. exists SPN_ERROR_RUNTIME.
      eapply execstring_not_run; [eassumption |].
      apply execbytecode_failure. exact Hx.
    + intros _. destruct (Hl eq_refl) as [cat Hc].
      exists cat. apply execstring_not_loaded. exact Hc.
  - cbn [run_entry]. unfold spn_ctx_execsrcfile.
    pose proof (loadsrcfile_failure ctx fname) as Hl. cbn [run_entry] in Hl.
    destruct (spn_ctx_loadsrcfile ctx fname) as [ctx1 [b|]] eqn:Hload.
    + intros Hx. exists SPN_ERROR_RUNTIME.
      eapply execsrcfile_not_run; [eassumption |].
      apply execbytecode_failure. exact Hx.
    + intros _. destruct (Hl eq_refl) as [cat Hc].
      exists cat. apply execsrcfile_not_loaded. exact Hc.
  - cbn [run_entry]. unfold spn_ctx_execobjfile.
    pose proof (loadobjfile_failure ctx fname) as Hl. cbn [run_entry] in Hl.
    destruct (spn_ctx_loadobjfile ctx fname) as [ctx1 [b|]] eqn:Hload.
    + intros Hx. exists SPN_ERROR_RUNTIME.
      eapply execobjfile_not_run; [eassumption |].
      apply execbytecode_failure. exact Hx.
    + intros _. destruct (Hl eq_refl) as [cat Hc].
      exists cat. apply execobjfile_not_loaded. exact Hc.
  - intros Hx. exists SPN_ERROR_RUNTIME. apply execbytecode_failure. exact Hx.
  - cbn [run_entry]. unfold spn_ctx_callfunc.
    destruct (spn_vm_callfunc (set_errtype ctx SPN_ERROR_OK) func slot argv)
      as [[ctx' st] slot'] eqn:Hv.
    destruct (Z.eqb_spec st 0) as [->|Hst]; cbn.
    + discriminate.
    + intros _. exists SPN_ERROR_RUNTIME. eapply call_fails; eassumption.
Qed.

Lemma load_success_ok e ctx :
  is_load e = true ->
  snd (run_entry e ctx) = false ->
  spn_ctx_geterrtype (fst (run_entry e ctx)) = SPN_ERROR_OK.
Proof.
  assert (Hs : forall c str, snd (run_entry (LoadString str) c) = false ->
               spn_ctx_geterrtype (fst (run_entry (LoadString str) c)) = SPN_ERROR_OK).
  { intros c str. cbn [run_entry].
    destruct (loadstring_cases c str)
      as [[p Hp] | [(p & ast & k & Hp & Hc) | (p & ast & k & b & n & Hp & Hc)]].
    - rewrite (loadstring_syntax _ _ Hp). discriminate.
    - rewrite (loadstring_semantic _ _ Hp Hc). discriminate.
    - rewrite (loadstring_success _ _ Hp Hc). reflexivity. }
  destruct e; try discriminate; intros _.
  - apply Hs.
  - cbn [run_entry]. unfold spn_ctx_loadsrcfile.
    destruct (spn_read_text_file fname) as [src|].
    + rewrite loadstring_reset. apply Hs.
    + discriminate.
  - cbn [run_entry]. unfold spn_ctx_loadobjfile.
    destruct (spn_read_binary_file fname) as [[b n]|].
    + reflexivity.
    + discriminate.
Qed.

(** C2. Every load, exec and call entry point first resets the
    discriminator (the category it finds there has no influence on what it
    does), and a call fails exactly when one of the components fails, with
    the category of that component: Syntax for the parser, Semantic for the
    compiler, Generic for an unreadable file, Runtime for a nonzero status of
    the machine.  A load that succeeds leaves the category Ok.
    [spn_ctx_geterrmsg] returns NULL when the category is Ok and otherwise
    the message of the component of the current category. *)
Theorem error_category_discipline :
  (forall e ctx cat0, run_entry e (set_errtype ctx cat0) = run_entry e ctx) /\
  (forall e ctx cat,
      failure e ctx cat ->
      snd (run_entry e ctx) = true /\
      spn_ctx_geterrtype (fst (run_entry e ctx)) = cat /\
      cat <> SPN_ERROR_OK) /\
  (forall e ctx,
      snd (run_entry e ctx) = true ->
      exists cat, failure e ctx cat) /\
  (forall e ctx,
      is_load e = true ->
      snd (run_entry e ctx) = false ->
      spn_ctx_geterrtype (fst (run_entry e ctx)) = SPN_ERROR_OK) /\
  (forall ctx,
      spn_ctx_geterrtype ctx = SPN_ERROR_OK -> spn_ctx_geterrmsg ctx = None) /\
  (forall ctx,
      spn_ctx_geterrmsg ctx = owner_message ctx (spn_ctx_geterrtype ctx)).
Proof.
  split; [| split; [| split; [| split; [| split]]]].
  - intros. apply run_entry_reset.
  - intros e ctx cat Hf. destruct (failure_reported Hf) as [H1 H2].
    split; [exact H1 | split; [exact H2 |]]. eapply failure_not_ok; eassumption.
  - intros. apply failure_complete. assumption.
  - intros. apply load_success_ok; assumption.
  - intros ctx Hok. unfold spn_ctx_geterrmsg, spn_ctx_geterrtype in *.
    rewrite Hok. reflexivity.
  - intros ctx. unfold spn_ctx_geterrmsg, owner_message, spn_ctx_geterrtype.
    destruct (errtype ctx); reflexivity.
Qed.

End ContextFacts.

Section ContextOnSample.
Import Sample.


(** The sample parser rejects [@@@]: the load fails under Syntax. *)
Lemma error_category_discipline_witness :
snd (run_entry (LoadString "@@@") Sample.ctx0) = true /\
spn_ctx_geterrtype (fst (run_entry (LoadString "@@@") Sample.ctx0)) = SPN_ERROR_SYNTAX /\
SPN_ERROR_SYNTAX <> SPN_ERROR_OK.
Proof.
apply (proj1 (proj2 (@error_category_discipline _ Sample.machine))).
apply parser_rejects with (p := Some "syntax error: unexpected character"%string).
reflexivity.
Defined.

End ContextOnSample.

(** ** The string library *)

Section SubstrFacts.

Implicit Types (str : SpnString) (slot : SpnValue).

Lemma aux_substr_in_bounds slot str begin length :
  0 <= begin <= Z.of_nat (List.length str) ->
  0 <= length ->
  begin + length <= Z.of_nat (List.length str) ->
  rtlb_aux_substr slot str begin length =
    done_ok (String (take (Z.to_nat length) (drop (Z.to_nat begin) str))).
Proof.
  intros Hb Hl He. unfold rtlb_aux_substr.
  destruct (Z.ltb_spec begin 0); [lia |].
  destruct (Z.gtb_spec begin (Z.of_nat (List.length str))); [lia |].
  destruct (Z.ltb_spec length 0); [lia |].
  destruct (Z.gtb_spec length (Z.of_nat (List.length str))); [lia |].
  destruct (Z.gtb_spec (begin + length) (Z.of_nat (List.length str))); [lia |].
  reflexivity.
Qed.

Lemma aux_substr_bad_start slot str begin length :
  begin < 0 \/ Z.of_nat (List.length str) < begin ->
  rtlb_aux_substr slot str begin length =
    raise (-1) slot "starting index is negative or too high" [].
Proof.
  intros Hb. unfold rtlb_aux_substr.
  destruct (Z.ltb_spec begin 0); [reflexivity |].
  destruct (Z.gtb_spec begin (Z.of_nat (List.length str))); [reflexivity | lia].
Qed.

Lemma aux_substr_bad_length slot str begin length :
  0 <= begin <= Z.of_nat (List.length str) ->
  length < 0 \/ Z.of_nat (List.length str) < length ->
  rtlb_aux_substr slot str begin length =
    raise (-2) slot "length is negative or too big" [].
Proof.
  intros Hb Hl. unfold rtlb_aux_substr.
  destruct (Z.ltb_spec begin 0); [lia |].
  destruct (Z.gtb_spec begin (Z.of_nat (List.length str))); [lia |].
  destruct (Z.ltb_spec length 0); [reflexivity |].
  destruct (Z.gtb_spec length (Z.of_nat (List.length str))); [reflexivity | lia].
Qed.

Lemma aux_substr_bad_end slot str begin length :
  0 <= begin <= Z.of_nat (List.length str) ->
  0 <= length <= Z.of_nat (List.length str) ->
  Z.of_nat (List.length str) < begin + length ->
  rtlb_aux_substr slot str begin length =
    raise (-3) slot "end of substring is out of bounds" [].
Proof.
  intros Hb Hl He. unfold rtlb_aux_substr.
  destruct (Z.ltb_spec begin 0); [lia |].
  destruct (Z.gtb_spec begin (Z.of_nat (List.length str))); [lia |].
  destruct (Z.ltb_spec length 0); [lia |].
  destruct (Z.gtb_spec length (Z.of_nat (List.length str))); [lia |].
  destruct (Z.gtb_spec (begin + length) (Z.of_nat (List.length str))); [reflexivity | lia].
Qed.

(** The bytes [take n (drop b str)] are the [n] bytes of [str] from
    position [b] on. *)
Lemma substring_splits str (b n : nat) :
  (b + n <= List.length str)%nat ->
  str = take b str ++ take n (drop b str) ++ drop (b + n) str /\
  List.length (take n (drop b str)) = n.
Proof.
  intros Hle. split.
  - rewrite <- (take_drop b str) at 1. f_equal.
    rewrite <- (take_drop n (drop b str)) at 1. f_equal.
    rewrite drop_drop. reflexivity.
  - rewrite length_take, length_drop. lia.
Qed.

(** C6. [substr(s, start, len)] succeeds exactly when
    [0 <= start <= length s], [0 <= len] and [start + len <= length s], and
    then returns the [len] bytes of [s] that start at position [start]; a
    violation fails with a negative status, leaves the slot alone, and
    reports the bound that was violated: the start, the length, or the end.
    In particular [substr(s, 0, length s)] is [s], and [substr(s, i, 0)] is
    the empty string for every [i] within [s]. *)
Theorem substr_bounds (slot : SpnValue) (str : SpnString) (begin length : Z) :
  let slen := Z.of_nat (List.length str) in
  let r := rtlb_substr slot [String str; Int begin; Int length] in
  (0 <= begin <= slen /\ 0 <= length /\ begin + length <= slen ->
   exists sub,
     r = done_ok (String sub) /\
     List.length sub = Z.to_nat length /\
     str = take (Z.to_nat begin) str ++ sub ++ drop (Z.to_nat (begin + length)) str) /\
  (~ (0 <= begin <= slen /\ 0 <= length /\ begin + length <= slen) ->
   status r < 0 /\ ret r = slot /\
   exists msg, rterr r = Some (mkErr msg []) /\
     (begin < 0 \/ slen < begin ->
      msg = "starting index is negative or too high"%string) /\
     (0 <= begin <= slen -> length < 0 \/ slen < length ->
      msg = "length is negative or too big"%string) /\
     (0 <= begin <= slen -> 0 <= length <= slen -> slen < begin + length ->
      msg = "end of substring is out of bounds"%string)) /\
  rtlb_substr slot [String str; Int 0; Int slen] = done_ok (String str) /\
  (0 <= begin <= slen ->
   rtlb_substr slot [String str; Int begin; Int 0] = done_ok (String [])).
Proof.
  cbv zeta. cbn [rtlb_substr]. repeat apply conj.
  - intros (Hb & Hl & He).
    exists (take (Z.to_nat length) (drop (Z.to_nat begin) str)).
    rewrite aux_substr_in_bounds by lia.
    destruct (@substring_splits str (Z.to_nat begin) (Z.to_nat length)) as [Hs Hn]; [lia |].
    split; [reflexivity |]. split; [exact Hn |].
    rewrite Z2Nat.inj_add by lia. exact Hs.
  - intros Hbad.
    destruct (Z_lt_le_dec begin 0) as [Hb0 | Hb0];
      [rewrite aux_substr_bad_start by lia; cbn; repeat split; try lia;
       eexists; split; [reflexivity |]; repeat split; intros; solve [reflexivity | lia] |].
    destruct (Z_lt_le_dec (Z.of_nat (List.length str)) begin) as [Hb1 | Hb1];
      [rewrite aux_substr_bad_start by lia; cbn; repeat split; try lia;
       eexists; split; [reflexivity |]; repeat split; intros; solve [reflexivity | lia] |].
    destruct (Z_lt_le_dec length 0) as [Hl0 | Hl0];
      [rewrite aux_substr_bad_length by lia; cbn; repeat split; try lia;
       eexists; split; [reflexivity |]; repeat split; intros; solve [reflexivity | lia] |].
    destruct (Z_lt_le_dec (Z.of_nat (List.length str)) length) as [Hl1 | Hl1];
      [rewrite aux_substr_bad_length by lia; cbn; repeat split; try lia;
       eexists; split; [reflexivity |]; repeat split; intros; solve [reflexivity | lia] |].
    rewrite aux_substr_bad_end by lia. cbn. repeat split; try lia.
    eexists; split; [reflexivity |]; repeat split; intros; solve [reflexivity | lia].
  - rewrite aux_substr_in_bounds by lia.
    rewrite Nat2Z.id. cbn [Z.to_nat drop]. rewrite firstn_all. reflexivity.
  - intros Hb. rewrite aux_substr_in_bounds by lia. reflexivity.
Qed.

End SubstrFacts.

(** [substr("sparkling", 5, 4)] is [ling]. *)
Lemma substr_bounds_witness :
  exists sub,
    rtlb_substr Nil [String (list_ascii_of_string "sparkling"); Int 5; Int 4]
      = done_ok (String sub) /\
    List.length sub = Z.to_nat 4 /\
    list_ascii_of_string "sparkling" =
      take (Z.to_nat 5) (list_ascii_of_string "sparkling") ++ sub ++
      drop (Z.to_nat (5 + 4)) (list_ascii_of_string "sparkling").
Proof.
  apply (proj1 (substr_bounds Nil (list_ascii_of_string "sparkling") 5 4)).
  cbn. lia.
Defined.

Section SplitJoinFacts.

Implicit Types (hay needle rest buf sep : list ascii).

Lemma c_str_nul_free s : nul_free s = true -> c_str s = s.
Proof.
  induction s as [|c s IH]; cbn; [reflexivity |].
  intros H. apply andb_prop in H. destruct H as [Hc Hs].
  destruct (is_nul c); [discriminate |]. rewrite IH by assumption. reflexivity.
Qed.

Lemma c_str_prefix s : exists tail, s = c_str s ++ tail.
Proof.
  induction s as [|c s [tail IH]]; cbn.
  - exists []. reflexivity.
  - destruct (is_nul c).
    + exists (c :: s). reflexivity.
    + exists tail. cbn. rewrite <- IH. reflexivity.
Qed.

Lemma starts_with_spec needle hay :
  starts_with needle hay = true <-> exists tail, hay = needle ++ tail.
Proof.
  revert hay. induction needle as [|n needle IH]; intros hay; cbn.
  - split; [exists hay; reflexivity | reflexivity].
  - destruct hay as [|h hay].
    + split; [discriminate | intros [tail H]; discriminate].
    + rewrite andb_true_iff, IH. split.
      * intros [Hn [tail ->]]. apply Ascii.eqb_eq in Hn. subst. exists tail. reflexivity.
      * intros [tail H]. injection H as -> ->. split; [apply Ascii.eqb_refl | eauto].
Qed.

(** [strstr] finds an occurrence... *)
Lemma strstr_Some hay needle t :
  strstr hay needle = Some t ->
  hay = take t hay ++ needle ++ drop (t + List.length needle) hay /\
  (t + List.length needle <= List.length hay)%nat.
Proof.
  revert t. induction hay as [|h hay IH]; intros t; cbn [strstr].
  - destruct (starts_with needle []) eqn:Hs; [| discriminate].
    intros [= <-]. apply starts_with_spec in Hs. destruct Hs as [tail Hs].
    symmetry in Hs. apply app_eq_nil in Hs. destruct Hs as [-> ->]. cbn. split; [reflexivity | lia].
  - destruct (starts_with needle (h :: hay)) eqn:Hs.
    + intros [= <-]. apply starts_with_spec in Hs. destruct Hs as [tail Hs].
      cbn [take Nat.add app]. rewrite Hs. rewrite drop_app_length.
      split; [reflexivity |]. rewrite length_app. lia.
    + destruct (strstr hay needle) as [t'|] eqn:Ht; [| discriminate].
      intros [= <-]. destruct (IH t' eq_refl) as [He Hl].
      cbn. split; [f_equal; exact He | lia].
Qed.

(** ... the leftmost one ... *)
Lemma strstr_first hay needle t before after :
  strstr hay needle = Some t ->
  hay = before ++ needle ++ after ->
  (t <= List.length before)%nat.
Proof.
  revert t before. induction hay as [|h hay IH]; intros t before; cbn [strstr].
  - destruct (starts_with needle []); [| discriminate]. intros [= <-] _. lia.
  - destruct (starts_with needle (h :: hay)) eqn:Hs.
    + intros [= <-] _. lia.
    + destruct (strstr hay needle) as [t'|] eqn:Ht; [| discriminate].
      intros [= <-] He. destruct before as [|b before].
      * exfalso. cbn in He.
        assert (starts_with needle (h :: hay) = true)
          by (apply starts_with_spec; exists after; exact He).
        congruence.
      * cbn in He. injection He as -> He. cbn. apply le_n_S. eapply IH; eauto.
Qed.

(** ... and fails only when there is none. *)
Lemma strstr_None hay needle :
  strstr hay needle = None -> ~ occurs_in needle hay.
Proof.
  induction hay as [|h hay IH]; cbn [strstr].
  - destruct (starts_with needle []) eqn:Hs; [discriminate |].
    intros _ (before & after & He).
    symmetry in He. apply app_eq_nil in He. destruct He as [-> He].
    assert (starts_with needle [] = true)
      by (apply starts_with_spec; exists after; symmetry; exact He).
    congruence.
  - destruct (starts_with needle (h :: hay)) eqn:Hs; [discriminate |].
    destruct (strstr hay needle) as [t'|] eqn:Ht; [discriminate |].
    intros _ (before & after & He). destruct before as [|b before].
    + cbn in He.
      assert (starts_with needle (h :: hay) = true)
        by (apply starts_with_spec; exists after; exact He).
      congruence.
    + cbn in He. injection He as -> He. apply IH; [reflexivity |].
      exists before, after. exact He.
Qed.

Lemma join_loop_strings (pieces : list (list ascii)) i sep buf :
  join_loop (map String pieces) (S i) sep buf
  = Some (buf ++ concat (map (fun q => sep ++ q) pieces)).
Proof.
  revert i buf. induction pieces as [|p pieces IH]; intros i buf; cbn.
  - rewrite app_nil_r. reflexivity.
  - rewrite IH. rewrite <- !app_assoc. reflexivity.
Qed.

Lemma join_strings (pieces : list (list ascii)) slot sep :
  rtlb_join slot [Array (map String pieces); String sep]
  = done_ok (String (rejoin sep pieces)).
Proof.
  unfold rtlb_join. destruct pieces as [|p pieces]; cbn; [reflexivity |].
  rewrite join_loop_strings. reflexivity.
Qed.

Lemma rejoin_cons sep p (pieces : list (list ascii)) :
  pieces <> [] ->
  rejoin sep (p :: pieces) = p ++ sep ++ rejoin sep pieces.
Proof.
  destruct pieces as [|q pieces]; [contradiction |]. intros _. cbn.
  rewrite <- !app_assoc. reflexivity.
Qed.

Lemma nul_free_drop k s : nul_free s = true -> nul_free (drop k s) = true.
Proof.
  revert s. induction k as [|k IH]; intros [|c s]; cbn; auto.
  intros H. apply andb_prop in H. destruct H as [_ H]. apply IH. exact H.
Qed.

(** Where [strstr] finds the separator in the C string at [rest], the
    haystack splits around it. *)
Lemma strstr_c_str_splits rest needle t :
  strstr (c_str rest) needle = Some t ->
  rest = take t rest ++ needle ++ drop (t + List.length needle) rest /\
  (t + List.length needle <= List.length rest)%nat.
Proof.
  intros Ht. destruct (strstr_Some _ _ Ht) as [He Hle].
  destruct (c_str_prefix rest) as [tail Hrest].
  remember (c_str rest) as h eqn:Hh. clear Hh Ht. subst rest.
  rewrite take_app_le by lia. rewrite drop_app_le by lia.
  split; [| rewrite length_app; lia].
  rewrite He at 1. rewrite <- !app_assoc. reflexivity.
Qed.

(** The loop of [rtlb_split] on a separator that is not empty and has no
    NUL inside: it ends within [length rest + 1] iterations, stays inside
    the haystack, and the pieces it pushes, put together again around the
    separator, are the bytes it started from.  When the haystack has no NUL
    inside either, no piece contains the separator. *)
Lemma split_loop_pieces needle :
  needle <> [] -> nul_free needle = true ->
  forall fuel rest arr,
    (List.length rest < fuel)%nat ->
    exists pieces,
      split_loop fuel rest needle arr = Ret (arr ++ map String pieces) /\
      rejoin needle pieces = rest /\
      pieces <> [] /\
      (nul_free rest = true -> Forall (fun p => ~ occurs_in needle p) pieces).
Proof.
  intros Hne Hnf. pose proof (c_str_nul_free _ Hnf) as Hcn.
  assert (Hlen : (0 < List.length needle)%nat)
    by (destruct needle; [contradiction | cbn; lia]).
  induction fuel as [|fuel IH]; intros rest arr Hfuel; [lia |].
  cbn [split_loop]. rewrite Hcn.
  destruct (strstr (c_str rest) needle) as [t|] eqn:Ht.
  - destruct (strstr_c_str_splits _ _ Ht) as [Hsplit Htl].
    destruct (Nat.leb_spec (t + List.length needle) (List.length rest)); [| lia].
    destruct (IH (drop (t + List.length needle) rest)
                 (arr ++ [makestring_nocopy_len (take t rest)]))
      as (ps & Hrun & Hjoin & Hps & Hno).
    { rewrite length_drop. lia. }
    exists (take t rest :: ps). split; [| split; [| split]].
    + rewrite Hrun. rewrite <- app_assoc. reflexivity.
    + rewrite rejoin_cons by assumption. rewrite Hjoin. symmetry. exact Hsplit.
    + discriminate.
    + intros Hrf. constructor.
      * intros (before & after & Hocc).
        rewrite (c_str_nul_free _ Hrf) in Ht.
        assert (Hin : rest = before ++ needle ++ (after ++ drop t rest)).
        { rewrite <- (take_drop t rest) at 1. rewrite Hocc.
          rewrite <- !app_assoc. reflexivity. }
        pose proof (@strstr_first _ _ _ _ _ Ht Hin) as Hfirst.
        assert (Hl : List.length (take t rest) = List.length (before ++ needle ++ after))
          by (rewrite Hocc; reflexivity).
        rewrite length_take, !length_app in Hl. lia.
      * apply Hno. apply nul_free_drop. exact Hrf.
  - exists [rest]. split; [reflexivity |]. split; [cbn; apply app_nil_r |].
    split; [discriminate |].
    intros Hrf. constructor; [| constructor].
    rewrite (c_str_nul_free _ Hrf) in Ht. apply strstr_None. exact Ht.
Qed.

(** C5, as the code has it.  [split] on an empty separator fails with a
    runtime error.  For every string [s] and every separator that is not
    empty and has no NUL byte inside, [split(s, sep)] returns an array of
    strings and [join] of that array with the same separator is [s] again;
    the pieces keep the empty strings before a leading and after a trailing
    separator, since putting them together around the separator gives [s];
    and when [s] has no NUL inside either, no piece contains the
    separator. *)
Theorem split_join_round_trip (slot slot' : SpnValue) (s sep : list ascii) :
  sep <> [] ->
  nul_free sep = true ->
  rtlb_split slot [String s; String []] =
    Ret (raise (-3) slot "cannot split on empty string" []) /\
  exists pieces,
    rtlb_split slot [String s; String sep] = Ret (done_ok (Array (map String pieces))) /\
    rtlb_join slot' [Array (map String pieces); String sep] = done_ok (String s) /\
    pieces <> [] /\
    rejoin sep pieces = s /\
    (nul_free s = true -> Forall (fun p => ~ occurs_in sep p) pieces).
Proof.
  intros Hne Hnf. split; [reflexivity |].
  destruct (@split_loop_pieces sep Hne Hnf (S (List.length s)) s [])
    as (pieces & Hrun & Hjoin & Hps & Hno); [lia |].
  exists pieces. unfold rtlb_split.
  destruct (Nat.eqb_spec (List.length sep) 0) as [H0 | _].
  { destruct sep; [contradiction | discriminate]. }
  rewrite Hrun. cbn [app].
  split; [reflexivity |]. split; [| auto].
  rewrite join_strings, Hjoin. reflexivity.
Qed.

End SplitJoinFacts.

Lemma split_join_round_trip_witness :
  rtlb_split Nil [String (list_ascii_of_string ",a,,b,"); String []] =
    Ret (raise (-3) Nil "cannot split on empty string" []) /\
  exists pieces,
    rtlb_split Nil [String (list_ascii_of_string ",a,,b,");
                    String (list_ascii_of_string ",")]
      = Ret (done_ok (Array (map String pieces))) /\
    rtlb_join Nil [Array (map String pieces); String (list_ascii_of_string ",")]
      = done_ok (String (list_ascii_of_string ",a,,b,")) /\
    pieces <> [] /\
    rejoin (list_ascii_of_string ",") pieces = list_ascii_of_string ",a,,b," /\
    (nul_free (list_ascii_of_string ",a,,b,") = true ->
     Forall (fun p => ~ occurs_in (list_ascii_of_string ",") p) pieces).
Proof.
  apply (@split_join_round_trip Nil Nil (list_ascii_of_string ",a,,b,")
                                (list_ascii_of_string ","));
    [discriminate | reflexivity].
Defined.

(** The pieces of [,a,,b,] around [,]: the empty strings are kept. *)
Example split_keeps_empty_pieces :
  rtlb_split Nil [String (list_ascii_of_string ",a,,b,"); String (list_ascii_of_string ",")]
  = Ret (done_ok (Array (map (fun p => String (list_ascii_of_string p))
                             [""; "a"; ""; "b"; ""]%string))).
Proof. reflexivity. Qed.

(** A separator with a NUL inside: [strstr] matches its first byte only,
    and the loop then skips all three.  The haystack [xaYZw] splits into [x]
    and [w], which join into another string. *)
Lemma split_join_nul_separator :
  ~ (forall s sep : list ascii,
        sep <> [] ->
        exists pieces,
          rtlb_split Nil [String s; String sep] = Ret (done_ok (Array pieces)) /\
          rtlb_join Nil [Array pieces; String sep] = done_ok (String s)).
Proof.
  intros H.
  destruct (H (list_ascii_of_string "xaYZw") ["a"%char; NUL; "b"%char])
    as (pieces & Hs & Hj); [discriminate |].
  vm_compute in Hs. injection Hs as <-. vm_compute in Hj. discriminate.
Qed.

(** With the match at the end of the haystack the loop leaves the buffer. *)
Example split_nul_separator_leaves_buffer :
  rtlb_split Nil [String (list_ascii_of_string "xa"); String ["a"%char; NUL; "b"%char]]
  = Undefined.
Proof. reflexivity. Qed.

(** ** The I/O library *)

Section PrintfFacts.
Context `{F : FormatEngine}.

Lemma fputs_nul_free s stream : nul_free s = true -> fputs s stream = stream ++ s.
Proof. intros H. unfold fputs. rewrite c_str_nul_free by exact H. reflexivity. Qed.

(** C4. When the format engine expands the format string and its arguments
    to [res], [printf] returns the length of [res] as an [Int] and writes
    [res] to [stdout] as a C string, with nothing after it.  For a [res]
    without a NUL byte inside, what is written is [res], so the value
    returned is the number of bytes written. *)
Theorem printf_returns_length (stdout : list ascii) (slot : SpnValue)
        (fmt : SpnString) (args : list SpnValue) (res : SpnString) :
  spn_string_format_obj fmt args = inl res ->
  let '(r, stdout') := rtlb_printf stdout slot (String fmt :: args) in
  r = done_ok (Int (Z.of_nat (List.length res))) /\
  stdout' = stdout ++ c_str res /\
  (nul_free res = true ->
   exists written,
     stdout' = stdout ++ written /\ written = res /\
     ret r = Int (Z.of_nat (List.length written))).
Proof.
  intros Hfmt. unfold rtlb_printf. rewrite Hfmt.
  split; [reflexivity |]. split; [reflexivity |].
  intros Hnf. exists res. rewrite fputs_nul_free by exact Hnf.
  repeat split; reflexivity.
Qed.

End PrintfFacts.

Section PrintfOnSample.
Import Sample.

(** [printf("%s=%d", "x", 7)] with the sample format engine: [x=7] goes to
    [stdout], with no newline, and the call returns [Int 3], the three bytes
    of [x=7]. *)
Lemma printf_returns_length_witness :
  rtlb_printf [] Nil [String (list_ascii_of_string "%s=%d");
                      String (list_ascii_of_string "x"); Int 7]
  = (done_ok (Int 3), list_ascii_of_string "x=7").
Proof.
  pose proof (@printf_returns_length Sample.format_engine [] Nil
                (list_ascii_of_string "%s=%d")
                [String (list_ascii_of_string "x"); Int 7]
                (list_ascii_of_string "x=7") eq_refl) as H.
  destruct (rtlb_printf [] Nil [String (list_ascii_of_string "%s=%d");
                                String (list_ascii_of_string "x"); Int 7]) as [r out].
  destruct H as (-> & -> & _). vm_compute. reflexivity.
Defined.

(** No format engine that expands [%s=%d] with ["x"] and [7] to [x=7] makes
    [printf] return [Int 4]: the sample engine does expand it so, and the
    call returns [Int 3]. *)
Lemma printf_x7_is_not_4 :
  ~ (forall (F : FormatEngine),
        spn_string_format_obj (list_ascii_of_string "%s=%d")
                              [String (list_ascii_of_string "x"); Int 7]
          = inl (list_ascii_of_string "x=7") ->
        rtlb_printf [] Nil [String (list_ascii_of_string "%s=%d");
                            String (list_ascii_of_string "x"); Int 7]
          = (done_ok (Int 4), list_ascii_of_string "x=7")).
Proof.
  intros H. specialize (H Sample.format_engine eq_refl).
  vm_compute in H. discriminate.
Qed.

End PrintfOnSample.

(** ** The return slot on the error path *)

(** Closes a goal [Ret r' = Ret r -> keeps_slot slot r] where [r'] is a
    success or reports an error with the slot untouched. *)
Ltac slot_done :=
  let H := fresh in
  unfold keeps_slot;
  intros H; cbn in H; inversion H; subst; clear H; cbn;
  solve [reflexivity | congruence | intros; congruence | intros; reflexivity].

Section SlotFacts.
Context `{M : Machine} {K : Callbacks} `{V : ValueOps} `{F : FormatEngine}
        `{FS : FileSystem}.

Lemma readfile_keeps_slot slot argv : keeps_slot slot (rtlb_readfile slot argv).
Proof.
  unfold keeps_slot, rtlb_readfile.
  destruct argv as [|a0 [|a1 argv]]; cbn; try reflexivity.
  destruct a0; cbn; try reflexivity.
  destruct (fopen_rb (c_str s)) as [[buf readable]|e]; cbn; try reflexivity.
  destruct (readable && negb (List.length buf =? 0)%nat); cbn; [congruence | reflexivity].
Qed.

Lemma printf_keeps_slot stdout slot argv :
  keeps_slot slot (fst (rtlb_printf stdout slot argv)).
Proof.
  unfold keeps_slot, rtlb_printf.
  destruct argv as [|a0 argv]; cbn; try reflexivity.
  destruct a0; cbn; try reflexivity.
  destruct (spn_string_format_obj s argv); cbn; [congruence | reflexivity].
Qed.

Lemma substr_keeps_slot slot argv : keeps_slot slot (rtlb_substr slot argv).
Proof.
  unfold keeps_slot, rtlb_substr, rtlb_aux_substr.
  destruct argv as [|a0 [|a1 [|a2 [|a3 argv]]]]; cbn; try reflexivity.
  destruct a0; cbn; try reflexivity.
  destruct a1; cbn; try reflexivity.
  destruct a2; cbn; try reflexivity.
  repeat match goal with
         | |- context [if ?c then _ else _] => destruct c; cbn; try reflexivity
         end.
  congruence.
Qed.

Lemma join_keeps_slot slot argv : keeps_slot slot (rtlb_join slot argv).
Proof.
  unfold keeps_slot, rtlb_join.
  destruct argv as [|a0 [|a1 [|a2 argv]]]; cbn; try reflexivity.
  destruct a0; cbn; try reflexivity.
  destruct a1; cbn; try reflexivity.
  destruct (join_loop a 0 s []); cbn; [congruence | reflexivity].
Qed.

Lemma split_keeps_slot slot argv r :
  rtlb_split slot argv = Ret r -> keeps_slot slot r.
Proof.
  unfold rtlb_split.
  destruct argv as [|a0 [|a1 [|a2 argv]]]; try slot_done.
  destruct a0; try slot_done.
  destruct a1; try slot_done.
  destruct (List.length s0 =? 0)%nat; [slot_done |].
  destruct (split_loop (S (List.length s)) s s0 []); try discriminate.
  slot_done.
Qed.

Lemma range_keeps_slot fuel slot argv r :
  rtlb_range fuel slot argv = Ret r -> keeps_slot slot r.
Proof.
  unfold rtlb_range.
  destruct argv as [|a0 [|a1 [|a2 [|a3 argv]]]]; try slot_done.
  - destruct a0; try slot_done.
    destruct (range_int_loop fuel 0 i []); try discriminate; slot_done.
  - destruct a0, a1; try slot_done.
    destruct (range_int_loop fuel i i0 []); try discriminate; slot_done.
  - destruct a0, a1, a2; try slot_done;
      match goal with
      | |- context [range_float_loop ?f ?b ?e ?s ?i ?x ?l] =>
          destruct (range_float_loop f b e s i x l)
      end; try discriminate; slot_done.
Qed.

Lemma sort_keeps_slot ctx slot argv st r :
  rtlb_sort ctx slot argv = Ret (st, r) -> keeps_slot slot r.
Proof.
  unfold rtlb_sort.
  destruct argv as [|a0 [|a1 [|a2 argv]]]; try slot_done.
  - destruct a0; try slot_done.
    match goal with
    | |- context [rtlb_aux_qsort ?f ?s ?l ?r ?c] =>
        destruct (rtlb_aux_qsort f s l r c) as [[[st1 code] e]| |]
    end; try discriminate; slot_done.
  - destruct a0; try slot_done.
    destruct (isfunc a1); try slot_done.
    match goal with
    | |- context [rtlb_aux_qsort ?f ?s ?l ?r ?c] =>
        destruct (rtlb_aux_qsort f s l r c) as [[[st1 code] e]| |]
    end; try discriminate; slot_done.
Qed.

Lemma compile_keeps_slot ctx slot argv ctx' r :
  rtlb_compile ctx slot argv = Ret (ctx', r) -> keeps_slot slot r.
Proof.
  unfold rtlb_compile.
  destruct argv as [|a0 [|a1 argv]]; try slot_done.
  destruct a0; try slot_done.
  destruct (spn_ctx_loadstring ctx (string_of_list_ascii (c_str s))) as [ctx1 [fn|]].
  - slot_done.
  - destruct (spn_ctx_geterrmsg ctx1); try discriminate. slot_done.
Qed.

Lemma exprtofn_keeps_slot ctx slot argv ctx' r :
  rtlb_exprtofn ctx slot argv = Ret (ctx', r) -> keeps_slot slot r.
Proof.
  unfold rtlb_exprtofn.
  destruct argv as [|a0 [|a1 argv]]; try slot_done.
  destruct a0; try slot_done.
  destruct (spn_ctx_compile_expr ctx (string_of_list_ascii (c_str s))) as [ctx1 [fn|]].
  - slot_done.
  - destruct (spn_ctx_geterrmsg ctx1); try discriminate. slot_done.
Qed.

Lemma execbytecode_error_is_runtime ctx b slot ctx' st slot' :
  spn_ctx_execbytecode ctx b slot = (ctx', st, slot') ->
  st <> 0 -> errtype ctx' = SPN_ERROR_RUNTIME.
Proof.
  unfold spn_ctx_execbytecode.
  destruct (spn_vm_exec _ _ _) as [[c s] v].
  destruct (Z.eqb_spec s 0); intros [= <- <- <-]; [contradiction | reflexivity].
Qed.

(** The exec entry points touch the slot only through the machine. *)
Lemma execstring_keeps_slot ctx str slot ctx' st slot' :
  spn_ctx_execstring ctx str slot = (ctx', st, slot') ->
  st <> 0 -> spn_ctx_geterrtype ctx' <> SPN_ERROR_RUNTIME -> slot' = slot.
Proof.
  unfold spn_ctx_geterrtype, spn_ctx_execstring. intros Hrun Hst Hcat.
  destruct (spn_ctx_loadstring ctx str) as [ctx1 [b|]].
  - exfalso. apply Hcat. eapply execbytecode_error_is_runtime; eassumption.
  - injection Hrun as <- <- <-. reflexivity.
Qed.

Lemma execsrcfile_keeps_slot ctx fname slot ctx' st slot' :
  spn_ctx_execsrcfile ctx fname slot = (ctx', st, slot') ->
  st <> 0 -> spn_ctx_geterrtype ctx' <> SPN_ERROR_RUNTIME -> slot' = slot.
Proof.
  unfold spn_ctx_geterrtype, spn_ctx_execsrcfile. intros Hrun Hst Hcat.
  destruct (spn_ctx_loadsrcfile ctx fname) as [ctx1 [b|]].
  - exfalso. apply Hcat. eapply execbytecode_error_is_runtime; eassumption.
  - injection Hrun as <- <- <-. reflexivity.
Qed.

Lemma execobjfile_keeps_slot ctx fname slot ctx' st slot' :
  spn_ctx_execobjfile ctx fname slot = (ctx', st, slot') ->
  st <> 0 -> spn_ctx_geterrtype ctx' <> SPN_ERROR_RUNTIME -> slot' = slot.
Proof.
  unfold spn_ctx_geterrtype, spn_ctx_execobjfile. intros Hrun Hst Hcat.
  destruct (spn_ctx_loadobjfile ctx fname) as [ctx1 [b|]].
  - exfalso. apply Hcat. eapply execbytecode_error_is_runtime; eassumption.
  - injection Hrun as <- <- <-. reflexivity.
Qed.

(** Callables that leave the slot alone.  The native callables
    [readfile], [printf], [substr], [split], [join], [sort], [range],
    [compile] and [exprtofn] check their arguments before they write the
    result: when one of them returns a nonzero status the return slot is
    as the caller left it.  The entry points [execstring], [execsrcfile]
    and [execobjfile] leave the caller's slot unchanged when they fail
    before the program runs, that is, with any category other than
    Runtime; once the program runs, the slot is in the hands of the
    machine. *)
Theorem error_leaves_slot_unchanged (slot : SpnValue) (argv : list SpnValue) :
  keeps_slot slot (rtlb_readfile slot argv) /\
  (forall stdout, keeps_slot slot (fst (rtlb_printf stdout slot argv))) /\
  keeps_slot slot (rtlb_substr slot argv) /\
  keeps_slot slot (rtlb_join slot argv) /\
  (forall r, rtlb_split slot argv = Ret r -> keeps_slot slot r) /\
  (forall fuel r, rtlb_range fuel slot argv = Ret r -> keeps_slot slot r) /\
  (forall ctx st r, rtlb_sort ctx slot argv = Ret (st, r) -> keeps_slot slot r) /\
  (forall ctx ctx' r, rtlb_compile ctx slot argv = Ret (ctx', r) -> keeps_slot slot r) /\
  (forall ctx ctx' r, rtlb_exprtofn ctx slot argv = Ret (ctx', r) -> keeps_slot slot r) /\
  (forall ctx str ctx' st slot',
      spn_ctx_execstring ctx str slot = (ctx', st, slot') ->
      st <> 0 -> spn_ctx_geterrtype ctx' <> SPN_ERROR_RUNTIME -> slot' = slot) /\
  (forall ctx fname ctx' st slot',
      spn_ctx_execsrcfile ctx fname slot = (ctx', st, slot') ->
      st <> 0 -> spn_ctx_geterrtype ctx' <> SPN_ERROR_RUNTIME -> slot' = slot) /\
  (forall ctx fname ctx' st slot',
      spn_ctx_execobjfile ctx fname slot = (ctx', st, slot') ->
      st <> 0 -> spn_ctx_geterrtype ctx' <> SPN_ERROR_RUNTIME -> slot' = slot).
Proof.
  repeat apply conj.
  - apply readfile_keeps_slot.
  - intros. apply printf_keeps_slot.
  - apply substr_keeps_slot.
  - apply join_keeps_slot.
  - intros r. apply split_keeps_slot.
  - intros fuel r. apply range_keeps_slot.
  - intros ctx st r. apply sort_keeps_slot.
  - intros ctx ctx' r. apply compile_keeps_slot.
  - intros ctx ctx' r. apply exprtofn_keeps_slot.
  - intros ctx str ctx' st slot'. apply execstring_keeps_slot.
  - intros ctx fname ctx' st slot'. apply execsrcfile_keeps_slot.
  - intros ctx fname ctx' st slot'. apply execobjfile_keeps_slot.
Qed.

End SlotFacts.

Section SlotOnSample.
Import Sample.

(** [readfile] of a file that does not exist, and [execstring] of a source
    the parser rejects: both fail and the slot still holds [Int 5]. *)
Lemma error_leaves_slot_unchanged_witness :
  ret (rtlb_readfile (Int 5) [String (list_ascii_of_string "missing.txt")]) = Int 5 /\
  snd (spn_ctx_execstring ctx0 "@@@" (Int 5)) = Int 5.
Proof.
  pose proof (@error_leaves_slot_unchanged _ machine callbacks value_ops format_engine
                file_system
                (Int 5) [String (list_ascii_of_string "missing.txt")]) as H.
  split.
  - apply (proj1 H). discriminate.
  - destruct H as (_ & _ & _ & _ & _ & _ & _ & _ & _ & H & _).
    apply (H ctx0 "@@@"%string (fst (fst (spn_ctx_execstring ctx0 "@@@" (Int 5)))) (-1));
      [reflexivity | discriminate | discriminate].
Defined.

(** C3. Native callables that return a nonzero status with the return
    slot written.  [concat([1], 2)] fails with -1 on its second argument
    after the slot was made to refer to the new array, which the callable
    has released: the slot is left dangling.  [min(1, "")] and
    [max(1, "")] fail with -2 with the first argument in the slot.
    [any] and [all] of a one-element array, with a function whose call
    fails, fail with -4 with the answer for an empty array in the slot. *)
Theorem natives_write_slot_before_failing :
  rtlb_concat Nil [Array [Int 1]; Int 2]
  = inr (mkDangling (-1)
           (Some (mkErr "arguments must be arrays (arg %i was %s)"
                        [ArgInt 2; ArgStr "int"]))) /\
  rtlb_min Nil [Int 1; String []]
  = mkRes (-2) (Int 1) (Some (mkErr "arguments must be numbers" [])) /\
  rtlb_max Nil [Int 1; String []]
  = mkRes (-2) (Int 1) (Some (mkErr "arguments must be numbers" [])) /\
  snd (rtlb_any ctx0 Nil [Array [Int 1]; Func (Native "none")])
  = mkRes (-4) (Bool false) None /\
  snd (rtlb_all ctx0 Nil [Array [Int 1]; Func (Native "none")])
  = mkRes (-4) (Bool true) None.
Proof. repeat split. Qed.

End SlotOnSample.

(** ** The system library *)

Section CompileFacts.
Context `{M : Machine}.

Lemma compile_expr_syntax ctx str p :
  spn_parser_parse_expression (parser ctx) str = (p, None) ->
  spn_ctx_compile_expr ctx str =
    (set_errtype (set_parser (set_errtype ctx SPN_ERROR_OK) p) SPN_ERROR_SYNTAX, None).
Proof.
  intros Hp. unfold spn_ctx_compile_expr. simpl. rewrite Hp. reflexivity.
Qed.

Lemma compile_expr_semantic ctx str p ast c :
  spn_parser_parse_expression (parser ctx) str = (p, Some ast) ->
  spn_compiler_compile (cmp ctx) ast = (c, None) ->
  spn_ctx_compile_expr ctx str =
    (set_errtype (set_cmp (set_parser (set_errtype ctx SPN_ERROR_OK) p) c)
                 SPN_ERROR_SEMANTIC, None).
Proof.
  intros Hp Hc. unfold spn_ctx_compile_expr. simpl.
  rewrite Hp. simpl. rewrite Hc. reflexivity.
Qed.

Lemma compile_expr_success ctx str p ast c b n :
  spn_parser_parse_expression (parser ctx) str = (p, Some ast) ->
  spn_compiler_compile (cmp ctx) ast = (c, Some (b, n)) ->
  spn_ctx_compile_expr ctx str =
    (prepend_bytecode_list (set_cmp (set_parser (set_errtype ctx SPN_ERROR_OK) p) c) b n,
     Some b).
Proof.
  intros Hp Hc. unfold spn_ctx_compile_expr. simpl.
  rewrite Hp. simpl. rewrite Hc. reflexivity.
Qed.

Lemma compile_reports : reports_errors_as_strings rtlb_compile spn_parser_parse.
Proof.
  intros ctx slot. repeat apply conj.
  - intros s p msg Hp Hmsg. eexists. unfold rtlb_compile.
    rewrite (loadstring_syntax _ _ Hp). unfold spn_ctx_geterrmsg. cbn.
    rewrite Hmsg. repeat split.
  - intros s p ast c msg Hp Hc Hmsg. eexists. unfold rtlb_compile.
    rewrite (loadstring_semantic _ _ Hp Hc). unfold spn_ctx_geterrmsg. cbn.
    rewrite Hmsg. repeat split.
  - intros s p ast c b n Hp Hc. eexists. unfold rtlb_compile.
    rewrite (loadstring_success _ _ Hp Hc). repeat split.
  - intros argv ctx' r. unfold rtlb_compile.
    destruct argv as [|a0 [|a1 argv]];
      try (intros [= <- <-]; cbn; split; [intros _ [s Hs]; discriminate | discriminate]).
    destruct a0;
      try (intros [= <- <-]; cbn; split; [intros _ [s' Hs]; discriminate | discriminate]).
    destruct (spn_ctx_loadstring ctx (string_of_list_ascii (c_str s))) as [ctx1 [fn|]].
    + intros [= <- <-]. cbn. split; [congruence | intros Hx; exfalso; apply Hx; eauto].
    + destruct (spn_ctx_geterrmsg ctx1); [| discriminate].
      intros [= <- <-]. cbn. split; [congruence | intros Hx; exfalso; apply Hx; eauto].
  - intros argv Hbad. unfold rtlb_compile.
    destruct argv as [|a0 [|a1 argv]];
      try (exists (-1); eexists; split; [lia | reflexivity]).
    destruct a0; try (exists (-2); eexists; split; [lia | reflexivity]).
    exfalso. apply Hbad. eauto.
Qed.

Lemma exprtofn_reports :
  reports_errors_as_strings rtlb_exprtofn spn_parser_parse_expression.
Proof.
  intros ctx slot. repeat apply conj.
  - intros s p msg Hp Hmsg. eexists. unfold rtlb_exprtofn.
    rewrite (compile_expr_syntax _ _ Hp). unfold spn_ctx_geterrmsg. cbn.
    rewrite Hmsg. repeat split.
  - intros s p ast c msg Hp Hc Hmsg. eexists. unfold rtlb_exprtofn.
    rewrite (compile_expr_semantic _ _ Hp Hc). unfold spn_ctx_geterrmsg. cbn.
    rewrite Hmsg. repeat split.
  - intros s p ast c b n Hp Hc. eexists. unfold rtlb_exprtofn.
    rewrite (compile_expr_success _ _ Hp Hc). repeat split.
  - intros argv ctx' r. unfold rtlb_exprtofn.
    destruct argv as [|a0 [|a1 argv]];
      try (intros [= <- <-]; cbn; split; [intros _ [s Hs]; discriminate | discriminate]).
    destruct a0;
      try (intros [= <- <-]; cbn; split; [intros _ [s' Hs]; discriminate | discriminate]).
    destruct (spn_ctx_compile_expr ctx (string_of_list_ascii (c_str s))) as [ctx1 [fn|]].
    + intros [= <- <-]. cbn. split; [congruence | intros Hx; exfalso; apply Hx; eauto].
    + destruct (spn_ctx_geterrmsg ctx1); [| discriminate].
      intros [= <- <-]. cbn. split; [congruence | intros Hx; exfalso; apply Hx; eauto].
  - intros argv Hbad. unfold rtlb_exprtofn.
    destruct argv as [|a0 [|a1 argv]];
      try (exists (-1); eexists; split; [lia | reflexivity]).
    destruct a0; try (exists (-2); eexists; split; [lia | reflexivity]).
    exfalso. apply Hbad. eauto.
Qed.

(** C9. [compile] and [exprtofn] do not fail on invalid source text: when
    the parser or the compiler rejects it, the call returns status 0, the
    result is the message of the parser or of the compiler as a string, and
    the error state of the context is cleared, so the category reads Ok
    afterwards.  On valid source text the result is the function.  The
    status is nonzero only when the argument vector is not one string. *)
Theorem compile_errors_are_results :
  reports_errors_as_strings rtlb_compile spn_parser_parse /\
  reports_errors_as_strings rtlb_exprtofn spn_parser_parse_expression.
Proof. split; [apply compile_reports | apply exprtofn_reports]. Qed.

End CompileFacts.

Section CompileOnSample.
Import Sample.

(** [compile("@@@")] with the sample parser: status 0, the parser's message
    as the result, and no error left in the context. *)
Lemma compile_errors_are_results_witness :
  exists ctx',
    rtlb_compile ctx0 Nil [String (list_ascii_of_string "@@@")]
      = Ret (ctx', done_ok (makestring "syntax error: unexpected character")) /\
    spn_ctx_geterrtype ctx' = SPN_ERROR_OK /\
    spn_ctx_geterrmsg ctx' = None.
Proof.
  apply (proj1 (proj1 (@compile_errors_are_results _ machine) ctx0 Nil)
               (list_ascii_of_string "@@@")
               (Some "syntax error: unexpected character"%string));
    reflexivity.
Defined.

End CompileOnSample.

(** ** The array library: elements and swaps *)

Section ArrayFacts.

Implicit Types (a : list SpnValue) (i j k : Z).

Lemma array_get_lookup a i :
  0 <= i < spn_array_count a -> a !! Z.to_nat i = Some (spn_array_get a i).
Proof.
  unfold spn_array_count, spn_array_get. intros Hi.
  destruct (nth_lookup_or_length a (Z.to_nat i) Nil) as [H | H]; [exact H | lia].
Qed.

Lemma array_get_elem a i : 0 <= i < spn_array_count a -> spn_array_get a i ∈ a.
Proof.
  intros Hi. apply list_elem_of_lookup. exists (Z.to_nat i). apply array_get_lookup, Hi.
Qed.

Lemma array_count_set a i x : spn_array_count (spn_array_set a i x) = spn_array_count a.
Proof. unfold spn_array_count, spn_array_set. rewrite length_insert. reflexivity. Qed.

Lemma array_count_swap a i j : spn_array_count (rtlb_aux_swap a i j) = spn_array_count a.
Proof. unfold rtlb_aux_swap. rewrite !array_count_set. reflexivity. Qed.

Lemma array_get_set_ne a i k x :
  0 <= i -> 0 <= k -> i <> k -> spn_array_get (spn_array_set a i x) k = spn_array_get a k.
Proof.
  intros Hi Hk Hne. unfold spn_array_get, spn_array_set.
  rewrite !nth_lookup, list_lookup_insert_ne by lia. reflexivity.
Qed.

Lemma array_get_set_eq a i x :
  0 <= i < spn_array_count a -> spn_array_get (spn_array_set a i x) i = x.
Proof.
  unfold spn_array_count, spn_array_get, spn_array_set. intros Hi.
  rewrite nth_lookup, list_lookup_insert_eq by lia. reflexivity.
Qed.

Lemma array_get_swap_other a i j k :
  0 <= i -> 0 <= j -> 0 <= k -> k <> i -> k <> j ->
  spn_array_get (rtlb_aux_swap a i j) k = spn_array_get a k.
Proof.
  intros. unfold rtlb_aux_swap. rewrite !array_get_set_ne by lia. reflexivity.
Qed.

Lemma array_get_swap_right a i j :
  0 <= i < spn_array_count a -> 0 <= j < spn_array_count a ->
  spn_array_get (rtlb_aux_swap a i j) j = spn_array_get a i.
Proof.
  intros Hi Hj. unfold rtlb_aux_swap.
  rewrite array_get_set_eq by (rewrite array_count_set; lia). reflexivity.
Qed.

Lemma array_get_swap_left a i j :
  0 <= i < spn_array_count a -> 0 <= j < spn_array_count a ->
  spn_array_get (rtlb_aux_swap a i j) i = spn_array_get a j.
Proof.
  intros Hi Hj. unfold rtlb_aux_swap.
  destruct (Z.eq_dec i j) as [-> | Hne].
  - rewrite array_get_set_eq by (rewrite array_count_set; lia). reflexivity.
  - rewrite array_get_set_ne by lia. rewrite array_get_set_eq by lia. reflexivity.
Qed.

(** A swap inside the array keeps its elements. *)
Lemma swap_elem_of a i j x :
  0 <= i < spn_array_count a -> 0 <= j < spn_array_count a ->
  x ∈ rtlb_aux_swap a i j -> x ∈ a.
Proof.
  intros Hi Hj Hx. apply list_elem_of_lookup in Hx. destruct Hx as [n Hn].
  unfold rtlb_aux_swap, spn_array_set in Hn.
  apply list_lookup_insert_Some in Hn.
  destruct Hn as [(_ & <- & _) | (_ & Hn)]; [apply array_get_elem; lia |].
  apply list_lookup_insert_Some in Hn.
  destruct Hn as [(_ & <- & _) | (_ & Hn)]; [apply array_get_elem; lia |].
  apply list_elem_of_lookup. eauto.
Qed.

End ArrayFacts.


(** ** The math library: range *)

Section RangeFacts.

Lemma range_int_loop_spec fuel :
  forall i end_ range,
    (Z.to_nat (end_ - i) <= fuel)%nat ->
    range_int_loop fuel i end_ range = Ret (range ++ map Int (seqZ i (end_ - i))).
Proof.
  induction fuel as [|fuel IH]; intros i end_ range Hfuel; cbn [range_int_loop].
  - destruct (Z.ltb_spec i end_); [lia |].
    rewrite seqZ_nil by lia. cbn. rewrite app_nil_r. reflexivity.
  - destruct (Z.ltb_spec i end_).
    + rewrite IH by lia. rewrite (seqZ_cons i) by lia. cbn [map].
      rewrite <- app_assoc. cbn [app]. unfold makeint.
      replace (Z.pred (end_ - i)) with (end_ - (i + 1)) by lia.
      replace (Z.succ i) with (i + 1) by lia. reflexivity.
    + rewrite seqZ_nil by lia. cbn. rewrite app_nil_r. reflexivity.
Qed.

Lemma range_term_succ begin step (k : nat) :
  dadd begin (dmul step (of_long (Z.of_nat k + 1))) = range_term begin step (S k).
Proof. unfold range_term. rewrite Nat2Z.inj_succ. reflexivity. Qed.

Lemma range_float_loop_spec begin end_ step (count : nat) :
  forall fuel (i : nat) range,
    (forall j, (i <= j < i + count)%nat -> SFleb (range_term begin step j) end_ = true) ->
    SFleb (range_term begin step (i + count)) end_ = false ->
    (count <= fuel)%nat ->
    Z.of_nat (i + count) <= LONG_MAX ->
    range_float_loop fuel begin end_ step (Z.of_nat i) (range_term begin step i) range
    = Ret (range ++ map (fun j => Float (range_term begin step j)) (seq i count)).
Proof.
  induction count as [|count IH]; intros fuel i range Hle Hgt Hfuel Hmax.
  - rewrite Nat.add_0_r in Hgt.
    destruct fuel; cbn [range_float_loop]; rewrite Hgt; cbn; rewrite app_nil_r; reflexivity.
  - destruct fuel as [|fuel]; [lia |]. cbn [range_float_loop].
    rewrite (Hle i) by lia.
    destruct (Z.gtb_spec (Z.of_nat i + 1) LONG_MAX) as [Hover | _]; [lia |].
    rewrite range_term_succ.
    replace (Z.of_nat i + 1) with (Z.of_nat (S i)) by lia.
    rewrite IH; try lia.
    + cbn [seq map]. rewrite <- app_assoc. reflexivity.
    + intros j Hj. apply Hle. lia.
    + replace (S i + count)%nat with (i + S count)%nat by lia. exact Hgt.
Qed.

(** C8. [range(n)] returns the integers [0, 1, ..., n-1] and [range(a, b)]
    the integers [a, ..., b-1].  [range(a, b, step)] returns the floats
    [a], [a + step*1], [a + step*2], ... up to and including the last term
    before the first one that is not [<= b]: every element is [<= b], and
    the term after the last element is not.  (The index of the loop is a
    [long]; the statement is for sequences that end before it overflows.) *)
Theorem range_contents (slot : SpnValue) :
  (forall n fuel,
      (Z.to_nat n <= fuel)%nat ->
      rtlb_range fuel slot [Int n] = Ret (done_ok (Array (map Int (seqZ 0 n)))) /\
      forall x, x ∈ seqZ 0 n <-> 0 <= x < n) /\
  (forall a b fuel,
      (Z.to_nat (b - a) <= fuel)%nat ->
      rtlb_range fuel slot [Int a; Int b] = Ret (done_ok (Array (map Int (seqZ a (b - a))))) /\
      forall x, x ∈ seqZ a (b - a) <-> a <= x < b) /\
  (forall a0 a1 a2 (count fuel : nat),
      isnum a0 = true -> isnum a1 = true -> isnum a2 = true ->
      let term := range_term (FLOATVAL a0) (FLOATVAL a2) in
      (forall j, (j < count)%nat -> SFleb (term j) (FLOATVAL a1) = true) ->
      SFleb (term count) (FLOATVAL a1) = false ->
      (count <= fuel)%nat ->
      Z.of_nat count <= LONG_MAX ->
      rtlb_range fuel slot [a0; a1; a2]
      = Ret (done_ok (Array (map (fun j => Float (term j)) (seq 0 count))))).
Proof.
  repeat apply conj.
  - intros n fuel Hfuel. split.
    + unfold rtlb_range. cbn [forallb isnum isint isfloat orb andb negb].
      rewrite range_int_loop_spec by (rewrite Z.sub_0_r; exact Hfuel).
      rewrite Z.sub_0_r. reflexivity.
    + intros x. rewrite elem_of_seqZ. lia.
  - intros a b fuel Hfuel. split.
    + unfold rtlb_range. cbn [forallb isnum isint isfloat orb andb negb].
      rewrite range_int_loop_spec by exact Hfuel. reflexivity.
    + intros x. rewrite elem_of_seqZ. lia.
  - intros a0 a1 a2 count fuel H0 H1 H2 term Hle Hgt Hfuel Hmax.
    pose proof (@range_float_loop_spec (FLOATVAL a0) (FLOATVAL a1) (FLOATVAL a2)
                  count fuel 0 []) as Hloop.
    cbn [app Z.of_nat range_term] in Hloop.
    unfold rtlb_range. cbn [forallb]. rewrite H0, H1, H2. cbn [andb negb].
    assert (Hrun : range_float_loop fuel (FLOATVAL a0) (FLOATVAL a1) (FLOATVAL a2) 0
                     (FLOATVAL a0) []
                   = Ret (map (fun j => Float (term j)) (seq 0 count))).
    { apply Hloop; [intros j Hj; apply Hle; lia | exact Hgt | exact Hfuel | exact Hmax]. }
    destruct a0; try discriminate; destruct a1; try discriminate;
      destruct a2; try discriminate; rewrite Hrun; reflexivity.
Qed.

End RangeFacts.

(** [range(0, 2, 1)]: the floats 0, 1 and 2, and 3 is not [<= 2]. *)
Lemma range_contents_witness :
  rtlb_range 3 Nil [Int 0; Int 2; Int 1]
  = Ret (done_ok (Array (map (fun j => Float (range_term (FLOATVAL (Int 0))
                                                         (FLOATVAL (Int 1)) j))
                             (seq 0 3)))).
Proof.
  apply (proj2 (proj2 (range_contents Nil)) (Int 0) (Int 2) (Int 1) 3%nat 3%nat);
    try reflexivity.
  - intros j Hj. destruct j as [|[|[|j]]]; [reflexivity .. | lia].
  - vm_compute. discriminate.
Defined.

Example range_integers :
  rtlb_range 3 Nil [Int 3] = Ret (done_ok (Array [Int 0; Int 1; Int 2])) /\
  rtlb_range 3 Nil [Int 2; Int 5] = Ret (done_ok (Array [Int 2; Int 3; Int 4])).
Proof. split; reflexivity. Qed.

(** ** The arithmetic of [double]

    What [SpecFloat] computes when it rounds, in terms of divisions by
    powers of two, and from there: rounding keeps the order against a float
    of the format, adding a float that is zero or below does not go up. *)

Unset Implicit Arguments.
Unset Default Proof Using.

(** *** Binary digits *)

Section Digits.

Lemma digits2_pos_size p : digits2_pos p = Pos.size p.
Proof. induction p; cbn; congruence. Qed.

Lemma ndigits_pos p : 1 <= ndigits p.
Proof. unfold ndigits. lia. Qed.

Lemma ndigits_bounds p : 2 ^ (ndigits p - 1) <= Z.pos p < 2 ^ ndigits p.
Proof.
  unfold ndigits. rewrite digits2_pos_size.
  pose proof (Pos.size_gt p) as Hgt. pose proof (Pos.size_le p) as Hle.
  assert (H2 : Z.pos (2 ^ Pos.size p) = 2 ^ Z.pos (Pos.size p)).
  { rewrite Pos2Z.inj_pow. reflexivity. }
  split.
  - assert (2 ^ Z.pos (Pos.size p) <= 2 * Z.pos p) by (rewrite <- H2; lia).
    replace (Z.pos (Pos.size p)) with (Z.succ (Z.pos (Pos.size p) - 1)) in H by lia.
    rewrite Z.pow_succ_r in H by lia. lia.
  - rewrite <- H2. lia.
Qed.

Lemma ndigits_le p q : (p <= q)%positive -> ndigits p <= ndigits q.
Proof.
  intros Hpq. destruct (Z_lt_le_dec (ndigits q) (ndigits p)) as [Hlt | Hle]; [exfalso | exact Hle].
  pose proof (ndigits_bounds p) as [Hp _]. pose proof (ndigits_bounds q) as [_ Hq].
  assert (2 ^ ndigits q <= 2 ^ (ndigits p - 1)) by (apply Z.pow_le_mono_r; lia).
  lia.
Qed.

Lemma ndigits_lt_pow p d : Z.pos p < 2 ^ d -> ndigits p <= d.
Proof.
  intros Hp. destruct (Z_lt_le_dec d (ndigits p)) as [Hlt | Hle]; [exfalso | exact Hle].
  pose proof (ndigits_bounds p) as [Hlo _].
  destruct (Z_lt_le_dec d 0).
  - rewrite Z.pow_neg_r in Hp by lia. lia.
  - assert (2 ^ d <= 2 ^ (ndigits p - 1)) by (apply Z.pow_le_mono_r; lia). lia.
Qed.

Lemma ndigits_ge_pow p d : 2 ^ d <= Z.pos p -> d + 1 <= ndigits p.
Proof.
  intros Hp. destruct (Z_lt_le_dec (ndigits p) (d + 1)) as [Hlt | Hle]; [exfalso | exact Hle].
  pose proof (ndigits_bounds p) as [_ Hhi]. pose proof (ndigits_pos p).
  assert (2 ^ ndigits p <= 2 ^ d) by (apply Z.pow_le_mono_r; lia). lia.
Qed.

End Digits.

(** *** Right shifts *)

Section Shr.

Lemma iter_pos_nat {A} (f : A -> A) p x :
  SpecFloat.iter_pos f p x = Nat.iter (Pos.to_nat p) f x.
Proof.
  revert x. induction p as [p IH | p IH |]; intros x; cbn [SpecFloat.iter_pos].
  - rewrite !IH. rewrite Pos2Nat.inj_xI.
    replace (S (2 * Pos.to_nat p))%nat with (Pos.to_nat p + (Pos.to_nat p + 1))%nat by lia.
    rewrite !Nat.iter_add. reflexivity.
  - rewrite !IH. rewrite Pos2Nat.inj_xO.
    replace (2 * Pos.to_nat p)%nat with (Pos.to_nat p + Pos.to_nat p)%nat by lia.
    rewrite Nat.iter_add. reflexivity.
  - reflexivity.
Qed.

Lemma shr_1_spec m r s :
  0 <= m ->
  shr_m (shr_1 (Build_shr_record m r s)) = m / 2 /\
  inexact (shr_1 (Build_shr_record m r s)) = Z.odd m || (r || s).
Proof.
  intros Hm. destruct m as [|p|p]; [| | lia].
  - split; reflexivity.
  - destruct p as [p|p|].
    + split; [cbn; rewrite Pos2Z.inj_xI; 
              replace (2 * Z.pos p + 1) with (Z.pos p * 2 + 1) by lia;
              rewrite Z.div_add_l by lia; reflexivity | reflexivity].
    + split; [cbn; rewrite Pos2Z.inj_xO;
              replace (2 * Z.pos p) with (Z.pos p * 2) by lia;
              rewrite Z.div_mul by lia; reflexivity | reflexivity].
    + split; reflexivity.
Qed.

Lemma mod_pow2_succ M n :
  0 <= M -> 0 <= n ->
  (M mod 2 ^ (n + 1) = 0 <-> M mod 2 ^ n = 0 /\ Z.odd (M / 2 ^ n) = false).
Proof.
  intros HM Hn. rewrite Z.pow_add_r by lia. change (2 ^ 1) with 2.
  assert (Hp : 0 < 2 ^ n) by (apply Z.pow_pos_nonneg; lia).
  rewrite Z.rem_mul_r by lia.
  pose proof (Z.mod_pos_bound M (2 ^ n) Hp) as Hb.
  pose proof (Z.mod_pos_bound (M / 2 ^ n) 2 ltac:(lia)) as Hb2.
  rewrite <- Z.negb_even, negb_false_iff.
  rewrite Zeven_bool_iff, Zeven_ex_iff. split.
  - intros H. assert (M mod 2 ^ n = 0 /\ (M / 2 ^ n) mod 2 = 0) as [H1 H2] by nia.
    split; [exact H1 |]. exists (M / 2 ^ n / 2).
    pose proof (Z.div_mod (M / 2 ^ n) 2 ltac:(lia)). lia.
  - intros [H1 [k Hk]]. rewrite H1, Hk.
    replace (2 * k) with (k * 2) by lia. rewrite Z.mod_mul by lia. lia.
Qed.

Lemma shr_iter_spec n M r s :
  0 <= M ->
  let x := Nat.iter n shr_1 (Build_shr_record M r s) in
  shr_m x = M / 2 ^ Z.of_nat n /\
  (inexact x = false <-> (r || s = false /\ M mod 2 ^ Z.of_nat n = 0)).
Proof.
  intros HM. induction n as [|n [IHm IHr]]; cbn zeta.
  - cbn. rewrite Z.div_1_r, Z.mod_1_r. unfold inexact. cbn. intuition.
  - rewrite Nat.iter_succ.
    destruct (Nat.iter n shr_1 (Build_shr_record M r s)) as [m' r' s'] eqn:Hx.
    cbn [shr_m] in IHm. unfold inexact in IHr. cbn [shr_r shr_s] in IHr.
    assert (Hm' : 0 <= m').
    { rewrite IHm. apply Z.div_pos; [lia | apply Z.pow_pos_nonneg; lia]. }
    destruct (shr_1_spec m' r' s' Hm') as [H1 H2]. rewrite H1, H2.
    rewrite Nat2Z.inj_succ, <- Z.add_1_r. split.
    + rewrite IHm. rewrite Z.pow_add_r by lia. change (2 ^ 1) with 2.
      rewrite Z.div_div by (try apply Z.pow_pos_nonneg; lia). reflexivity.
    + rewrite orb_false_iff, IHr, mod_pow2_succ by lia. rewrite IHm. tauto.
Qed.

(** [shr] from an exact record: a division, exact or not. *)
Lemma shr_spec M E n :
  0 <= M ->
  let '(mrs, e) := shr (Build_shr_record M false false) E n in
  e = E + Z.max n 0 /\
  shr_m mrs = M / 2 ^ Z.max n 0 /\
  (inexact mrs = false <-> M mod 2 ^ Z.max n 0 = 0).
Proof.
  intros HM. unfold shr. destruct n as [|p|p].
  - cbn. rewrite Z.div_1_r, Z.mod_1_r. repeat split; try lia. 
  - rewrite iter_pos_nat.
    destruct (shr_iter_spec (Pos.to_nat p) M false false HM) as [H1 H2].
    rewrite positive_nat_Z in H1, H2.
    rewrite Z.max_l by lia. split; [reflexivity |]. split; [exact H1 |].
    rewrite H2. cbn. tauto.
  - cbn. rewrite Z.div_1_r, Z.mod_1_r. repeat split; try lia.
Qed.

End Shr.

(** *** Rounding to the format *)

Section Round.
Variables prec emax : Z.
Hypothesis Hprec : 0 < prec.

Abbreviation fexp := (fexp prec emax).
Abbreviation emin := (emin prec emax).

Lemma fexp_mono x y : x <= y -> fexp x <= fexp y.
Proof. unfold SpecFloat.fexp. lia. Qed.

Lemma fexp_ge_emin x : emin <= fexp x.
Proof. unfold SpecFloat.fexp. lia. Qed.

Lemma round_nearest_even_cases q mrs :
  0 <= q ->
  let m1 := round_nearest_even q (loc_of_shr_record mrs) in
  m1 = q \/ (m1 = q + 1 /\ inexact mrs = true).
Proof.
  intros Hq. destruct mrs as [m r s]. unfold inexact. cbn [shr_r shr_s].
  destruct r, s; cbn; auto.
  destruct (Z.even q); auto.
Qed.

(** What [binary_round_aux] computes from an exact mantissa and exponent:
    two divisions by a power of two with a rounding step between them. *)
Lemma binary_round_aux_exact s (M : positive) E :
  let e1 := Z.max E (fexp (ndigits M + E)) in
  let q := Z.pos M / 2 ^ (e1 - E) in
  exists m1,
    (m1 = q \/ (m1 = q + 1 /\ Z.pos M mod 2 ^ (e1 - E) <> 0)) /\
    let e2 := Z.max e1 (fexp (Zdigits2 m1 + e1)) in
    let m3 := m1 / 2 ^ (e2 - e1) in
    binary_round_aux prec emax s (Z.pos M) E loc_Exact =
      match m3 with
      | Z0 => S754_zero s
      | Zpos m => if e2 <=? emax - prec then S754_finite s m e2 else S754_infinity s
      | Zneg _ => S754_nan
      end.
Proof.
  cbv zeta. unfold binary_round_aux, shr_fexp.
  cbn [shr_record_of_loc Zdigits2]. fold (ndigits M).
  pose proof (shr_spec (Z.pos M) E (fexp (ndigits M + E) - E) ltac:(lia)) as H1.
  destruct (shr {| shr_m := Z.pos M; shr_r := false; shr_s := false |} E
                (fexp (ndigits M + E) - E)) as [mrs' e'].
  destruct H1 as (He' & Hm' & Hrs').
  assert (Hee : e' = Z.max E (fexp (ndigits M + E))) by lia.
  assert (Hsh : Z.max (fexp (ndigits M + E) - E) 0 = Z.max E (fexp (ndigits M + E)) - E) by lia.
  rewrite Hsh in Hm', Hrs'.
  set (q := Z.pos M / 2 ^ (Z.max E (fexp (ndigits M + E)) - E)) in *.
  assert (Hq : 0 <= q).
  { subst q. apply Z.div_pos; [lia | apply Z.pow_pos_nonneg; lia]. }
  rewrite Hm'.
  pose proof (round_nearest_even_cases q mrs' Hq) as Hr. cbv zeta in Hr.
  set (m1 := round_nearest_even q (loc_of_shr_record mrs')) in *.
  exists m1. split.
  { destruct Hr as [Hr | [Hr Hrs]]; [left; exact Hr | right].
    split; [exact Hr |]. intros Hz. apply Hrs' in Hz. congruence. }
  assert (Hm1 : 0 <= m1) by (destruct Hr as [Hr | [Hr _]]; lia).
  pose proof (shr_spec m1 e' (fexp (Zdigits2 m1 + e') - e') Hm1) as H2.
  destruct (shr {| shr_m := m1; shr_r := false; shr_s := false |} e'
                (fexp (Zdigits2 m1 + e') - e')) as [mrs'' e''].
  destruct H2 as (He'' & Hm'' & _).
  rewrite <- Hee.
  assert (Hsh2 : Z.max (fexp (Zdigits2 m1 + e') - e') 0
                 = Z.max e' (fexp (Zdigits2 m1 + e')) - e') by lia.
  rewrite Hsh2 in Hm''. rewrite Hm''.
  assert (He2 : e'' = Z.max e' (fexp (Zdigits2 m1 + e'))) by lia.
  rewrite He2. reflexivity.
Qed.

Lemma shl_align_spec mx ex t :
  let '(mz, ez) := shl_align mx ex t in
  ez = Z.min ex t /\ Z.pos mz = Z.pos mx * 2 ^ (ex - ez).
Proof.
  unfold shl_align. destruct (t - ex) as [|p|p] eqn:Hd.
  - split; [lia |]. replace (ex - ex) with 0 by lia. lia.
  - split; [lia |]. replace (ex - ex) with 0 by lia. lia.
  - split; [lia |]. replace (ex - t) with (Z.pos p) by lia.
    change (Pos.iter xO mx p) with (shift_pos p mx).
    rewrite shift_pos_correct. change (Zpower_pos 2 p) with (2 ^ Z.pos p). ring.
Qed.


Lemma pow2_pos k : 0 < 2 ^ k \/ k < 0.
Proof. destruct (Z_lt_le_dec k 0); [right; lia | left; apply Z.pow_pos_nonneg; lia]. Qed.

Lemma pow2_split a b c : a <= b <= c -> 2 ^ (c - a) = 2 ^ (c - b) * 2 ^ (b - a).
Proof. intros H. rewrite <- Z.pow_add_r by lia. f_equal. lia. Qed.

Lemma ndigits_shift (M mx : positive) k :
  0 <= k -> Z.pos M = Z.pos mx * 2 ^ k -> ndigits M = ndigits mx + k.
Proof.
  intros Hk HM. pose proof (ndigits_bounds mx) as [Hlo Hhi]. pose proof (ndigits_pos mx).
  assert (Hp : 0 < 2 ^ k) by (apply Z.pow_pos_nonneg; lia).
  assert (H1 : ndigits M <= ndigits mx + k).
  { apply ndigits_lt_pow. rewrite HM, Z.pow_add_r by lia. nia. }
  assert (H2 : ndigits mx + k - 1 + 1 <= ndigits M).
  { apply ndigits_ge_pow. rewrite HM.
    replace (ndigits mx + k - 1) with ((ndigits mx - 1) + k) by lia.
    rewrite Z.pow_add_r by lia. nia. }
  lia.
Qed.

(** [binary_round] on a positive mantissa, in the same terms. *)
Lemma binary_round_exact s mx ex :
  let f := fexp (ndigits mx + ex) in
  let E := Z.min ex f in
  let M := Z.pos mx * 2 ^ (ex - E) in
  let q := M / 2 ^ (f - E) in
  exists m1,
    (m1 = q \/ (m1 = q + 1 /\ M mod 2 ^ (f - E) <> 0)) /\
    let e2 := Z.max f (fexp (Zdigits2 m1 + f)) in
    let m3 := m1 / 2 ^ (e2 - f) in
    binary_round prec emax s mx ex =
      match m3 with
      | Z0 => S754_zero s
      | Zpos m => if e2 <=? emax - prec then S754_finite s m e2 else S754_infinity s
      | Zneg _ => S754_nan
      end.
Proof.
  cbv zeta. unfold binary_round. fold (ndigits mx).
  pose proof (shl_align_spec mx ex (fexp (ndigits mx + ex))) as Hs.
  destruct (shl_align mx ex (fexp (ndigits mx + ex))) as [mz ez].
  destruct Hs as [Hez Hmz].
  assert (HD : ndigits mz = ndigits mx + (ex - ez)) by (apply ndigits_shift; [lia | exact Hmz]).
  destruct (binary_round_aux_exact s mz ez) as (m1 & Hm1 & Hres).
  cbv zeta in Hres.
  replace (ndigits mz + ez) with (ndigits mx + ex) in * by lia.
  replace (Z.max ez (fexp (ndigits mx + ex))) with (fexp (ndigits mx + ex)) in * by lia.
  rewrite <- Hez, <- Hmz. exists m1. split; [exact Hm1 | exact Hres].
Qed.

(** Dividing a number of [d] digits down to its format keeps it positive. *)
Lemma second_shift_pos (m : positive) f :
  emin <= f ->
  let e2 := Z.max f (fexp (ndigits m + f)) in
  0 < Z.pos m / 2 ^ (e2 - f).
Proof.
  intros Hf e2. pose proof (ndigits_bounds m) as [Hlo _]. pose proof (ndigits_pos m).
  destruct (Z.eq_dec e2 f) as [He | He].
  - rewrite He, Z.sub_diag, Z.div_1_r. lia.
  - assert (He2 : e2 - f = ndigits m - prec) by (subst e2; unfold SpecFloat.fexp in *; lia).
    rewrite He2.
    assert (0 <= ndigits m - prec) by (subst e2; unfold SpecFloat.fexp in *; lia).
    apply Z.div_str_pos. split; [apply Z.pow_pos_nonneg; lia |].
    assert (2 ^ (ndigits m - prec) <= 2 ^ (ndigits m - 1)) by (apply Z.pow_le_mono_r; lia).
    lia.
Qed.

Section Against.
Variables (ma : positive) (ea : Z).
Hypothesis Hcan : canonical_mantissa prec emax ma ea = true.

Lemma canonical_fexp : fexp (ndigits ma + ea) = ea.
Proof. unfold canonical_mantissa in Hcan. apply Z.eqb_eq in Hcan. exact Hcan. Qed.

(** Rounding what is at most a number of the format gives at most that
    number. *)
Lemma binary_round_le s mx ex :
  ea <= emax - prec ->
  ex <= ea ->
  Z.pos mx <= Z.pos ma * 2 ^ (ea - ex) ->
  binary_round prec emax s mx ex = S754_zero s \/
  exists m e,
    binary_round prec emax s mx ex = S754_finite s m e /\
    (e < ea \/ (e = ea /\ (m <= ma)%positive)).
Proof.
  intros Hmax Hex Hle.
  destruct (binary_round_exact s mx ex) as (m1 & Hm1 & Hres). cbv zeta in *.
  set (f := fexp (ndigits mx + ex)) in *. set (E := Z.min ex f) in *.
  set (M := Z.pos mx * 2 ^ (ex - E)) in *.
  pose proof (ndigits_bounds ma) as [_ Hma]. pose proof (ndigits_pos ma). pose proof (ndigits_pos mx).
  pose proof canonical_fexp as Hca.
  assert (HpE : 0 < 2 ^ (ex - E)) by (apply Z.pow_pos_nonneg; lia).
  assert (Hpa : 0 < 2 ^ (ea - ex)) by (apply Z.pow_pos_nonneg; lia).
  (* the exponent of the result is at most [ea] *)
  assert (Hf : f <= ea).
  { rewrite <- Hca. apply fexp_mono.
    cut (ndigits mx <= ndigits ma + (ea - ex)); [lia |]. apply ndigits_lt_pow.
    rewrite Z.pow_add_r by lia. nia. }
  assert (HfE : E <= f) by lia.
  assert (Hpf : 0 < 2 ^ (f - E)) by (apply Z.pow_pos_nonneg; lia).
  assert (Hpaf : 0 < 2 ^ (ea - f)) by (apply Z.pow_pos_nonneg; lia).
  set (T := Z.pos ma * 2 ^ (ea - f)).
  assert (HM : M <= T * 2 ^ (f - E)).
  { subst M T. rewrite <- Z.mul_assoc, <- (pow2_split E f ea) by lia.
    rewrite (pow2_split E ex ea) by lia. nia. }
  assert (Hm1T : m1 <= T).
  { destruct Hm1 as [-> | [-> Hne]].
    - apply Z.div_le_upper_bound; lia.
    - cut (M / 2 ^ (f - E) < T); [lia |]. apply Z.div_lt_upper_bound; [lia |].
      destruct (Z.eq_dec M (T * 2 ^ (f - E))) as [Heq | Hneq]; [| lia].
      exfalso. apply Hne. rewrite Heq. apply Z.mod_mul. lia. }
  assert (Hm1' : 0 <= m1).
  { assert (0 <= M / 2 ^ (f - E)) by (apply Z.div_pos; subst M; lia).
    destruct Hm1 as [-> | [-> _]]; lia. }
  destruct m1 as [|p1|p1]; [| | lia].
  - (* rounded to zero *)
    left. rewrite Hres. rewrite Z.div_0_l; [reflexivity |].
    apply Z.pow_nonzero; [lia |]. cbn [Zdigits2]. lia.
  - cbn [Zdigits2] in Hres. fold (ndigits p1) in Hres.
    set (e2 := Z.max f (fexp (ndigits p1 + f))) in *.
    assert (He2 : e2 <= ea).
    { subst e2. apply Z.max_lub; [exact Hf |]. rewrite <- Hca. apply fexp_mono.
      cut (ndigits p1 <= ndigits ma + (ea - f)); [lia |]. apply ndigits_lt_pow.
      rewrite Z.pow_add_r by lia. subst T. nia. }
    assert (Hpe : 0 < 2 ^ (e2 - f)) by (apply Z.pow_pos_nonneg; subst e2; lia).
    assert (Hm3 : Z.pos p1 / 2 ^ (e2 - f) <= Z.pos ma * 2 ^ (ea - e2)).
    { apply Z.div_le_upper_bound; [lia |].
      rewrite (Z.mul_comm (2 ^ (e2 - f))), <- Z.mul_assoc.
      rewrite <- (pow2_split f e2 ea) by (subst e2; lia). exact Hm1T. }
    assert (Hm3' : 0 <= Z.pos p1 / 2 ^ (e2 - f)) by (apply Z.div_pos; lia).
    destruct (Z.pos p1 / 2 ^ (e2 - f)) as [|m3|m3] eqn:Hd; [left; exact Hres | | lia].
    right. exists m3, e2. destruct (Z.leb_spec e2 (emax - prec)); [| lia].
    split; [exact Hres |].
    destruct (Z.eq_dec e2 ea) as [Heq | Hneq]; [right | left; lia].
    split; [exact Heq |]. rewrite Heq, Z.sub_diag in Hm3. lia.
Qed.

(** Rounding what is at least a number of the format gives at least that
    number. *)
Lemma binary_round_ge s mx ex :
  ex <= ea ->
  Z.pos ma * 2 ^ (ea - ex) <= Z.pos mx ->
  binary_round prec emax s mx ex = S754_infinity s \/
  exists m e,
    binary_round prec emax s mx ex = S754_finite s m e /\
    (ea < e \/ (e = ea /\ (ma <= m)%positive)).
Proof.
  intros Hex Hge.
  destruct (binary_round_exact s mx ex) as (m1 & Hm1 & Hres). cbv zeta in *.
  set (f := fexp (ndigits mx + ex)) in *. set (E := Z.min ex f) in *.
  set (M := Z.pos mx * 2 ^ (ex - E)) in *.
  pose proof (ndigits_bounds ma) as [Hma _]. pose proof (ndigits_pos ma). pose proof (ndigits_pos mx).
  pose proof (ndigits_bounds mx) as [Hmx _].
  pose proof canonical_fexp as Hca.
  assert (HpE : 0 < 2 ^ (ex - E)) by (apply Z.pow_pos_nonneg; lia).
  assert (Hpa : 0 < 2 ^ (ea - ex)) by (apply Z.pow_pos_nonneg; lia).
  assert (Hf : ea <= f).
  { rewrite <- Hca. apply fexp_mono.
    cut (ndigits ma - 1 + (ea - ex) + 1 <= ndigits mx); [lia |]. apply ndigits_ge_pow.
    rewrite Z.pow_add_r by lia. nia. }
  assert (HfE : E <= f) by lia.
  assert (Hemin : emin <= f) by apply fexp_ge_emin.
  assert (Hpf : 0 < 2 ^ (f - E)) by (apply Z.pow_pos_nonneg; lia).
  assert (HM0 : 0 < M) by (subst M; lia).
  set (q := M / 2 ^ (f - E)) in *.
  (* the first quotient is positive, and at least [ma] at the exponent [ea] *)
  assert (Hqa : f = ea -> Z.pos ma <= q).
  { intros Hfe. subst q. apply Z.div_le_lower_bound; [lia |].
    subst M. rewrite Hfe. rewrite (pow2_split E ex ea) by lia. nia. }
  assert (Hq0 : 0 < q).
  { destruct (Z.eq_dec f ea) as [Hfe | Hfe]; [specialize (Hqa Hfe); lia |].
    assert (Hea : emin <= ea) by (rewrite <- Hca; apply fexp_ge_emin).
    assert (HfD : f = ndigits mx + ex - prec) by (subst f; unfold SpecFloat.fexp in *; lia).
    subst q. apply Z.div_str_pos. split; [lia |]. subst M.
    destruct (Z.eq_dec f E) as [HfeqE | HfneE].
    - rewrite HfeqE, Z.sub_diag. lia.
    - assert (HEx : E = ex) by lia.
      rewrite HEx, Z.sub_diag, Z.mul_1_r.
      assert (2 ^ (f - ex) <= 2 ^ (ndigits mx - 1)) by (apply Z.pow_le_mono_r; lia). lia. }
  assert (Hm1q : q <= m1) by (destruct Hm1 as [-> | [-> _]]; lia).
  destruct m1 as [|p1|p1]; [lia | | lia].
  cbn [Zdigits2] in Hres. fold (ndigits p1) in Hres.
  pose proof (second_shift_pos p1 f Hemin) as Hpos. cbv zeta in Hpos.
  set (e2 := Z.max f (fexp (ndigits p1 + f))) in *.
  destruct (Z.pos p1 / 2 ^ (e2 - f)) as [|m3|m3] eqn:Hd; [lia | | lia].
  destruct (Z.leb_spec e2 (emax - prec)); [right | left; exact Hres].
  exists m3, e2. split; [exact Hres |].
  destruct (Z.eq_dec e2 ea) as [Heq | Hneq]; [right | left; subst e2; lia].
  split; [exact Heq |].
  assert (Hfe : f = ea) by (subst e2; lia).
  assert (He2f : e2 - f = 0) by lia.
  rewrite He2f, Z.div_1_r in Hd. specialize (Hqa Hfe). lia.
Qed.

End Against.

(** Rounding never makes a NaN, and keeps the sign. *)
Lemma binary_round_aux_kind s (M : positive) E :
  binary_round_aux prec emax s (Z.pos M) E loc_Exact = S754_zero s \/
  binary_round_aux prec emax s (Z.pos M) E loc_Exact = S754_infinity s \/
  exists m e, binary_round_aux prec emax s (Z.pos M) E loc_Exact = S754_finite s m e.
Proof.
  destruct (binary_round_aux_exact s M E) as (m1 & Hm1 & Hres). cbv zeta in *.
  assert (0 <= Z.pos M / 2 ^ (Z.max E (fexp (ndigits M + E)) - E))
    by (apply Z.div_pos; [lia | apply Z.pow_pos_nonneg; lia]).
  assert (Hm1' : 0 <= m1) by (destruct Hm1 as [-> | [-> _]]; lia).
  set (e2 := Z.max _ (fexp (Zdigits2 m1 + _))) in Hres.
  assert (0 <= m1 / 2 ^ (e2 - Z.max E (fexp (ndigits M + E))))
    by (apply Z.div_pos; [lia | apply Z.pow_pos_nonneg; subst e2; lia]).
  rewrite Hres.
  destruct (m1 / 2 ^ (e2 - Z.max E (fexp (ndigits M + E)))) as [|m|m]; [auto | | lia].
  destruct (e2 <=? emax - prec); eauto.
Qed.

End Round.

(** *** The order on floats *)

Section Order.

Lemma compare_cont_Eq m1 m2 : PosDef.Pos.compare_cont Eq m1 m2 = Pos.compare m1 m2.
Proof. reflexivity. Qed.

(** [<=] on floats is transitive. *)
Lemma SFleb_trans x y z : SFleb x y = true -> SFleb y z = true -> SFleb x z = true.
Proof.
  unfold SFleb, SFcompare.
  destruct x as [sx | sx | | sx mx ex], y as [sy | sy | | sy my ey],
           z as [sz | sz | | sz mz ez];
    try discriminate; try reflexivity;
    repeat match goal with s : bool |- _ => destruct s end;
    try discriminate; try reflexivity;
    rewrite ?compare_cont_Eq;
    repeat match goal with
           | |- context [Z.compare ?a ?b] => destruct (Z.compare_spec a b)
           | |- context [Pos.compare ?a ?b] => destruct (Pos.compare_spec a b)
           end;
    cbn; try discriminate; try reflexivity; try lia;
    try (intros; discriminate); try (intros; subst; lia).
    all: intros; subst; try assumption.
    all: rewrite ?compare_cont_Eq in *;
      repeat match goal with
             | |- context [Pos.compare ?a ?b] => destruct (Pos.compare_spec a b)
             | H : context [Pos.compare ?a ?b] |- _ => destruct (Pos.compare_spec a b)
             end; cbn in *; try discriminate; try reflexivity; try lia.
Qed.

Lemma SFleb_finite_pos m e ma ea :
  e < ea \/ (e = ea /\ (m <= ma)%positive) ->
  SFleb (S754_finite false m e) (S754_finite false ma ea) = true.
Proof.
  intros H. unfold SFleb, SFcompare. rewrite compare_cont_Eq.
  destruct (Z.compare_spec e ea); try lia; try reflexivity.
  destruct (Pos.compare_spec m ma); try lia; reflexivity.
Qed.

Lemma SFleb_finite_neg m e ma ea :
  ea < e \/ (e = ea /\ (ma <= m)%positive) ->
  SFleb (S754_finite true m e) (S754_finite true ma ea) = true.
Proof.
  intros H. unfold SFleb, SFcompare. rewrite compare_cont_Eq.
  destruct (Z.compare_spec e ea); try lia; try reflexivity.
  destruct (Pos.compare_spec m ma); cbn; try lia; reflexivity.
Qed.

End Order.

(** *** Sums and products with a float that is zero or below *)

Section Add.
Variables prec emax : Z.
Hypothesis Hprec : 0 < prec.

Lemma nonpositive_iff y : SFleb y (S754_zero false) = true <-> nonpositive y.
Proof.
  destruct y as [s | s | | s m e]; try destruct s; cbn; split; intros Hs;
    try discriminate; try contradiction; auto.
Qed.

Lemma binary_round_kind s mx ex :
  binary_round prec emax s mx ex = S754_zero s \/
  binary_round prec emax s mx ex = S754_infinity s \/
  exists m e, binary_round prec emax s mx ex = S754_finite s m e.
Proof.
  unfold binary_round. destruct (shl_align mx ex _) as [mz ez].
  apply binary_round_aux_kind.
Qed.

(** The product of a nonpositive float and a positive finite one. *)
Lemma SFmul_nonpositive step mi ei :
  nonpositive step ->
  nonpositive (SFmul prec emax step (S754_finite false mi ei)).
Proof.
  destruct step as [s | s | | s ms es]; cbn; try tauto.
  - intros ->. reflexivity.
  - intros ->. cbn.
    destruct (binary_round_aux_kind prec emax true (ms * mi) (es + ei))
      as [-> | [-> | (m & e & ->)]]; cbn; auto.
Qed.

Lemma shl_align_fst mx ex ez :
  ez <= ex -> Z.pos (fst (shl_align mx ex ez)) = Z.pos mx * 2 ^ (ex - ez).
Proof.
  intros Hle. pose proof (shl_align_spec mx ex ez) as H.
  destruct (shl_align mx ex ez) as [mz ez']. destruct H as [H1 H2].
  cbn [fst]. rewrite H2. f_equal. f_equal. lia.
Qed.

(** Adding a nonpositive float to a float of the format, other than
    [+infinity], gives a float that is not above it. *)
Lemma SFadd_nonpositive_le a y :
  valid_binary prec emax a = true ->
  a <> S754_nan ->
  a <> S754_infinity false ->
  nonpositive y ->
  SFleb (SFadd prec emax a y) a = true.
Proof.
  intros Hvalid Hnan Hinf Hy.
  destruct a as [sa | sa | | sa ma ea]; [| | contradiction |].
  - (* a is a zero *)
    destruct y as [sy | sy | | sy my ey]; cbn in Hy; try contradiction; subst.
    + destruct sa, sy; reflexivity.
    + destruct sa; reflexivity.
    + reflexivity.
  - (* a is -infinity *)
    destruct sa; [| contradiction].
    destruct y as [sy | sy | | sy my ey]; cbn in Hy; try contradiction; subst; reflexivity.
  - (* a is finite *)
    cbn in Hvalid. unfold bounded in Hvalid. apply andb_prop in Hvalid.
    destruct Hvalid as [Hcan Hmax]. apply Z.leb_le in Hmax.
    destruct y as [sy | sy | | sy my ey]; cbn in Hy; try contradiction; subst.
    + cbn. destruct sa; cbn; rewrite Z.compare_refl, Pos.compare_cont_refl; reflexivity.
    + destruct sa; reflexivity.
    + cbn [SFadd].
      set (ez := Z.min ea ey).
      pose proof (shl_align_fst ma ea ez ltac:(subst ez; lia)) as HA.
      pose proof (shl_align_fst my ey ez ltac:(subst ez; lia)) as HY.
      set (A := fst (shl_align ma ea ez)) in *.
      set (Y := fst (shl_align my ey ez)) in *.
      destruct sa; cbn [cond_Zopp].
      * (* a negative: the sum is further from zero *)
        change (- Z.pos A + - Z.pos Y) with (Z.neg (A + Y)). cbn [binary_normalize].
        destruct (binary_round_ge prec emax Hprec ma ea Hcan true (A + Y) ez)
          as [-> | (m & e & -> & Hlex)]; [subst ez; lia | | reflexivity |].
        { rewrite Pos2Z.inj_add, HA. lia. }
        apply SFleb_finite_neg. exact Hlex.
      * (* a positive *)
        destruct (Z.pos A + - Z.pos Y) as [|p|p] eqn:Hz; cbn [binary_normalize].
        -- reflexivity.
        -- destruct (binary_round_le prec emax ma ea Hcan false p ez Hmax)
             as [-> | (m & e & -> & Hlex)]; [subst ez; lia | | reflexivity |].
           { rewrite <- HA. lia. }
           apply SFleb_finite_pos. exact Hlex.
        -- destruct (binary_round_kind true p ez) as [-> | [-> | (m & e & ->)]];
             reflexivity.
Qed.

End Add.

(** *** Rounding gives floats of the format *)

Section Valid.
Variables prec emax : Z.
Hypothesis Hprec : 0 < prec.

Abbreviation fexp := (fexp prec emax).
Abbreviation emin := (emin prec emax).

Lemma ndigits_div (m p : positive) k :
  0 <= k -> Z.pos m = Z.pos p / 2 ^ k -> ndigits m = ndigits p - k.
Proof.
  intros Hk Hm. pose proof (ndigits_bounds p) as [Hlo Hhi]. pose proof (ndigits_pos p).
  assert (Hp : 0 < 2 ^ k) by (apply Z.pow_pos_nonneg; lia).
  assert (Hkp : 2 ^ k <= Z.pos p).
  { destruct (Z_lt_le_dec (Z.pos p) (2 ^ k)) as [Hlt | Hle]; [| exact Hle].
    rewrite Z.div_small in Hm by lia. lia. }
  assert (HkD : k + 1 <= ndigits p) by (apply ndigits_ge_pow; exact Hkp).
  assert (H1 : ndigits m <= ndigits p - k).
  { apply ndigits_lt_pow. rewrite Hm. apply Z.div_lt_upper_bound; [lia |].
    rewrite <- Z.pow_add_r by lia. replace (k + (ndigits p - k)) with (ndigits p) by lia. lia. }
  assert (H2 : ndigits p - k - 1 + 1 <= ndigits m).
  { apply ndigits_ge_pow. rewrite Hm. apply Z.div_le_lower_bound; [lia |].
    rewrite <- Z.pow_add_r by lia. replace (k + (ndigits p - k - 1)) with (ndigits p - 1) by lia. lia. }
  lia.
Qed.

(** The first quotient of [binary_round] has at least [prec] digits when
    the exponent is above the least one. *)
Lemma first_quotient_digits mx ex :
  let f := fexp (ndigits mx + ex) in
  let E := Z.min ex f in
  let M := Z.pos mx * 2 ^ (ex - E) in
  emin < f -> 2 ^ (prec - 1) <= M / 2 ^ (f - E).
Proof.
  intros f E M Hf. pose proof (ndigits_bounds mx) as [Hlo _]. pose proof (ndigits_pos mx).
  assert (HfD : f = ndigits mx + ex - prec) by (subst f; unfold SpecFloat.fexp in *; lia).
  assert (HpE : 0 < 2 ^ (ex - E)) by (apply Z.pow_pos_nonneg; lia).
  assert (Hpf : 0 < 2 ^ (f - E)) by (apply Z.pow_pos_nonneg; lia).
  apply Z.div_le_lower_bound; [lia |].
  rewrite <- Z.pow_add_r by lia.
  replace (f - E + (prec - 1)) with ((ndigits mx - 1) + (ex - E)) by lia.
  rewrite Z.pow_add_r by lia. subst M. nia.
Qed.

(** [binary_round] gives a float of the format. *)
Lemma binary_round_valid s mx ex :
  valid_binary prec emax (binary_round prec emax s mx ex) = true.
Proof.
  destruct (binary_round_exact prec emax s mx ex) as (m1 & Hm1 & Hres). cbv zeta in *.
  pose proof (first_quotient_digits mx ex) as Hq. cbv zeta in Hq.
  set (f := fexp (ndigits mx + ex)) in *. set (E := Z.min ex f) in *.
  set (M := Z.pos mx * 2 ^ (ex - E)) in *.
  assert (HpE : 0 < 2 ^ (ex - E)) by (apply Z.pow_pos_nonneg; lia).
  assert (Hpf : 0 < 2 ^ (f - E)) by (apply Z.pow_pos_nonneg; lia).
  assert (Hq0 : 0 <= M / 2 ^ (f - E)) by (apply Z.div_pos; subst M; lia).
  assert (Hm1q : M / 2 ^ (f - E) <= m1) by (destruct Hm1 as [-> | [-> _]]; lia).
  rewrite Hres.
  destruct m1 as [|p1|p1]; [| | lia].
  { rewrite Z.div_0_l by (apply Z.pow_nonzero; cbn [Zdigits2]; lia). reflexivity. }
  cbn [Zdigits2]. fold (ndigits p1).
  set (e2 := Z.max f (fexp (ndigits p1 + f))).
  assert (Hpe : 0 < 2 ^ (e2 - f)) by (apply Z.pow_pos_nonneg; subst e2; lia).
  destruct (Z.pos p1 / 2 ^ (e2 - f)) as [|m|m] eqn:Hd; [reflexivity | |].
  2:{ assert (0 <= Z.pos p1 / 2 ^ (e2 - f)) by (apply Z.div_pos; lia). lia. }
  destruct (Z.leb_spec e2 (emax - prec)) as [Hle | Hgt]; [| reflexivity].
  cbn [valid_binary]. unfold bounded. apply andb_true_intro. split; [| apply Z.leb_le; exact Hle].
  unfold canonical_mantissa. apply Z.eqb_eq. fold (ndigits m).
  assert (HDm : ndigits m = ndigits p1 - (e2 - f)).
  { apply ndigits_div; [subst e2; lia | symmetry; exact Hd]. }
  rewrite HDm. replace (ndigits p1 - (e2 - f) + e2) with (ndigits p1 + f) by lia.
  destruct (Z.eq_dec e2 f) as [He | He]; [| subst e2; lia].
  rewrite He. apply Z.le_antisymm; [subst e2; lia |].
  destruct (Z.eq_dec f emin) as [Hfe | Hfe].
  - rewrite Hfe at 1. apply fexp_ge_emin.
  - assert (Hfm : emin < f) by (pose proof (fexp_ge_emin prec emax (ndigits mx + ex)); subst f; lia).
    specialize (Hq Hfm).
    assert (prec - 1 + 1 <= ndigits p1) by (apply ndigits_ge_pow; lia).
    subst f. unfold SpecFloat.fexp in *. lia.
Qed.

Lemma binary_normalize_valid m e szero :
  valid_binary prec emax (binary_normalize prec emax m e szero) = true.
Proof. destruct m; [reflexivity | apply binary_round_valid ..]. Qed.

(** [binary_round] gives a finite, nonzero float when the number is not
    below the least exponent and has room under the largest. *)
Lemma binary_round_finite s mx ex :
  2 <= emax -> emin <= ex -> ndigits mx + ex + 1 <= emax ->
  exists m e, binary_round prec emax s mx ex = S754_finite s m e.
Proof.
  intros Hemax Hex Hroom.
  destruct (binary_round_exact prec emax s mx ex) as (m1 & Hm1 & Hres). cbv zeta in *.
  pose proof (first_quotient_digits mx ex) as Hq. cbv zeta in Hq.
  pose proof (fexp_ge_emin prec emax (ndigits mx + ex)) as Hemin.
  pose proof (ndigits_bounds mx) as [_ Hhi]. pose proof (ndigits_pos mx).
  set (f := fexp (ndigits mx + ex)) in *. set (E := Z.min ex f) in *.
  set (M := Z.pos mx * 2 ^ (ex - E)) in *.
  assert (HpE : 0 < 2 ^ (ex - E)) by (apply Z.pow_pos_nonneg; lia).
  assert (Hpf : 0 < 2 ^ (f - E)) by (apply Z.pow_pos_nonneg; lia).
  assert (HM0 : 0 < M) by (subst M; lia).
  assert (Hfle : f <= ndigits mx + ex - 1) by (subst f; unfold SpecFloat.fexp in *; lia).
  assert (Hq0 : 0 < M / 2 ^ (f - E)).
  { destruct (Z.eq_dec f emin) as [Hfe | Hfe].
    - assert (HE : E = f) by lia. rewrite HE, Z.sub_diag, Z.div_1_r. exact HM0.
    - assert (0 < 2 ^ (prec - 1)) by (apply Z.pow_pos_nonneg; lia).
      specialize (Hq ltac:(lia)). lia. }
  assert (Hqhi : M / 2 ^ (f - E) < 2 ^ (ndigits mx + ex - f)).
  { apply Z.div_lt_upper_bound; [lia |]. rewrite <- Z.pow_add_r by lia.
    replace (f - E + (ndigits mx + ex - f)) with (ndigits mx + (ex - E)) by lia.
    rewrite Z.pow_add_r by lia. subst M. nia. }
  assert (Hm1q : M / 2 ^ (f - E) <= m1 <= M / 2 ^ (f - E) + 1)
    by (destruct Hm1 as [-> | [-> _]]; lia).
  destruct m1 as [|p1|p1]; [lia | | lia].
  cbn [Zdigits2] in Hres. fold (ndigits p1) in Hres.
  pose proof (second_shift_pos prec emax Hprec p1 f Hemin) as Hpos. cbv zeta in Hpos.
  assert (HDp : ndigits p1 <= ndigits mx + ex - f + 1).
  { apply ndigits_lt_pow. rewrite Z.pow_add_r by lia. change (2 ^ 1) with 2. lia. }
  set (e2 := Z.max f (fexp (ndigits p1 + f))) in *.
  assert (He2 : e2 <= emax - prec).
  { subst e2 f. unfold SpecFloat.fexp, SpecFloat.emin in *. lia. }
  destruct (Z.pos p1 / 2 ^ (e2 - f)) as [|m|m]; [lia | | lia].
  destruct (Z.leb_spec e2 (emax - prec)); [| lia].
  eauto.
Qed.

End Valid.

(** ** The math library: range with a step that is not positive *)

Section RangeDivergence.

Lemma dprec_pos : 0 < dprec.
Proof. reflexivity. Qed.

(** A [long] converts to a [double] of the format. *)
Lemma of_long_valid i : valid_binary dprec demax (of_long i) = true.
Proof. apply binary_normalize_valid. exact dprec_pos. Qed.

(** A positive [long] converts to a positive finite [double]. *)
Lemma of_long_positive i :
  1 <= i <= LONG_MAX -> exists m e, of_long i = S754_finite false m e.
Proof.
  intros Hi. destruct i as [|p|p]; [lia | | lia].
  unfold of_long. cbn [binary_normalize].
  apply binary_round_finite; [exact dprec_pos | unfold demax; lia | unfold emin, dprec, demax; lia |].
  assert (ndigits p <= 63) by (apply ndigits_lt_pow; unfold LONG_MAX in Hi; lia).
  unfold demax. lia.
Qed.

Lemma FLOATVAL_valid v :
  isnum v = true -> double_of_format v -> valid_binary dprec demax (FLOATVAL v) = true.
Proof.
  intros Hnum Hv. destruct v; try discriminate; cbn [FLOATVAL].
  - apply of_long_valid.
  - apply Hv. reflexivity.
Qed.

(** Each further term of the sequence is [<= end_]. *)
Lemma range_next_term begin end_ step i :
  valid_binary dprec demax begin = true ->
  begin <> S754_infinity false ->
  SFleb begin end_ = true ->
  SFleb step (S754_zero false) = true ->
  1 <= i <= LONG_MAX ->
  SFleb (dadd begin (dmul step (of_long i))) end_ = true.
Proof.
  intros Hvalid Hinf Hle Hstep Hi.
  destruct (of_long_positive i Hi) as (m & e & ->).
  apply SFleb_trans with (y := begin); [| exact Hle].
  apply SFadd_nonpositive_le; [exact dprec_pos | exact Hvalid | | exact Hinf |].
  - intros ->. discriminate.
  - apply SFmul_nonpositive. apply nonpositive_iff. exact Hstep.
Qed.

(** The loop of the three-argument form with [begin <= end_] and
    [step <= 0] does not leave: it is still running after any number of
    turns, up to the overflow of its index. *)
Lemma range_float_loop_runs begin end_ step :
  valid_binary dprec demax begin = true ->
  begin <> S754_infinity false ->
  SFleb begin end_ = true ->
  SFleb step (S754_zero false) = true ->
  forall fuel i x range,
    0 <= i <= LONG_MAX ->
    SFleb x end_ = true ->
    range_float_loop fuel begin end_ step i x range
    = if i + Z.of_nat fuel <=? LONG_MAX then OutOfFuel else Undefined.
Proof.
  intros Hvalid Hinf Hle Hstep.
  induction fuel as [|fuel IH]; intros i x range Hi Hx; cbn [range_float_loop]; rewrite Hx.
  - destruct (Z.leb_spec (i + Z.of_nat 0) LONG_MAX); [reflexivity | lia].
  - destruct (Z.gtb_spec (i + 1) LONG_MAX) as [Hover | Hroom].
    + destruct (Z.leb_spec (i + Z.of_nat (S fuel)) LONG_MAX); [lia | reflexivity].
    + rewrite IH; [| lia | apply range_next_term; auto; lia].
      replace (i + 1 + Z.of_nat fuel) with (i + Z.of_nat (S fuel)) by lia. reflexivity.
Qed.

(** The three-argument form never fails on numbers, whatever the step. *)
Lemma range_three_numbers fuel slot a0 a1 a2 r :
  isnum a0 = true -> isnum a1 = true -> isnum a2 = true ->
  rtlb_range fuel slot [a0; a1; a2] = Ret r ->
  exists range,
    range_float_loop fuel (FLOATVAL a0) (FLOATVAL a1) (FLOATVAL a2) 0 (FLOATVAL a0) []
    = Ret range /\
    r = done_ok (Array range).
Proof.
  intros H0 H1 H2. unfold rtlb_range. cbn [forallb]. rewrite H0, H1, H2. cbn [andb negb].
  destruct a0; try discriminate; destruct a1; try discriminate;
    destruct a2; try discriminate;
    (destruct (range_float_loop _ _ _ _ _ _ _) as [range | |];
     intros Hr; inversion Hr; eauto).
Qed.

Lemma range_three_running fuel slot a0 a1 a2 :
  isnum a0 = true -> isnum a1 = true -> isnum a2 = true ->
  range_float_loop fuel (FLOATVAL a0) (FLOATVAL a1) (FLOATVAL a2) 0 (FLOATVAL a0) []
  = OutOfFuel ->
  rtlb_range fuel slot [a0; a1; a2] = OutOfFuel.
Proof.
  intros H0 H1 H2 Hrun. unfold rtlb_range. cbn [forallb]. rewrite H0, H1, H2.
  cbn [andb negb].
  destruct a0; try discriminate; destruct a1; try discriminate;
    destruct a2; try discriminate; rewrite Hrun; reflexivity.
Qed.

(** C10, as the code has it.  The three-argument form of [range] does not
    look at the step: on three numbers it never returns an error.  For
    every [a <= b] and every [step <= 0] ([step = 0] included), where [a]
    is anything but [+infinity], every term [a + step * i] is [<= b], so
    the loop never leaves: no number of turns makes [range(a, b, step)]
    return, and after any number of turns within the range of the [long]
    index the loop is still running. *)
Theorem range_nonpositive_step_never_returns (slot a0 a1 a2 : SpnValue) :
  isnum a0 = true -> isnum a1 = true -> isnum a2 = true ->
  double_of_format a0 ->
  FLOATVAL a0 <> S754_infinity false ->
  SFleb (FLOATVAL a0) (FLOATVAL a1) = true ->
  SFleb (FLOATVAL a2) (S754_zero false) = true ->
  (forall fuel r, rtlb_range fuel slot [a0; a1; a2] <> Ret r) /\
  (forall fuel, Z.of_nat fuel <= LONG_MAX ->
                rtlb_range fuel slot [a0; a1; a2] = OutOfFuel) /\
  (forall step fuel r,
      isnum step = true ->
      rtlb_range fuel slot [a0; a1; step] = Ret r -> status r = 0).
Proof.
  intros H0 H1 H2 Hfmt Hinf Hle Hstep.
  assert (Hrun : forall fuel,
             range_float_loop fuel (FLOATVAL a0) (FLOATVAL a1) (FLOATVAL a2) 0
                              (FLOATVAL a0) []
             = if Z.of_nat fuel <=? LONG_MAX then OutOfFuel else Undefined).
  { intros fuel.
    rewrite (range_float_loop_runs (FLOATVAL a0) (FLOATVAL a1) (FLOATVAL a2)
               (FLOATVAL_valid a0 H0 Hfmt) Hinf Hle Hstep fuel 0 (FLOATVAL a0) []);
      [reflexivity | unfold LONG_MAX; lia | exact Hle]. }
  repeat apply conj.
  - intros fuel r Hr.
    destruct (range_three_numbers fuel slot a0 a1 a2 r H0 H1 H2 Hr) as (range & Hloop & _).
    rewrite Hrun in Hloop. destruct (Z.of_nat fuel <=? LONG_MAX); discriminate.
  - intros fuel Hfuel. apply range_three_running; try assumption.
    rewrite Hrun. destruct (Z.leb_spec (Z.of_nat fuel) LONG_MAX); [reflexivity | lia].
  - intros step fuel r Hs Hr.
    destruct (range_three_numbers fuel slot a0 a1 step r H0 H1 Hs Hr) as (range & _ & ->).
    reflexivity.
Qed.

End RangeDivergence.

(** [range(0, 1, 0)]: after a thousand turns the loop is still running. *)
Lemma range_nonpositive_step_never_returns_witness :
  rtlb_range 1000 Nil [Int 0; Int 1; Int 0] = OutOfFuel.
Proof.
  apply (proj1 (proj2 (range_nonpositive_step_never_returns
                         Nil (Int 0) (Int 1) (Int 0)
                         eq_refl eq_refl eq_refl
                         (fun f (H : Int 0 = Float f) => False_ind _ (eq_ind (Int 0)
                            (fun v => match v with Int _ => True | _ => False end)
                            I (Float f) H))
                         (fun H : FLOATVAL (Int 0) = S754_infinity false =>
                            eq_ind (S754_zero false)
                              (fun x => match x with S754_zero _ => True | _ => False end)
                              I (S754_infinity false) H)
                         eq_refl eq_refl))).
  vm_compute. discriminate.
Defined.

(** From [+infinity] the loop does leave: [+infinity <= +infinity], the
    step [-infinity] is [<= 0], and the second term, [+infinity] plus
    [-infinity], is a NaN, which is not [<=] anything. *)
Lemma range_from_infinity_returns :
  SFleb (S754_infinity false) (S754_infinity false) = true /\
  SFleb (S754_infinity true) (S754_zero false) = true /\
  dadd (S754_infinity false) (dmul (S754_infinity true) (of_long 1)) = S754_nan /\
  rtlb_range 2 Nil [Float (S754_infinity false); Float (S754_infinity false);
                    Float (S754_infinity true)]
  = Ret (done_ok (Array [Float (S754_infinity false)])).
Proof. repeat split. Qed.

(** The same with a finite step, the least [double]: its double is
    [-infinity]. *)
Example range_from_infinity_finite_step :
  valid_binary dprec demax (S754_finite true (2 ^ 53 - 1) 971) = true /\
  rtlb_range 3 Nil [Float (S754_infinity false); Float (S754_infinity false);
                    Float (S754_finite true (2 ^ 53 - 1) 971)]
  = Ret (done_ok (Array [Float (S754_infinity false); Float (S754_infinity false)])).
Proof. split; vm_compute; reflexivity. Qed.

(** [range(3, 10, -1)] and [range(-0, 0, -infinity)] run on as well. *)
Example range_negative_steps :
  rtlb_range 1000 Nil [Int 3; Int 10; Int (-1)] = OutOfFuel /\
  rtlb_range 1000 Nil [Float (S754_zero true); Int 0; Float (S754_infinity true)] = OutOfFuel.
Proof. split; vm_compute; reflexivity. Qed.

(** ** The string library: find, substrings, repeat, format *)

Section FindFacts.

Implicit Types (haystack needle : SpnString).

Lemma strstr_at hay needle t :
  strstr hay needle = Some t ->
  take (List.length needle) (drop t hay) = needle.
Proof.
  intros Ht. destruct (strstr_Some _ _ Ht) as [He Hle].
  rewrite He at 1. rewrite drop_app_length' by (rewrite length_take; lia).
  rewrite take_app_length. reflexivity.
Qed.

(** An occurrence inside the bytes before the first NUL is an occurrence
    inside the C string. *)
Lemma c_str_take s n : (n <= List.length (c_str s))%nat -> take n (c_str s) = take n s.
Proof.
  revert n. induction s as [|c s IH]; intros n; cbn; [reflexivity |].
  destruct (is_nul c); cbn.
  - intros Hn. replace n with 0%nat by lia. reflexivity.
  - destruct n as [|n]; [reflexivity |]. intros Hn. cbn. rewrite IH by lia. reflexivity.
Qed.

Lemma c_str_length s : (List.length (c_str s) <= List.length s)%nat.
Proof.
  destruct (c_str_prefix s) as [tail H]. rewrite H at 2. rewrite length_app. lia.
Qed.

Lemma take_drop_commute_at {A} (l : list A) (n j : nat) :
  take n (drop j l) = drop j (take (j + n) l).
Proof. rewrite take_drop_commute. reflexivity. Qed.

(** What [strstr] returns on the C string behind a buffer, in terms of
    the buffer: the first position of the needle. *)
Lemma strstr_c_str_first rest needle t :
  strstr (c_str rest) needle = Some t ->
  (t + List.length needle <= List.length rest)%nat /\
  take (List.length needle) (drop t rest) = needle /\
  forall j, (j < t)%nat -> take (List.length needle) (drop j rest) <> needle.
Proof.
  intros Ht. pose proof (strstr_at _ _ _ Ht) as Hat.
  destruct (strstr_Some _ _ Ht) as [He Hle].
  pose proof (c_str_length rest) as Hlen.
  assert (Hsame : forall j, (j <= t)%nat ->
             take (List.length needle) (drop j (c_str rest))
             = take (List.length needle) (drop j rest)).
  { intros j Hj. rewrite !take_drop_commute_at.
    rewrite (c_str_take rest (j + List.length needle)) by lia. reflexivity. }
  split; [lia |]. split.
  - rewrite <- Hsame by lia. exact Hat.
  - intros j Hj Hocc. rewrite <- Hsame in Hocc by lia.
    assert (Hin : c_str rest = take j (c_str rest) ++ needle
                               ++ drop (List.length needle) (drop j (c_str rest))).
    { rewrite <- (take_drop j (c_str rest)) at 1. f_equal.
      rewrite <- (take_drop (List.length needle) (drop j (c_str rest))) at 1.
      rewrite Hocc. reflexivity. }
    pose proof (@strstr_first _ _ _ _ _ Ht Hin) as Hfirst.
    rewrite length_take in Hfirst. lia.
Qed.

(** [find(haystack, needle, off)] counts a negative offset from the end of
    the haystack and fails when the offset, so normalized, is outside
    [0, length]; otherwise it returns the first position at or after the
    offset where the needle is (as C strings see both), or -1; for a
    haystack without a NUL byte, -1 means that the needle is nowhere from
    the offset on.  Without an offset the search starts at 0. *)
Theorem str_find_first_occurrence (slot : SpnValue) (haystack needle : SpnString)
        (off : Z) :
  let len := Z.of_nat (List.length haystack) in
  let o := if off <? 0 then len + off else off in
  let n := c_str needle in
  let r := rtlb_str_find slot [String haystack; String needle; Int off] in
  rtlb_str_find slot [String haystack; String needle]
  = rtlb_str_find slot [String haystack; String needle; Int 0] /\
  (o < 0 \/ len < o -> r = raise (-4) slot "normalized index out of bounds" []) /\
  (0 <= o <= len ->
   exists i,
     r = done_ok (Int i) /\
     (i = -1 \/
      (o <= i /\ i + Z.of_nat (List.length n) <= len /\
       take (List.length n) (drop (Z.to_nat i) haystack) = n /\
       forall j, o <= j < i ->
                 take (List.length n) (drop (Z.to_nat j) haystack) <> n)) /\
     (i = -1 -> nul_free haystack = true ->
      ~ occurs_in n (drop (Z.to_nat o) haystack))).
Proof.
  intros len o n r. subst r. cbn [rtlb_str_find]. unfold str_find_from.
  fold len. fold o. fold n.
  split; [reflexivity |]. split.
  - intros Hout.
    destruct (Z.ltb_spec o 0), (Z.gtb_spec o len); cbn [orb]; try reflexivity; lia.
  - intros Hin.
    destruct (Z.ltb_spec o 0); [lia |]. destruct (Z.gtb_spec o len); [lia |]. cbn [orb].
    destruct (strstr (c_str (drop (Z.to_nat o) haystack)) n) as [t|] eqn:Ht.
    + exists (o + Z.of_nat t). split; [reflexivity |].
      destruct (strstr_c_str_first _ _ _ Ht) as (Hle & Hat & Hfirst).
      rewrite length_drop in Hle. rewrite drop_drop in Hat.
      split; [right | lia].
      split; [lia |]. split; [subst len; lia |]. split.
      * replace (Z.to_nat (o + Z.of_nat t)) with (Z.to_nat o + t)%nat by lia. exact Hat.
      * intros j Hj. specialize (Hfirst (Z.to_nat (j - o)) ltac:(lia)).
        rewrite drop_drop in Hfirst.
        replace (Z.to_nat o + Z.to_nat (j - o))%nat with (Z.to_nat j) in Hfirst by lia.
        exact Hfirst.
    + exists (-1). split; [reflexivity |]. split; [left; reflexivity |].
      intros _ Hfree. apply strstr_None.
      rewrite c_str_nul_free in Ht; [exact Ht |]. apply nul_free_drop. exact Hfree.
Qed.

End FindFacts.

(** [find("hello world", "o")] is 4, from 5 on it is 7, and from -3, which
    is 8, nothing is found. *)
Example str_find_examples :
  let s := String (list_ascii_of_string "hello world") in
  let o := String (list_ascii_of_string "o") in
  rtlb_str_find Nil [s; o] = done_ok (Int 4) /\
  rtlb_str_find Nil [s; o; Int 5] = done_ok (Int 7) /\
  rtlb_str_find Nil [s; o; Int (-3)] = done_ok (Int (-1)) /\
  rtlb_str_find Nil [s; o; Int 12] = raise (-4) Nil "normalized index out of bounds" [].
Proof. repeat split. Qed.

Section SubstringFacts.

(** [substrto(s, i)] and [substrfrom(s, i)] cut [s] at [i]: for
    [0 <= i <= length s] they return the first [i] bytes and the rest, which
    put together are [s]; they are [substr(s, 0, i)] and
    [substr(s, i, length s - i)].  For any other [i] both fail and leave the
    slot alone.  ([substrfrom] computes [length s - i] as a [long]; the
    statement is for an [i] where that fits.) *)
Theorem substrto_substrfrom_cut (slot : SpnValue) (s : SpnString) (i : Z) :
  let len := Z.of_nat (List.length s) in
  rtlb_substrto slot [String s; Int i] = rtlb_substr slot [String s; Int 0; Int i] /\
  (len - i <= LONG_MAX ->
   rtlb_substrfrom slot [String s; Int i]
   = Ret (rtlb_substr slot [String s; Int i; Int (len - i)])) /\
  (0 <= i <= len ->
   len - i <= LONG_MAX ->
   exists front back,
     rtlb_substrto slot [String s; Int i] = done_ok (String front) /\
     rtlb_substrfrom slot [String s; Int i] = Ret (done_ok (String back)) /\
     front ++ back = s /\ Z.of_nat (List.length front) = i) /\
  (i < 0 \/ len < i ->
   len - i <= LONG_MAX ->
   exists r r',
     rtlb_substrto slot [String s; Int i] = r /\
     rtlb_substrfrom slot [String s; Int i] = Ret r' /\
     status r < 0 /\ status r' < 0 /\ ret r = slot /\ ret r' = slot).
Proof.
  intros len. cbn [rtlb_substrto rtlb_substrfrom rtlb_substr]. fold len.
  split; [reflexivity |]. split.
  { intros Hl. destruct (Z.gtb_spec (len - i) LONG_MAX); [lia | reflexivity]. }
  split.
  - intros Hi Hmax. exists (take (Z.to_nat i) s), (drop (Z.to_nat i) s).
    destruct (Z.gtb_spec (len - i) LONG_MAX); [lia |].
    unfold rtlb_aux_substr. fold len.
    repeat match goal with
           | |- context [Z.ltb ?a ?b] => destruct (Z.ltb_spec a b); try lia
           | |- context [Z.gtb ?a ?b] => destruct (Z.gtb_spec a b); try lia
           end.
    cbn [orb]. unfold makestring_nocopy_len. cbn [Z.to_nat drop].
    split; [reflexivity |]. split.
    + rewrite take_ge by (rewrite length_drop; lia). reflexivity.
    + split; [apply take_drop |]. rewrite length_take. lia.
  - intros Hi Hl. destruct (Z.gtb_spec (len - i) LONG_MAX); [lia |].
    eexists _, _. split; [reflexivity |]. split; [reflexivity |].
    unfold rtlb_aux_substr. fold len.
    repeat match goal with
           | |- context [Z.ltb ?a ?b] => destruct (Z.ltb_spec a b); try lia
           | |- context [Z.gtb ?a ?b] => destruct (Z.gtb_spec a b); try lia
           end; cbn; repeat split; lia.
Qed.

End SubstringFacts.

Example substrto_substrfrom_examples :
  let s := String (list_ascii_of_string "sparkling") in
  rtlb_substrto Nil [s; Int 5] = done_ok (String (list_ascii_of_string "spark")) /\
  rtlb_substrfrom Nil [s; Int 5] = Ret (done_ok (String (list_ascii_of_string "ling"))) /\
  rtlb_substrfrom Nil [s; Int 10]
  = Ret (raise (-1) Nil "starting index is negative or too high" []) /\
  rtlb_substrfrom Nil [s; Int LONG_MIN] = Undefined.
Proof. repeat split. Qed.

Section RepeatFacts.

Lemma repeat_loop_app n str buf :
  repeat_loop n str buf = buf ++ repeat_loop n str [].
Proof.
  revert buf. induction n as [|n IH]; intros buf; cbn [repeat_loop].
  - rewrite app_nil_r. reflexivity.
  - rewrite IH. rewrite (IH ([] ++ str)). cbn. rewrite app_assoc. reflexivity.
Qed.

Lemma repeat_loop_add n m str :
  repeat_loop (n + m) str [] = repeat_loop n str [] ++ repeat_loop m str [].
Proof.
  induction n as [|n IH]; cbn [repeat_loop Nat.add]; [reflexivity |].
  rewrite (repeat_loop_app (n + m) str ([] ++ str)), (repeat_loop_app n str ([] ++ str)), IH.
  rewrite app_assoc. reflexivity.
Qed.

Lemma repeat_loop_length n str :
  List.length (repeat_loop n str []) = (n * List.length str)%nat.
Proof.
  induction n as [|n IH]; cbn [repeat_loop]; [reflexivity |].
  rewrite repeat_loop_app, length_app, IH. cbn. lia.
Qed.

(** [repeat(s, n)] fails for a negative [n].  Otherwise the result has
    [n] times the bytes of [s]: none for 0, [s] itself for 1, and
    [repeat(s, n + m)] is [repeat(s, n)] followed by [repeat(s, m)].  (The
    size of the buffer is computed in [size_t]; the statement is for sizes
    that fit.) *)
Theorem repeat_adds_up (slot : SpnValue) (s : SpnString) (n m : Z) :
  0 <= n -> 0 <= m ->
  Z.of_nat (List.length s) * (n + m) + 1 <= SIZE_MAX ->
  (forall k, k < 0 ->
     rtlb_repeat slot [String s; Int k]
     = Ret (raise (-3) slot "second argument must not be negative" [])) /\
  rtlb_repeat slot [String s; Int 0] = Ret (done_ok (String [])) /\
  (Z.of_nat (List.length s) + 1 <= SIZE_MAX ->
   rtlb_repeat slot [String s; Int 1] = Ret (done_ok (String s))) /\
  exists rn rm,
    rtlb_repeat slot [String s; Int n] = Ret (done_ok (String rn)) /\
    rtlb_repeat slot [String s; Int m] = Ret (done_ok (String rm)) /\
    rtlb_repeat slot [String s; Int (n + m)] = Ret (done_ok (String (rn ++ rm))) /\
    Z.of_nat (List.length rn) = n * Z.of_nat (List.length s).
Proof.
  intros Hn Hm Hsize. cbn [rtlb_repeat]. unfold makestring_nocopy_len.
  assert (H0 : 0 <= Z.of_nat (List.length s)) by lia.
  split.
  { intros k Hk. destruct (Z.ltb_spec k 0); [reflexivity | lia]. }
  split.
  { cbn. destruct (Z.gtb_spec (Z.of_nat (List.length s) * 0 + 1) SIZE_MAX) as [H | H];
      [unfold SIZE_MAX in H; lia | reflexivity]. }
  split.
  { intros H1. cbn [Z.ltb Z.compare].
    destruct (Z.gtb_spec (Z.of_nat (List.length s) * 1 + 1) SIZE_MAX); [lia |].
    cbn. reflexivity. }
  exists (repeat_loop (Z.to_nat n) s []), (repeat_loop (Z.to_nat m) s []).
  destruct (Z.ltb_spec n 0); [lia |]. destruct (Z.ltb_spec m 0); [lia |].
  destruct (Z.ltb_spec (n + m) 0); [lia |].
  destruct (Z.gtb_spec (Z.of_nat (List.length s) * n + 1) SIZE_MAX); [nia |].
  destruct (Z.gtb_spec (Z.of_nat (List.length s) * m + 1) SIZE_MAX); [nia |].
  destruct (Z.gtb_spec (Z.of_nat (List.length s) * (n + m) + 1) SIZE_MAX); [lia |].
  split; [reflexivity |]. split; [reflexivity |]. split.
  - rewrite Z2Nat.inj_add by lia. rewrite repeat_loop_add. reflexivity.
  - rewrite repeat_loop_length. lia.
Qed.

End RepeatFacts.

(** [repeat("ab", 2)] and [repeat("ab", 1)] make [repeat("ab", 3)]. *)
Lemma repeat_adds_up_witness :
  rtlb_repeat Nil [String (list_ascii_of_string "ab"); Int 3]
  = Ret (done_ok (String (list_ascii_of_string "ababab"))).
Proof.
  destruct (repeat_adds_up Nil (list_ascii_of_string "ab") 2 1)
    as (_ & _ & _ & rn & rm & Hn & Hm & Hnm & _);
    [discriminate | discriminate | vm_compute; discriminate |].
  vm_compute in Hn, Hm. injection Hn as <-. injection Hm as <-. exact Hnm.
Defined.

Section FormatFacts.
Context `{F : FormatEngine}.

(** [printf] writes what [format] returns: on the same arguments both
    succeed or both fail with the same status and runtime error; when they
    succeed, [format] returns the expanded string and [printf] writes it,
    as a C string, and returns its length; when they fail, nothing is
    written and both leave the slot alone. *)
Theorem printf_writes_what_format_returns (stdout : list ascii) (slot : SpnValue)
        (argv : list SpnValue) :
  let f := rtlb_format slot argv in
  let p := fst (rtlb_printf stdout slot argv) in
  let out := snd (rtlb_printf stdout slot argv) in
  status p = status f /\ rterr p = rterr f /\
  (status f <> 0 -> ret f = slot /\ ret p = slot /\ out = stdout) /\
  (status f = 0 ->
   exists res,
     ret f = String res /\ ret p = Int (Z.of_nat (List.length res)) /\
     out = stdout ++ c_str res).
Proof.
  unfold rtlb_format, rtlb_printf.
  destruct argv as [|a0 rest]; [cbn; repeat split; try discriminate; auto |].
  destruct a0; try (cbn; repeat split; try discriminate; auto; fail).
  destruct (spn_string_format_obj s rest) as [res | e]; cbn.
  - repeat split; try congruence. intros _. exists res. repeat split.
  - repeat split; try discriminate; auto.
Qed.

End FormatFacts.

(** ** The array library: slice, reverse, swap, find *)

Section SliceFacts.
Context `{V : ValueOps}.

Implicit Types (arr a : list SpnValue).

Lemma slice_loop_spec n arr idx :
  0 <= idx ->
  forall i result,
    0 <= i ->
    idx + i + Z.of_nat n <= spn_array_count arr ->
    slice_loop n arr idx i result
    = result ++ take n (drop (Z.to_nat (idx + i)) arr).
Proof.
  intros Hidx. unfold spn_array_count.
  induction n as [|n IH]; intros i result Hi Hle; cbn [slice_loop].
  - rewrite take_0, app_nil_r. reflexivity.
  - rewrite IH by lia. rewrite <- app_assoc. f_equal. cbn [app].
    assert (Hget : arr !! Z.to_nat (idx + i) = Some (spn_array_get arr (idx + i)))
      by (apply array_get_lookup; unfold spn_array_count; lia).
    rewrite (drop_S _ _ _ Hget). cbn [take].
    replace (Z.to_nat (idx + (i + 1))) with (S (Z.to_nat (idx + i))) by lia.
    reflexivity.
Qed.

(** [slice(a, idx, len)] succeeds exactly when [0 <= idx <= count],
    [0 <= len] and [idx + len <= count], and then returns the [len]
    elements from [idx] on.  An index outside [0..count] fails with -5, a
    negative length with -6, and a range that ends beyond the array with
    -7, each with the slot left alone; the end of the range is the sum
    [idx + len] of two [long]s, and when that sum is above [LONG_MAX] the
    call has no defined result.  The whole array is [slice(a, 0, count)],
    and the two slices on either side of an index, given to [concat], make
    the array again.  (The count of the array is a [long].) *)
Theorem slice_segment (slot : SpnValue) (arr : list SpnValue) (idx len : Z) :
  let n := spn_array_count arr in
  n <= LONG_MAX ->
  (0 <= idx <= n /\ 0 <= len /\ idx + len <= n ->
   rtlb_slice slot [Array arr; Int idx; Int len]
   = Ret (done_ok (Array (take (Z.to_nat len) (drop (Z.to_nat idx) arr))))) /\
  (~ (0 <= idx <= n) ->
   rtlb_slice slot [Array arr; Int idx; Int len]
   = Ret (raise (-5) slot "starting index %d is out of bounds for array of length %d"
                [ArgInt idx; ArgInt n])) /\
  (0 <= idx <= n -> len < 0 ->
   rtlb_slice slot [Array arr; Int idx; Int len]
   = Ret (raise (-6) slot "length was negative (%d)" [ArgInt len])) /\
  (0 <= idx <= n -> 0 <= len -> n < idx + len <= LONG_MAX ->
   rtlb_slice slot [Array arr; Int idx; Int len]
   = Ret (raise (-7) slot "range [%d, %d) out of bounds for array of size %d"
                [ArgInt idx; ArgInt (idx + len); ArgInt n])) /\
  (0 <= idx <= n -> 0 <= len -> LONG_MAX < idx + len ->
   rtlb_slice slot [Array arr; Int idx; Int len] = Undefined) /\
  rtlb_slice slot [Array arr; Int 0; Int n] = Ret (done_ok (Array arr)) /\
  (0 <= idx <= n ->
   exists front back,
     rtlb_slice slot [Array arr; Int 0; Int idx] = Ret (done_ok (Array front)) /\
     rtlb_slice slot [Array arr; Int idx; Int (n - idx)] = Ret (done_ok (Array back)) /\
     rtlb_concat slot [Array front; Array back] = inl (done_ok (Array arr))).
Proof.
  intros n Hn.
  assert (Hok : forall i l,
             0 <= i <= n -> 0 <= l -> i + l <= n ->
             rtlb_slice slot [Array arr; Int i; Int l]
             = Ret (done_ok (Array (take (Z.to_nat l) (drop (Z.to_nat i) arr))))).
  { intros i l Hi Hl Hil. cbn [rtlb_slice]. fold n.
    destruct (Z.ltb_spec i 0); [lia |]. destruct (Z.gtb_spec i n); [lia |]. cbn [orb].
    destruct (Z.ltb_spec l 0); [lia |].
    destruct (Z.gtb_spec (i + l) LONG_MAX); [lia |].
    destruct (Z.gtb_spec (i + l) n); [lia |].
    rewrite slice_loop_spec by (fold n; lia). cbn [app].
    replace (i + 0) with i by lia. reflexivity. }
  assert (H0 : 0 <= n) by (subst n; unfold spn_array_count; lia).
  split; [intros (Hi & Hl & Hil); apply Hok; assumption |].
  split.
  { intros Hbad. cbn [rtlb_slice]. fold n.
    destruct (Z.ltb_spec idx 0); [reflexivity |].
    destruct (Z.gtb_spec idx n); [reflexivity | lia]. }
  split.
  { intros Hi Hl. cbn [rtlb_slice]. fold n.
    destruct (Z.ltb_spec idx 0); [lia |]. destruct (Z.gtb_spec idx n); [lia |]. cbn [orb].
    destruct (Z.ltb_spec len 0); [reflexivity | lia]. }
  split.
  { intros Hi Hl Hend. cbn [rtlb_slice]. fold n.
    destruct (Z.ltb_spec idx 0); [lia |]. destruct (Z.gtb_spec idx n); [lia |]. cbn [orb].
    destruct (Z.ltb_spec len 0); [lia |].
    destruct (Z.gtb_spec (idx + len) LONG_MAX); [lia |].
    destruct (Z.gtb_spec (idx + len) n); [reflexivity | lia]. }
  split.
  { intros Hi Hl Hend. cbn [rtlb_slice]. fold n.
    destruct (Z.ltb_spec idx 0); [lia |]. destruct (Z.gtb_spec idx n); [lia |]. cbn [orb].
    destruct (Z.ltb_spec len 0); [lia |].
    destruct (Z.gtb_spec (idx + len) LONG_MAX); [reflexivity | lia]. }
  split.
  { rewrite Hok by lia. change (Z.to_nat 0) with 0%nat. rewrite drop_0.
    rewrite take_ge; [reflexivity |]. subst n. unfold spn_array_count. lia. }
  intros Hi. eexists _, _.
  split; [apply Hok; lia |]. split; [apply Hok; lia |].
  change (Z.to_nat 0) with 0%nat. rewrite drop_0. cbn [rtlb_concat concat_loop app].
  rewrite (take_ge (drop (Z.to_nat idx) arr))
    by (rewrite length_drop; subst n; unfold spn_array_count; lia).
  rewrite take_drop. reflexivity.
Qed.

End SliceFacts.

Section SliceOnSample.
Import Sample.

(** The middle of a five-element array. *)
Lemma slice_segment_witness :
  rtlb_slice Nil [Array [Int 1; Int 2; Int 3; Int 4; Int 5]; Int 1; Int 3]
  = Ret (done_ok (Array [Int 2; Int 3; Int 4])).
Proof.
  apply (proj1 (slice_segment Nil [Int 1; Int 2; Int 3; Int 4; Int 5] 1 3
                  ltac:(vm_compute; discriminate)));
    vm_compute; repeat split; discriminate.
Defined.

(** A range whose end is beyond [LONG_MAX]. *)
Example slice_end_overflows :
  rtlb_slice Nil [Array [Int 1; Int 2]; Int 1; Int LONG_MAX] = Undefined.
Proof. reflexivity. Qed.

End SliceOnSample.

Section ReverseFacts.

Implicit Types (arr a : list SpnValue).

Lemma reverse_loop_spec i arr :
  (i <= List.length arr)%nat ->
  forall result, reverse_loop i arr result = result ++ rev (take i arr).
Proof.
  induction i as [|i IH]; intros Hi result; cbn [reverse_loop].
  - rewrite take_0. cbn. rewrite app_nil_r. reflexivity.
  - rewrite IH by lia.
    assert (Hget : arr !! i = Some (spn_array_get arr (Z.of_nat i))).
    { rewrite <- (Nat2Z.id i) at 1. apply array_get_lookup.
      unfold spn_array_count. lia. }
    rewrite (take_S_r _ _ _ Hget), rev_app_distr. cbn.
    rewrite <- app_assoc. reflexivity.
Qed.

(** [reverse(a)] returns a new array with the elements of [a] in the
    opposite order: as many elements, the one at [i] being the one at
    [count - 1 - i] of [a]; reversing the result gives [a] back. *)
Theorem reverse_involutive (slot : SpnValue) (a : list SpnValue) :
  exists b,
    rtlb_reverse slot [Array a] = done_ok (Array b) /\
    rtlb_reverse slot [Array b] = done_ok (Array a) /\
    spn_array_count b = spn_array_count a /\
    forall i, 0 <= i < spn_array_count a ->
              spn_array_get b i = spn_array_get a (spn_array_count a - 1 - i).
Proof.
  assert (Hrev : forall l, rtlb_reverse slot [Array l] = done_ok (Array (rev l))).
  { intros l. cbn [rtlb_reverse]. rewrite reverse_loop_spec by lia.
    rewrite take_ge by lia. reflexivity. }
  exists (rev a). rewrite !Hrev, rev_involutive.
  unfold spn_array_count, spn_array_get. rewrite length_rev.
  repeat split. intros i Hi.
  rewrite rev_nth by lia. f_equal. lia.
Qed.

End ReverseFacts.

Section SwapFacts.

Implicit Types (a : list SpnValue) (i j k : Z).

(** Two arrays with the same elements at the same indices are the same. *)
Lemma array_ext a b :
  spn_array_count a = spn_array_count b ->
  (forall k, 0 <= k < spn_array_count a -> spn_array_get a k = spn_array_get b k) ->
  a = b.
Proof.
  unfold spn_array_count, spn_array_get. intros Hlen Hget.
  apply (nth_ext a b Nil Nil); [lia |].
  intros n Hn. specialize (Hget (Z.of_nat n) ltac:(lia)).
  rewrite Nat2Z.id in Hget. exact Hget.
Qed.

Lemma swap_permutation a i j :
  0 <= i < spn_array_count a -> 0 <= j < spn_array_count a ->
  rtlb_aux_swap a i j ≡ₚ a.
Proof.
  intros Hi Hj. unfold rtlb_aux_swap, spn_array_set.
  apply Permutation_insert_swap; apply array_get_lookup; assumption.
Qed.

Lemma swap_swap a i j :
  0 <= i < spn_array_count a -> 0 <= j < spn_array_count a ->
  rtlb_aux_swap (rtlb_aux_swap a i j) i j = a.
Proof.
  intros Hi Hj. apply array_ext; [rewrite !array_count_swap; reflexivity |].
  rewrite !array_count_swap. intros k Hk.
  destruct (Z.eq_dec k j) as [-> | Hkj].
  - rewrite array_get_swap_right by (rewrite array_count_swap; lia).
    rewrite array_get_swap_left by lia. reflexivity.
  - destruct (Z.eq_dec k i) as [-> | Hki].
    + rewrite array_get_swap_left by (rewrite array_count_swap; lia).
      rewrite array_get_swap_right by lia. reflexivity.
    + rewrite !array_get_swap_other by lia. reflexivity.
Qed.

(** [swap(a, i, j)] with both indices inside the array exchanges the
    elements at [i] and [j] in place and touches nothing else: the array
    keeps its elements, and the same call again puts it back as it was.
    With an index outside, the call fails, names that index (the first one
    if both are outside) and leaves the array as it is. *)
Theorem swap_exchanges (slot : SpnValue) (a : list SpnValue) (i j : Z) :
  let n := spn_array_count a in
  (0 <= i < n -> 0 <= j < n ->
   exists a',
     rtlb_swap slot [Array a; Int i; Int j] = inr (mkInPlace (done_ok slot) a') /\
     a' ≡ₚ a /\
     spn_array_get a' i = spn_array_get a j /\
     spn_array_get a' j = spn_array_get a i /\
     (forall k, 0 <= k -> k <> i -> k <> j -> spn_array_get a' k = spn_array_get a k) /\
     rtlb_swap slot [Array a'; Int i; Int j] = inr (mkInPlace (done_ok slot) a)) /\
  (~ (0 <= i < n /\ 0 <= j < n) ->
   exists bad,
     rtlb_swap slot [Array a; Int i; Int j]
     = inr (mkInPlace (raise (-3) slot "index %d is out of bounds for array of size %d"
                             [ArgInt bad; ArgInt n]) a) /\
     ~ (0 <= bad < n) /\
     (bad = i \/ (bad = j /\ 0 <= i < n))).
Proof.
  intros n.
  assert (Hin : forall b, spn_array_count b = n -> 0 <= i < n -> 0 <= j < n ->
                rtlb_swap slot [Array b; Int i; Int j]
                = inr (mkInPlace (done_ok slot) (rtlb_aux_swap b i j))).
  { intros b Hb Hi Hj. cbn [rtlb_swap]. unfold swap_in. rewrite Hb.
    destruct (Z.ltb_spec i 0); [lia |]. destruct (Z.geb_spec i n); [lia |].
    destruct (Z.ltb_spec j 0); [lia |]. destruct (Z.geb_spec j n); [lia |].
    reflexivity. }
  split.
  - intros Hi Hj. exists (rtlb_aux_swap a i j).
    split; [apply Hin; auto |].
    split; [apply swap_permutation; assumption |].
    split; [apply array_get_swap_left; assumption |].
    split; [apply array_get_swap_right; assumption |].
    split; [intros k Hk Hki Hkj; apply array_get_swap_other; lia |].
    rewrite Hin by (rewrite ?array_count_swap; auto).
    rewrite swap_swap by assumption. reflexivity.
  - intros Hbad. cbn [rtlb_swap]. unfold swap_in. fold n.
    destruct (Z.ltb_spec i 0); cbn [orb].
    { exists i. split; [reflexivity |]. split; [lia | left; reflexivity]. }
    destruct (Z.geb_spec i n); cbn [orb].
    { exists i. split; [reflexivity |]. split; [lia | left; reflexivity]. }
    destruct (Z.ltb_spec j 0); cbn [orb].
    { exists j. split; [reflexivity |]. split; [lia | right; lia]. }
    destruct (Z.geb_spec j n); cbn [orb].
    { exists j. split; [reflexivity |]. split; [lia | right; lia]. }
    lia.
Qed.

End SwapFacts.

Section ArrayFindFacts.
Context `{E : ValueEq}.

Lemma arr_find_loop_spec n arr x :
  forall i,
    0 <= i ->
    let r := arr_find_loop n arr i x in
    (r = -1 /\
     forall k, i <= k < i + Z.of_nat n -> spn_value_equal (spn_array_get arr k) x = false) \/
    (i <= r < i + Z.of_nat n /\
     spn_value_equal (spn_array_get arr r) x = true /\
     forall k, i <= k < r -> spn_value_equal (spn_array_get arr k) x = false).
Proof.
  induction n as [|n IH]; intros i Hi; cbn [arr_find_loop].
  - left. split; [reflexivity | intros k Hk; lia].
  - destruct (spn_value_equal (spn_array_get arr i) x) eqn:Heq.
    + right. split; [lia |]. split; [exact Heq | intros k Hk; lia].
    + destruct (IH (i + 1) ltac:(lia)) as [[Hr Hnone] | (Hr & Hfound & Hnone)].
      * left. split; [exact Hr |]. intros k Hk.
        destruct (Z.eq_dec k i) as [-> | Hne]; [exact Heq | apply Hnone; lia].
      * right. split; [lia |]. split; [exact Hfound |]. intros k Hk.
        destruct (Z.eq_dec k i) as [-> | Hne]; [exact Heq | apply Hnone; lia].
Qed.

(** [find(a, x)] on an array returns the index of the first element
    equal to [x], or -1 when no element is equal to [x]; it never fails on
    an array. *)
Theorem arr_find_first (slot : SpnValue) (a : list SpnValue) (x : SpnValue) :
  exists r,
    rtlb_arr_find slot [Array a; x] = done_ok (Int r) /\
    ((r = -1 /\
      forall k, 0 <= k < spn_array_count a ->
                spn_value_equal (spn_array_get a k) x = false) \/
     (0 <= r < spn_array_count a /\
      spn_value_equal (spn_array_get a r) x = true /\
      forall k, 0 <= k < r -> spn_value_equal (spn_array_get a k) x = false)).
Proof.
  eexists. split; [reflexivity |].
  exact (arr_find_loop_spec (List.length a) a x 0 ltac:(lia)).
Qed.

End ArrayFindFacts.

Section PushPopFacts.

Implicit Types (a : list SpnValue).

(** [push] appends in place; on the array it leaves, [last] returns the
    value pushed and [pop] returns it and takes it off again, so the array
    is as before.  On the empty array [pop] and [last] fail and leave the
    slot and the array alone; on any other array [pop] returns what [last]
    returns and makes the array one shorter. *)
Theorem pop_undoes_push (slot slot' : SpnValue) (a : list SpnValue) (x : SpnValue) :
  (exists a',
     rtlb_push slot [Array a; x] = inr (mkInPlace (done_ok slot) a') /\
     spn_array_count a' = spn_array_count a + 1 /\
     rtlb_last slot' [Array a'] = done_ok x /\
     rtlb_pop slot' [Array a'] = inr (mkInPlace (done_ok x) a)) /\
  rtlb_pop slot [Array []]
  = inr (mkInPlace (raise (-3) slot "cannot pop() empty array" []) []) /\
  rtlb_last slot [Array []]
  = raise (-3) slot "cannot get last element of empty array" [] /\
  (a <> [] ->
   exists y a',
     rtlb_last slot [Array a] = done_ok y /\
     rtlb_pop slot [Array a] = inr (mkInPlace (done_ok y) a') /\
     a = a' ++ [y]).
Proof.
  split; [| split; [reflexivity | split; [reflexivity |]]].
  - exists (a ++ [x]). cbn [rtlb_push rtlb_last rtlb_pop].
    unfold spn_array_push, spn_array_pop, spn_array_count, spn_array_get.
    rewrite length_app. cbn [List.length].
    destruct (Z.eqb_spec (Z.of_nat (List.length a + 1)) 0); [lia |].
    replace (Z.to_nat (Z.of_nat (List.length a + 1) - 1)) with (List.length a) by lia.
    rewrite app_nth2 by lia. rewrite Nat.sub_diag. cbn [nth].
    replace (List.length a + 1 - 1)%nat with (List.length a) by lia.
    rewrite take_app_length. repeat split. lia.
  - intros Hne. destruct (exists_last Hne) as (a' & y & ->).
    exists y, a'. cbn [rtlb_last rtlb_pop].
    unfold spn_array_pop, spn_array_count, spn_array_get.
    rewrite length_app. cbn [List.length].
    destruct (Z.eqb_spec (Z.of_nat (List.length a' + 1)) 0); [lia |].
    replace (Z.to_nat (Z.of_nat (List.length a' + 1) - 1)) with (List.length a') by lia.
    rewrite app_nth2 by lia. rewrite Nat.sub_diag. cbn [nth].
    replace (List.length a' + 1 - 1)%nat with (List.length a') by lia.
    rewrite take_app_length. repeat split.
Qed.

Lemma remove_insert (l1 l2 : list SpnValue) (x : SpnValue) :
  take (List.length l1) (l1 ++ x :: l2) ++ drop (S (List.length l1)) (l1 ++ x :: l2)
  = l1 ++ l2.
Proof.
  rewrite take_app_length. f_equal.
  rewrite (cons_middle x l1 l2), app_assoc.
  apply drop_app_length'. rewrite length_app. cbn. lia.
Qed.

(** [insert(a, x, i)] takes an index from 0 up to the size of the array
    (where it appends), [erase(a, i)] an index below the size; outside
    these bounds they fail with status -4 and leave the array as it is.
    After an insertion at [i] the element at [i] is [x], the array is one
    longer, and erasing at [i] gives the array as it was. *)
Theorem erase_undoes_insert (slot : SpnValue) (a : list SpnValue) (x : SpnValue) (i : Z) :
  let n := spn_array_count a in
  (0 <= i <= n ->
   exists a',
     rtlb_insert slot [Array a; x; Int i] = inr (mkInPlace (done_ok slot) a') /\
     spn_array_count a' = n + 1 /\
     spn_array_get a' i = x /\
     rtlb_erase slot [Array a'; Int i] = inr (mkInPlace (done_ok slot) a)) /\
  (i < 0 \/ n < i ->
   exists r, rtlb_insert slot [Array a; x; Int i] = inr (mkInPlace r a) /\
             status r = -4 /\ ret r = slot) /\
  (i < 0 \/ n <= i ->
   exists r, rtlb_erase slot [Array a; Int i] = inr (mkInPlace r a) /\
             status r = -4 /\ ret r = slot) /\
  rtlb_insert slot [Array a; x; Int n] = inr (mkInPlace (done_ok slot) (a ++ [x])).
Proof.
  intros n. assert (H0 : 0 <= n) by (subst n; unfold spn_array_count; lia).
  assert (Hins : forall k, 0 <= k <= n ->
             rtlb_insert slot [Array a; x; Int k]
             = inr (mkInPlace (done_ok slot) (spn_array_insert a k x))).
  { intros k Hk. cbn [rtlb_insert]. fold n.
    destruct (Z.ltb_spec k 0); [lia |]. destruct (Z.gtb_spec k n); [lia |]. reflexivity. }
  split; [| split; [| split]].
  - intros Hi. exists (spn_array_insert a i x). split; [apply Hins; exact Hi |].
    assert (Hlen : List.length (take (Z.to_nat i) a) = Z.to_nat i)
      by (rewrite length_take; subst n; unfold spn_array_count in *; lia).
    assert (Hcount : spn_array_count (spn_array_insert a i x) = n + 1).
    { unfold spn_array_insert, spn_array_count. rewrite length_app, Hlen. cbn [List.length].
      rewrite length_drop. subst n. unfold spn_array_count in *. lia. }
    split; [exact Hcount |]. split.
    + unfold spn_array_insert, spn_array_get.
      rewrite app_nth2 by lia. rewrite Hlen, Nat.sub_diag. reflexivity.
    + cbn [rtlb_erase]. rewrite Hcount.
      destruct (Z.ltb_spec i 0); [lia |]. destruct (Z.geb_spec i (n + 1)); [lia |].
      cbn [orb]. unfold spn_array_remove, spn_array_insert.
      pose proof (take_drop (Z.to_nat i) a) as Htd.
      set (l1 := take (Z.to_nat i) a) in *. set (l2 := drop (Z.to_nat i) a) in *.
      rewrite <- Hlen. rewrite remove_insert. rewrite Htd. reflexivity.
  - intros Hi. cbn [rtlb_insert]. fold n.
    destruct (Z.ltb_spec i 0); cbn [orb]; [eexists; repeat split |].
    destruct (Z.gtb_spec i n); [eexists; repeat split | lia].
  - intros Hi. cbn [rtlb_erase]. fold n.
    destruct (Z.ltb_spec i 0); cbn [orb]; [eexists; repeat split |].
    destruct (Z.geb_spec i n); [eexists; repeat split | lia].
  - rewrite Hins by lia. unfold spn_array_insert.
    rewrite take_ge, drop_ge by (subst n; unfold spn_array_count; lia). reflexivity.
Qed.

End PushPopFacts.

(** ** [concat] *)

Section ConcatFacts.
Context `{V : ValueOps}.

Lemma concat_loop_arrays (ls : list (list SpnValue)) :
  forall i result,
    concat_loop (map Array ls) i result = inl (done_ok (Array (result ++ concat ls))).
Proof.
  induction ls as [|l ls IH]; intros i result; cbn [map concat_loop concat].
  - rewrite app_nil_r. reflexivity.
  - rewrite IH, app_assoc. reflexivity.
Qed.

Lemma concat_loop_stops (ls : list (list SpnValue)) x rest :
  isarray x = false ->
  forall i result,
    concat_loop (map Array ls ++ x :: rest) i result
    = inr (mkDangling (-1)
             (Some (mkErr "arguments must be arrays (arg %i was %s)"
                          [ArgInt (i + Z.of_nat (List.length ls) + 1);
                           ArgStr (spn_type_name (type_of x))]))).
Proof.
  intros Hx. induction ls as [|l ls IH]; intros i result.
  - cbn [map app concat_loop List.length]. rewrite Z.add_0_r.
    destruct x; try reflexivity. discriminate.
  - cbn [map app concat_loop]. rewrite IH.
    cbn [List.length]. rewrite Nat2Z.inj_succ.
    replace (i + 1 + Z.of_nat (List.length ls) + 1)
      with (i + Z.succ (Z.of_nat (List.length ls)) + 1) by lia.
    reflexivity.
Qed.

(** [concat] of arrays returns the elements of the first, then those of
    the second, and so on; without arguments it returns the empty array.
    With an argument that is not an array it fails with -1 and names the
    first such argument, counted from 1, and its type; the new array has
    been released by then, and the slot is left referring to it: it holds
    no value. *)
Theorem concat_appends (slot : SpnValue) (ls : list (list SpnValue)) :
  rtlb_concat slot (map Array ls) = inl (done_ok (Array (concat ls))) /\
  (forall x rest,
      isarray x = false ->
      rtlb_concat slot (map Array ls ++ x :: rest)
      = inr (mkDangling (-1)
               (Some (mkErr "arguments must be arrays (arg %i was %s)"
                            [ArgInt (Z.of_nat (List.length ls) + 1);
                             ArgStr (spn_type_name (type_of x))])))).
Proof.
  unfold rtlb_concat. split.
  - apply concat_loop_arrays.
  - intros x rest Hx. apply (concat_loop_stops ls x rest Hx 0 []).
Qed.

End ConcatFacts.

(** ** The array library: the callables that call back *)

Section CallbackFacts.
Context `{M : Machine}.

Implicit Types (ctx : SpnContext) (a arr : list SpnValue) (f : SpnValue).

Lemma callfunc_computes f g ctx slot argv :
  computes f g ->
  spn_ctx_callfunc ctx f slot argv = (after_calls ctx 1, 0, g argv).
Proof. intros Hf. unfold spn_ctx_callfunc. rewrite Hf. reflexivity. Qed.

Lemma after_calls_again ctx n : after_calls (after_calls ctx 1) n = after_calls ctx (S n).
Proof. destruct n; reflexivity. Qed.

Lemma callfunc_fails f ctx slot argv :
  always_fails f ->
  exists ctx' code slot',
    spn_ctx_callfunc ctx f slot argv = (ctx', code, slot') /\
    code <> 0 /\ spn_ctx_geterrtype ctx' = SPN_ERROR_RUNTIME.
Proof.
  intros Hf. unfold spn_ctx_callfunc.
  specialize (Hf (set_errtype ctx SPN_ERROR_OK) slot argv).
  destruct (spn_vm_callfunc (set_errtype ctx SPN_ERROR_OK) f slot argv) as [[ctx' code] slot'].
  cbn in Hf. destruct (Z.eqb_spec code 0); [contradiction |].
  eexists _, _, _. split; [reflexivity |]. split; [assumption | reflexivity].
Qed.

(** The element at [i] heads what is left of the array from [i] on. *)
Lemma drop_array_get arr (i : Z) :
  0 <= i < spn_array_count arr ->
  drop (Z.to_nat i) arr = spn_array_get arr i :: drop (Z.to_nat (i + 1)) arr.
Proof.
  intros Hi. rewrite (drop_S _ _ _ (array_get_lookup arr Hi)).
  replace (Z.to_nat (i + 1)) with (S (Z.to_nat i)) by lia. reflexivity.
Qed.

Lemma map_loop_computes f g arr slot n :
  computes f g ->
  forall ctx i mapped,
    0 <= i -> i + Z.of_nat n = spn_array_count arr ->
    map_loop n ctx slot arr f i mapped
    = (after_calls ctx n,
       done_ok (Array (mapped ++ imap (fun k x => g [x; Int (i + Z.of_nat k)])
                                      (drop (Z.to_nat i) arr)))).
Proof.
  intros Hf. induction n as [|n IH]; intros ctx i mapped Hi Hn; cbn [map_loop].
  - rewrite drop_ge by (unfold spn_array_count in Hn; lia). cbn. rewrite app_nil_r.
    reflexivity.
  - rewrite (callfunc_computes _ _ _ _ _ Hf). cbn [Z.eqb negb].
    rewrite IH by lia. rewrite after_calls_again.
    rewrite (drop_array_get arr i) by lia. rewrite imap_cons.
    rewrite <- app_assoc. cbn [app]. unfold makeint.
    replace (i + Z.of_nat 0) with i by lia.
    assert (Hext : imap (fun k x => g [x; Int (i + 1 + Z.of_nat k)])
                        (drop (Z.to_nat (i + 1)) arr)
                   = imap ((fun k x => g [x; Int (i + Z.of_nat k)]) ∘ S)
                          (drop (Z.to_nat (i + 1)) arr)).
    { apply imap_ext. intros k x _. cbn.
      replace (i + 1 + Z.of_nat k) with (i + Z.pos (Pos.of_succ_nat k)) by lia.
      reflexivity. }
    rewrite Hext. reflexivity.
Qed.

Lemma filter_loop_computes f q arr slot n :
  computes f (fun argv => Bool (q argv)) ->
  forall ctx i filt,
    0 <= i -> i + Z.of_nat n = spn_array_count arr ->
    filter_loop n ctx slot arr f i filt
    = (after_calls ctx n,
       done_ok (Array (filt ++ concat (imap (fun k x => if q [x; Int (i + Z.of_nat k)]
                                                        then [x] else [])
                                            (drop (Z.to_nat i) arr))))).
Proof.
  intros Hf. induction n as [|n IH]; intros ctx i filt Hi Hn; cbn [filter_loop].
  - rewrite drop_ge by (unfold spn_array_count in Hn; lia). cbn. rewrite app_nil_r.
    reflexivity.
  - rewrite (callfunc_computes _ _ _ _ _ Hf). cbn [Z.eqb negb].
    rewrite IH by lia. rewrite after_calls_again.
    rewrite (drop_array_get arr i) by lia. rewrite imap_cons. cbn [concat].
    unfold makeint. replace (i + Z.of_nat 0) with i by lia.
    assert (Hext : imap (fun k x => if q [x; Int (i + 1 + Z.of_nat k)] then [x] else [])
                        (drop (Z.to_nat (i + 1)) arr)
                   = imap ((fun k x => if q [x; Int (i + Z.of_nat k)] then [x] else []) ∘ S)
                          (drop (Z.to_nat (i + 1)) arr)).
    { apply imap_ext. intros k x _. cbn.
      replace (i + 1 + Z.of_nat k) with (i + Z.pos (Pos.of_succ_nat k)) by lia.
      reflexivity. }
    rewrite Hext.
    destruct (q [spn_array_get arr i; Int i]); [rewrite <- app_assoc |]; reflexivity.
Qed.

Lemma reduce_loop_computes f g arr slot n :
  computes f g ->
  forall ctx i tmp,
    0 <= i -> i + Z.of_nat n = spn_array_count arr ->
    reduce_loop n ctx slot arr f i tmp
    = (after_calls ctx n,
       done_ok (fold_left (fun acc x => g [acc; x]) (drop (Z.to_nat i) arr) tmp)).
Proof.
  intros Hf. induction n as [|n IH]; intros ctx i tmp Hi Hn; cbn [reduce_loop].
  - rewrite drop_ge by (unfold spn_array_count in Hn; lia). reflexivity.
  - rewrite (callfunc_computes _ _ _ _ _ Hf). cbn [Z.eqb negb].
    rewrite IH by lia. rewrite after_calls_again.
    rewrite (drop_array_get arr i) by lia. reflexivity.
Qed.

Lemma anyall_loop_computes f q arr any n :
  computes f (fun argv => Bool (q argv)) ->
  forall ctx i,
    0 <= i -> i + Z.of_nat n = spn_array_count arr ->
    exists calls b,
      anyall_loop n ctx arr f i any = (after_calls ctx calls, done_ok (Bool b)) /\
      (b = negb any <->
       forall k, i <= k < spn_array_count arr ->
                 q [spn_array_get arr k; Int k] = negb any).
Proof.
  intros Hf. induction n as [|n IH]; intros ctx i Hi Hn; cbn [anyall_loop].
  - exists 0%nat, (negb any). split; [destruct any; reflexivity |].
    split; [intros _ k Hk; lia | reflexivity].
  - rewrite (callfunc_computes _ _ _ _ _ Hf). cbn [Z.eqb negb]. unfold makeint.
    destruct (q [spn_array_get arr i; Int i]) eqn:Hq, any; cbn [andb negb].
    + exists 1%nat, true. split; [reflexivity |]. split; [discriminate |].
      intros Hall. rewrite (Hall i) in Hq by lia. discriminate.
    + destruct (IH (after_calls ctx 1) (i + 1)) as (calls & b & Hrun & Hb); try lia.
      rewrite Hrun, after_calls_again. exists (S calls), b. split; [reflexivity |].
      rewrite Hb. split; intros Hall k Hk.
      * destruct (Z.eq_dec k i) as [-> | Hne]; [exact Hq | apply Hall; lia].
      * apply Hall. lia.
    + destruct (IH (after_calls ctx 1) (i + 1)) as (calls & b & Hrun & Hb); try lia.
      rewrite Hrun, after_calls_again. exists (S calls), b. split; [reflexivity |].
      rewrite Hb. split; intros Hall k Hk.
      * destruct (Z.eq_dec k i) as [-> | Hne]; [exact Hq | apply Hall; lia].
      * apply Hall. lia.
    + exists 1%nat, false. split; [reflexivity |]. split; [discriminate |].
      intros Hall. rewrite (Hall i) in Hq by lia. discriminate.
Qed.

Lemma pfind_loop_computes f q arr slot n :
  computes f (fun argv => Bool (q argv)) ->
  forall ctx i,
    0 <= i -> i + Z.of_nat n = spn_array_count arr ->
    exists calls r,
      pfind_loop n ctx slot arr f i = (after_calls ctx calls, done_ok (Int r)) /\
      ((r = -1 /\
        forall k, i <= k < spn_array_count arr -> q [spn_array_get arr k] = false) \/
       (i <= r < spn_array_count arr /\
        q [spn_array_get arr r] = true /\
        forall k, i <= k < r -> q [spn_array_get arr k] = false)).
Proof.
  intros Hf. induction n as [|n IH]; intros ctx i Hi Hn; cbn [pfind_loop].
  - exists 0%nat, (-1). split; [reflexivity |]. left. split; [reflexivity |].
    intros k Hk. lia.
  - rewrite (callfunc_computes _ _ _ _ _ Hf). cbn [Z.eqb negb]. unfold makeint.
    destruct (q [spn_array_get arr i]) eqn:Hq.
    + exists 1%nat, i. split; [reflexivity |]. right.
      split; [lia |]. split; [exact Hq | intros k Hk; lia].
    + destruct (IH (after_calls ctx 1) (i + 1)) as (calls & r & Hrun & Hr); try lia.
      rewrite Hrun, after_calls_again. exists (S calls), r. split; [reflexivity |].
      destruct Hr as [[Hr Hnone] | (Hr & Hfound & Hnone)].
      * left. split; [exact Hr |]. intros k Hk.
        destruct (Z.eq_dec k i) as [-> | Hne]; [exact Hq | apply Hnone; lia].
      * right. split; [lia |]. split; [exact Hfound |]. intros k Hk.
        destruct (Z.eq_dec k i) as [-> | Hne]; [exact Hq | apply Hnone; lia].
Qed.

Lemma filter_sublist (q : list SpnValue -> bool) a :
  forall z : Z,
    concat (imap (fun k x => if q [x; Int (z + Z.of_nat k)] then [x] else []) a)
    `sublist_of` a.
Proof.
  induction a as [|x a IH]; intros z; [constructor |].
  rewrite imap_cons. cbn [concat].
  assert (Htail : concat (imap ((fun k y => if q [y; Int (z + Z.of_nat k)]
                                           then [y] else []) ∘ S) a) `sublist_of` a).
  { specialize (IH (z + 1)).
    erewrite imap_ext; [exact IH |]. intros k y _. unfold compose.
    rewrite Nat2Z.inj_succ.
    replace (z + Z.succ (Z.of_nat k)) with (z + 1 + Z.of_nat k) by lia.
    reflexivity. }
  destruct (q [x; Int (z + Z.of_nat 0)]); cbn [app].
  - apply sublist_skip. exact Htail.
  - apply sublist_cons. exact Htail.
Qed.

(** [map(a, f)] with a function that computes [g] returns a new array of
    as many elements, the one at [i] being [g(a[i], i)].  [filter(a, p)]
    with a predicate that computes the Boolean [q] returns the elements
    [a[i]] with [q(a[i], i)], in the order they have in [a].
    [reduce(a, first, f)] folds [g] over [a] from the left, starting from
    [first], and returns [first] for an empty [a].  The calls leave the
    context as it is, but for the category, which each call resets. *)
Theorem map_filter_reduce_compute (ctx : SpnContext) (slot : SpnValue)
        (a : list SpnValue) (f p : SpnValue) (first : SpnValue)
        (g : list SpnValue -> SpnValue) (q : list SpnValue -> bool) :
  isfunc f = true -> isfunc p = true ->
  computes f g ->
  computes p (fun argv => Bool (q argv)) ->
  (exists b,
     rtlb_array_map ctx slot [Array a; f]
     = (after_calls ctx (List.length a), done_ok (Array b)) /\
     spn_array_count b = spn_array_count a /\
     forall i, 0 <= i < spn_array_count a ->
               spn_array_get b i = g [spn_array_get a i; Int i]) /\
  (exists b,
     rtlb_array_filter ctx slot [Array a; p]
     = (after_calls ctx (List.length a), done_ok (Array b)) /\
     b = concat (imap (fun k x => if q [x; Int (Z.of_nat k)] then [x] else []) a) /\
     b `sublist_of` a) /\
  rtlb_reduce ctx slot [Array a; first; f]
  = (after_calls ctx (List.length a),
     done_ok (fold_left (fun acc x => g [acc; x]) a first)).
Proof.
  intros Hff Hfp Hf Hp.
  assert (Hcount : 0 + Z.of_nat (List.length a) = spn_array_count a) by reflexivity.
  split; [| split].
  - unfold rtlb_array_map, with_array_and_function. rewrite Hff.
    rewrite (map_loop_computes f g a slot _ Hf ctx 0 []) by (lia || exact Hcount).
    eexists. split; [reflexivity |]. cbn [app Z.to_nat]. rewrite drop_0.
    unfold spn_array_count, spn_array_get. rewrite length_imap. split; [reflexivity |].
    intros i Hi. rewrite !nth_lookup, list_lookup_imap.
    destruct (a !! Z.to_nat i) as [x|] eqn:Hx.
    + cbn. rewrite Z.add_0_l, Z2Nat.id by lia. reflexivity.
    + apply lookup_ge_None in Hx. lia.
  - unfold rtlb_array_filter, with_array_and_function. rewrite Hfp.
    rewrite (filter_loop_computes p q a slot _ Hp ctx 0 []) by (lia || exact Hcount).
    eexists. split; [reflexivity |]. cbn [app Z.to_nat]. rewrite drop_0.
    split; [reflexivity |].
    erewrite imap_ext; [apply (filter_sublist q a 0) |].
    intros k x _. cbn. reflexivity.
  - unfold rtlb_reduce. rewrite Hff.
    rewrite (reduce_loop_computes f g a slot _ Hf ctx 0 first) by (lia || exact Hcount).
    cbn [Z.to_nat]. rewrite drop_0. reflexivity.
Qed.

(** [any(a, p)] and [all(a, p)] with a predicate that computes the
    Boolean [q] return a Boolean: [any] returns false exactly when [q] is
    false of every element with its index (so for the empty array), and
    [all] returns true exactly when [q] is true of every one.  [pfind(a, p)]
    returns the first index whose element satisfies the predicate, which it
    gives the element alone, or -1 when none does. *)
Theorem any_all_pfind_compute (ctx : SpnContext) (slot : SpnValue)
        (a : list SpnValue) (p : SpnValue) (q : list SpnValue -> bool) :
  isfunc p = true ->
  computes p (fun argv => Bool (q argv)) ->
  (exists calls b,
     rtlb_any ctx slot [Array a; p] = (after_calls ctx calls, done_ok (Bool b)) /\
     (b = false <->
      forall k, 0 <= k < spn_array_count a -> q [spn_array_get a k; Int k] = false)) /\
  (exists calls b,
     rtlb_all ctx slot [Array a; p] = (after_calls ctx calls, done_ok (Bool b)) /\
     (b = true <->
      forall k, 0 <= k < spn_array_count a -> q [spn_array_get a k; Int k] = true)) /\
  (exists calls r,
     rtlb_pfind ctx slot [Array a; p] = (after_calls ctx calls, done_ok (Int r)) /\
     ((r = -1 /\
       forall k, 0 <= k < spn_array_count a -> q [spn_array_get a k] = false) \/
      (0 <= r < spn_array_count a /\
       q [spn_array_get a r] = true /\
       forall k, 0 <= k < r -> q [spn_array_get a k] = false))).
Proof.
  intros Hfp Hp.
  assert (Hcount : 0 + Z.of_nat (List.length a) = spn_array_count a) by reflexivity.
  unfold rtlb_any, rtlb_all, rtlb_aux_anyall, rtlb_pfind, with_array_and_function.
  rewrite Hfp. split; [| split].
  - exact (anyall_loop_computes p q a true _ Hp ctx 0 ltac:(lia) Hcount).
  - exact (anyall_loop_computes p q a false _ Hp ctx 0 ltac:(lia) Hcount).
  - exact (pfind_loop_computes p q a slot _ Hp ctx 0 ltac:(lia) Hcount).
Qed.

(** A callback that fails makes [foreach], [map], [filter], [reduce] and
    [pfind] return -4 at its first call, with the slot as the caller left
    it and the category of the context Runtime; [any] and [all] return -4
    as well, but have written their default answer to the slot by then.  On
    the empty array the callback is not called and all of them succeed. *)
Theorem callback_failure_stops (ctx : SpnContext) (slot : SpnValue)
        (a : list SpnValue) (f : SpnValue) (first : SpnValue) :
  isfunc f = true ->
  always_fails f ->
  a <> [] ->
  (forall native,
      native = rtlb_array_foreach \/ native = rtlb_array_map \/
      native = rtlb_array_filter \/ native = rtlb_pfind ->
      exists ctx',
        native ctx slot [Array a; f] = (ctx', mkRes (-4) slot None) /\
        spn_ctx_geterrtype ctx' = SPN_ERROR_RUNTIME) /\
  (exists ctx',
      rtlb_reduce ctx slot [Array a; first; f] = (ctx', mkRes (-4) slot None) /\
      spn_ctx_geterrtype ctx' = SPN_ERROR_RUNTIME) /\
  (exists ctx',
      rtlb_any ctx slot [Array a; f] = (ctx', mkRes (-4) (Bool false) None) /\
      spn_ctx_geterrtype ctx' = SPN_ERROR_RUNTIME) /\
  (exists ctx',
      rtlb_all ctx slot [Array a; f] = (ctx', mkRes (-4) (Bool true) None) /\
      spn_ctx_geterrtype ctx' = SPN_ERROR_RUNTIME) /\
  rtlb_array_foreach ctx slot [Array []; f] = (ctx, done_ok slot) /\
  rtlb_array_map ctx slot [Array []; f] = (ctx, done_ok (Array [])) /\
  rtlb_array_filter ctx slot [Array []; f] = (ctx, done_ok (Array [])) /\
  rtlb_reduce ctx slot [Array []; first; f] = (ctx, done_ok first) /\
  rtlb_any ctx slot [Array []; f] = (ctx, done_ok (Bool false)) /\
  rtlb_all ctx slot [Array []; f] = (ctx, done_ok (Bool true)) /\
  rtlb_pfind ctx slot [Array []; f] = (ctx, done_ok (Int (-1))).
Proof.
  intros Hff Hfail Hne. destruct a as [|x a]; [contradiction |].
  repeat apply conj;
    try (intros native [-> | [-> | [-> | ->]]]);
    unfold rtlb_any, rtlb_all, rtlb_aux_anyall, rtlb_array_foreach, rtlb_array_map,
      rtlb_array_filter, rtlb_pfind, rtlb_reduce, with_array_and_function;
    rewrite Hff;
    cbn [List.length foreach_loop map_loop filter_loop pfind_loop reduce_loop anyall_loop];
    try reflexivity;
    match goal with
    | |- context [spn_ctx_callfunc ctx f ?s0 ?argv] =>
        destruct (callfunc_fails f ctx s0 argv Hfail) as (ctx' & code & v & -> & Hc & Ht);
        destruct (Z.eqb_spec code 0); [contradiction |];
        exists ctx'; split; [reflexivity | exact Ht]
    end.
Qed.

End CallbackFacts.

(** ** The array library: what the sort and the search achieve *)

Section WithinFacts.

Implicit Types (a b c : list SpnValue) (i j k left right : Z).

Lemma within_refl left right a : within left right a a.
Proof. repeat split; eauto. Qed.

Lemma within_trans left right a b c :
  within left right a b -> within left right b c -> within left right a c.
Proof.
  intros (Hc1 & Ho1 & Hi1) (Hc2 & Ho2 & Hi2). split; [congruence |]. split.
  - intros k Hk Hout. rewrite Ho2, Ho1 by assumption. reflexivity.
  - intros k Hk. destruct (Hi2 k Hk) as (k1 & Hk1 & ->). apply Hi1. exact Hk1.
Qed.

Lemma within_widen left right left' right' a b :
  0 <= left' <= left -> right <= right' ->
  within left right a b -> within left' right' a b.
Proof.
  intros Hl Hr (Hc & Ho & Hi). split; [exact Hc |]. split.
  - intros k Hk Hout. apply Ho; lia.
  - intros k Hk. destruct (Z_le_dec left k) as [Hlk | Hlk].
    + destruct (Z_le_dec k right) as [Hkr | Hkr].
      * destruct (Hi k ltac:(lia)) as (k' & Hk' & Heq). exists k'. split; [lia | exact Heq].
      * exists k. split; [lia |]. apply Ho; lia.
    + exists k. split; [lia |]. apply Ho; lia.
Qed.

Lemma within_swap left right a i j :
  0 <= left -> right < spn_array_count a ->
  left <= i <= right -> left <= j <= right ->
  within left right a (rtlb_aux_swap a i j).
Proof.
  intros Hl Hr Hi Hj. split; [apply array_count_swap |]. split.
  - intros k Hk Hout. apply array_get_swap_other; lia.
  - intros k Hk. destruct (Z.eq_dec k j) as [-> | Hkj].
    + exists i. split; [lia |]. apply array_get_swap_right; lia.
    + destruct (Z.eq_dec k i) as [-> | Hki].
      * exists j. split; [lia |]. apply array_get_swap_left; lia.
      * exists k. split; [lia |]. apply array_get_swap_other; lia.
Qed.

Lemma elem_of_array_get a x :
  x ∈ a -> exists k, 0 <= k < spn_array_count a /\ spn_array_get a k = x.
Proof.
  intros Hx. apply list_elem_of_lookup in Hx. destruct Hx as [n Hn].
  exists (Z.of_nat n). unfold spn_array_count, spn_array_get.
  pose proof (lookup_lt_Some _ _ _ Hn). split; [lia |].
  rewrite Nat2Z.id. rewrite nth_lookup, Hn. reflexivity.
Qed.

Lemma within_elem_of left right a b x :
  0 <= left -> right < spn_array_count a ->
  within left right a b -> x ∈ b -> x ∈ a.
Proof.
  intros Hl Hr (Hc & Ho & Hi) Hx.
  destruct (elem_of_array_get b x Hx) as (k & Hk & <-).
  destruct (Z_le_dec left k) as [Hlk | Hlk].
  - destruct (Z_le_dec k right) as [Hkr | Hkr].
    + destruct (Hi k ltac:(lia)) as (k' & Hk' & ->). apply array_get_elem. lia.
    + rewrite Ho by lia. apply array_get_elem. lia.
  - rewrite Ho by lia. apply array_get_elem. lia.
Qed.

End WithinFacts.

Section SortFacts.
Context `{M : Machine} {K : Callbacks} `{V : ValueOps}.

Implicit Types (st : SortState) (comp : option SpnValue) (a : list SpnValue).

Lemma inside_spec a i : inside a i = true <-> 0 <= i < spn_array_count a.
Proof. unfold inside. rewrite andb_true_iff, Z.leb_le, Z.ltb_lt. reflexivity. Qed.

Lemma inside_true a i : 0 <= i < spn_array_count a -> inside a i = true.
Proof. apply inside_spec. Qed.

Lemma permutation_count a b : a ≡ₚ b -> spn_array_count a = spn_array_count b.
Proof. intros Hp. unfold spn_array_count. rewrite (Permutation_length Hp). reflexivity. Qed.

(** *** A comparator that leaves the array alone *)

(** One turn of the loop of the partition, with a comparator that leaves
    the array alone: it stops on an error, or goes on after a swap, or
    goes on as it is. *)
Lemma partition_step n st i right store_idx pivot comp :
  tame comp ->
  0 <= store_idx <= i -> i < spn_array_count (st_arr st) ->
  exists st1,
    st_arr st1 = st_arr st /\
    ((exists e, partition_loop (S n) st i right store_idx pivot comp = (st1, PartError e)) \/
     partition_loop (S n) st i right store_idx pivot comp
     = partition_loop n (mkSort (st_ctx st1) (rtlb_aux_swap (st_arr st) i store_idx)
                                (st_calls st1))
                      (i + 1) right (store_idx + 1) pivot comp \/
     partition_loop (S n) st i right store_idx pivot comp
     = partition_loop n st1 (i + 1) right store_idx pivot comp).
Proof.
  intros Htame Hs Hi. cbn [partition_loop].
  rewrite (inside_true (st_arr st) i) by lia. cbn [negb].
  destruct comp as [f|].
  - rewrite (Htame (st_ctx st) _ (st_arr st)).
    destruct (spn_ctx_callfunc (st_ctx st) f spn_nilval
                [spn_array_get (st_arr st) i; pivot]) as [[ctx code] r].
    set (st1 := mkSort ctx (st_arr st)
                       (st_calls st ++ [mkCall (spn_array_get (st_arr st) i, pivot) code r])).
    exists st1. split; [reflexivity |].
    destruct (code =? 0); cbn [negb]; [| left; eexists; reflexivity].
    destruct r; try (left; eexists; reflexivity).
    destruct b.
    + right; left. cbn [st_arr st1].
      rewrite !inside_true by lia. reflexivity.
    + right; right. reflexivity.
  - exists st. split; [reflexivity |].
    destruct (spn_values_comparable (spn_array_get (st_arr st) i) pivot); cbn [negb];
      [| left; eexists; reflexivity].
    destruct (spn_value_compare (spn_array_get (st_arr st) i) pivot <? 0).
    + right; left. rewrite !inside_true by lia. destruct st; reflexivity.
    + right; right. reflexivity.
Qed.

(** The loop of the partition only swaps elements inside the array,
    and returns an index between [store_idx] and [right], or an error. *)
Lemma partition_loop_tame n :
  forall st i right store_idx pivot comp,
    tame comp ->
    Z.of_nat n = right - i ->
    0 <= store_idx <= i ->
    right < spn_array_count (st_arr st) ->
    forall st' res,
      partition_loop n st i right store_idx pivot comp = (st', res) ->
      st_arr st' ≡ₚ st_arr st /\
      match res with
      | PartIndex p => store_idx <= p <= right
      | PartError _ => True
      | PartNoReturn | PartOutside => False
      end.
Proof.
  induction n as [|n IH]; intros st i right store_idx pivot comp Htame Hn Hs Hr st' res.
  - cbn [partition_loop]. rewrite !inside_true by lia. cbn [andb].
    intros [= <- <-]. cbn [st_arr]. split; [apply swap_permutation; lia | lia].
  - destruct (partition_step n st i right store_idx pivot comp Htame Hs ltac:(lia))
      as (st1 & Harr & [[e ->] | [-> | ->]]).
    + intros [= <- <-]. rewrite Harr. split; [reflexivity | exact I].
    + intros Hrun. apply IH in Hrun; cbn [st_arr]; rewrite ?array_count_swap; try lia;
        [| exact Htame].
      cbn [st_arr] in Hrun. destruct Hrun as [Hp Hres]. split.
      * rewrite Hp. apply swap_permutation; lia.
      * destruct res; try exact Hres; lia.
    + intros Hrun. apply IH in Hrun; rewrite ?Harr; try lia; [| exact Htame].
      destruct Hrun as [Hp Hres]. split.
      * rewrite Hp, Harr. reflexivity.
      * destruct res; try exact Hres; lia.
Qed.

Lemma quot_half left right :
  left <= right -> 0 <= Z.quot (right - left) 2 <= right - left.
Proof.
  intros Hl. rewrite Z.quot_div_nonneg by lia. split; [apply Z.div_pos; lia |].
  apply Z.div_le_upper_bound; lia.
Qed.

Lemma partition_tame st left right comp :
  tame comp ->
  0 <= left < right ->
  right < spn_array_count (st_arr st) ->
  forall st' res,
    rtlb_aux_partition st left right comp = (st', res) ->
    st_arr st' ≡ₚ st_arr st /\
    match res with
    | PartIndex p => left <= p <= right
    | PartError _ => True
    | PartNoReturn | PartOutside => False
    end.
Proof.
  intros Htame Hl Hr st' res. unfold rtlb_aux_partition.
  pose proof (quot_half left right ltac:(lia)) as Hq.
  rewrite !inside_true by lia. cbn [andb]. intros Hrun.
  apply partition_loop_tame in Hrun; cbn [st_arr]; rewrite ?array_count_swap; try lia;
    [| exact Htame].
  cbn [st_arr] in Hrun. destruct Hrun as [Hp Hres]. split; [| exact Hres].
  rewrite Hp. apply swap_permutation; lia.
Qed.

(** With a comparator that leaves the array alone, or none, the sort
    returns, and it has only moved the elements of the array around. *)
Lemma qsort_tame fuel :
  forall st left right comp,
    tame comp ->
    0 <= left ->
    right < spn_array_count (st_arr st) ->
    right - left < Z.of_nat fuel ->
    exists st' code e,
      rtlb_aux_qsort fuel st left right comp = Ret (st', code, e) /\
      st_arr st' ≡ₚ st_arr st.
Proof.
  induction fuel as [|fuel IH]; intros st left right comp Htame Hl Hr Hf.
  - exists st, 0, None. cbn. destruct (Z.geb_spec left right); [auto | lia].
  - cbn [rtlb_aux_qsort]. destruct (Z.geb_spec left right) as [Hge | Hlt].
    { exists st, 0, None. auto. }
    destruct (rtlb_aux_partition st left right comp) as [st1 res] eqn:Hp.
    destruct (partition_tame st left right comp Htame ltac:(lia) Hr _ _ Hp) as (Hp1 & Hres).
    pose proof (permutation_count _ _ Hp1) as Hc1.
    destruct res as [e | p | |]; [exists st1, (-1), e; auto | | contradiction ..].
    destruct (IH st1 left (p - 1) comp Htame Hl ltac:(lia) ltac:(lia))
      as (st2 & code2 & e2 & Hrun2 & Hp2).
    pose proof (permutation_count _ _ Hp2) as Hc2.
    rewrite Hrun2. destruct (code2 =? 0); cbn [negb].
    + destruct (IH st2 (p + 1) right comp Htame ltac:(lia) ltac:(lia) ltac:(lia))
        as (st3 & code3 & e3 & Hrun3 & Hp3).
      rewrite Hrun3.
      destruct (code3 =? 0); cbn [negb]; eexists _, _, _; (split; [reflexivity |]);
        rewrite Hp3, Hp2; exact Hp1.
    + eexists _, _, _. split; [reflexivity |]. rewrite Hp2. exact Hp1.
Qed.

(** *** A comparator that does not return a Boolean *)

Lemma not_a_boolean_dec (calls : list CmpCall) :
  Exists not_a_boolean calls \/ ~ Exists not_a_boolean calls.
Proof.
  induction calls as [|c calls [IH | IH]].
  - right. intros Hx. inversion Hx.
  - left. apply Exists_cons_tl. exact IH.
  - destruct (Z.eq_dec (call_status c) 0) as [Hs | Hs];
      [destruct (isbool (call_ret c)) eqn:Hb |].
    + right. intros Hx. inversion Hx as [? ? [_ Hy] | ]; subst; [congruence | auto].
    + left. apply Exists_cons_hd. split; assumption.
    + right. intros Hx. inversion Hx as [? ? [Hy _] | ]; subst; [congruence | auto].
Qed.

(** Whatever the comparator does: when the loop of the partition ends
    with a call in its record that returned something other than a
    Boolean, that call is the last one and the loop has reported it. *)
Lemma partition_loop_calls n :
  forall st i right store_idx pivot comp st' res,
    ~ Exists not_a_boolean (st_calls st) ->
    partition_loop n st i right store_idx pivot comp = (st', res) ->
    Exists not_a_boolean (st_calls st') ->
    res = PartError (Some comparator_error) /\
    exists calls c, st_calls st' = calls ++ [c] /\ not_a_boolean c.
Proof.
  induction n as [|n IH]; intros st i right store_idx pivot comp st' res Hno;
    cbn [partition_loop].
  - destruct (inside (st_arr st) store_idx && inside (st_arr st) right);
      intros [= <- <-]; cbn; contradiction.
  - destruct (negb (inside (st_arr st) i)); [intros [= <- <-]; contradiction |].
    assert (Hgo : forall st1 (b : bool),
               ~ Exists not_a_boolean (st_calls st1) ->
               (if b then
                  if inside (st_arr st1) i && inside (st_arr st1) store_idx then
                    partition_loop n
                      (mkSort (st_ctx st1) (rtlb_aux_swap (st_arr st1) i store_idx)
                              (st_calls st1))
                      (i + 1) right (store_idx + 1) pivot comp
                  else (st1, PartOutside)
                else partition_loop n st1 (i + 1) right store_idx pivot comp) = (st', res) ->
               Exists not_a_boolean (st_calls st') ->
               res = PartError (Some comparator_error) /\
               exists calls c, st_calls st' = calls ++ [c] /\ not_a_boolean c).
    { intros st1 b Hno1. destruct b.
      - destruct (inside (st_arr st1) i && inside (st_arr st1) store_idx).
        + apply IH. exact Hno1.
        + intros [= <- <-]. contradiction.
      - apply IH. exact Hno1. }
    destruct comp as [f|].
    + destruct (array_after_call (st_ctx st) f _ (st_arr st)) as [arr|];
        [| intros [= <- <-]; contradiction].
      destruct (spn_ctx_callfunc (st_ctx st) f spn_nilval
                  [spn_array_get (st_arr st) i; pivot]) as [[ctx code] r].
      destruct (Z.eqb_spec code 0) as [-> | Hcode]; cbn [negb].
      * destruct r;
          try (intros [= <- <-]; cbn; intros _; split; [reflexivity |];
               eexists; eexists; split; [reflexivity | split; reflexivity]).
        apply Hgo. cbn [st_calls]. rewrite Exists_app. intros [Hx | Hx]; [contradiction |].
        inversion Hx as [? ? [_ Hy] | ? ? Hy]; subst; [discriminate | inversion Hy].
      * intros [= <- <-]. cbn. rewrite Exists_app. intros [Hx | Hx]; [contradiction |].
        inversion Hx as [? ? [Hy _] | ? ? Hy]; subst; [contradiction | inversion Hy].
    + destruct (spn_values_comparable (spn_array_get (st_arr st) i) pivot); cbn [negb].
      * apply Hgo. exact Hno.
      * intros [= <- <-]. contradiction.
Qed.

Lemma qsort_calls fuel :
  forall st left right comp st' code e,
    ~ Exists not_a_boolean (st_calls st) ->
    rtlb_aux_qsort fuel st left right comp = Ret (st', code, e) ->
    Exists not_a_boolean (st_calls st') ->
    code = -1 /\ e = Some comparator_error /\
    exists calls c, st_calls st' = calls ++ [c] /\ not_a_boolean c.
Proof.
  induction fuel as [|fuel IH]; intros st left right comp st' code e Hno;
    cbn [rtlb_aux_qsort]; destruct (left >=? right);
    try (intros [= <- <- <-]; contradiction); try discriminate.
  destruct (rtlb_aux_partition st left right comp) as [st1 res] eqn:Hp.
  unfold rtlb_aux_partition in Hp.
  assert (Hpart : Exists not_a_boolean (st_calls st1) ->
                  res = PartError (Some comparator_error) /\
                  exists calls c, st_calls st1 = calls ++ [c] /\ not_a_boolean c).
  { destruct (inside (st_arr st) _ && inside (st_arr st) right).
    - eapply partition_loop_calls; [| exact Hp]. exact Hno.
    - injection Hp as <- <-. contradiction. }
  destruct (not_a_boolean_dec (st_calls st1)) as [Hbad1 | Hno1].
  { destruct (Hpart Hbad1) as [-> Hlast]. intros [= <- <- <-]. auto. }
  destruct res as [e1 | p | |]; try discriminate.
  { intros [= <- <- <-]. contradiction. }
  destruct (rtlb_aux_qsort fuel st1 left (p - 1) comp) as [[[st2 code2] e2] | |] eqn:H2;
    try discriminate.
  destruct (not_a_boolean_dec (st_calls st2)) as [Hbad2 | Hno2].
  { destruct (IH _ _ _ _ _ _ _ Hno1 H2 Hbad2) as (-> & -> & Hlast). cbn.
    intros [= <- <- <-]. auto. }
  destruct (code2 =? 0); cbn [negb].
  - destruct (rtlb_aux_qsort fuel st2 (p + 1) right comp) as [[[st3 code3] e3] | |] eqn:H3;
      try discriminate.
    destruct (Z.eqb_spec code3 0) as [-> | Hc3]; cbn [negb].
    + intros [= <- <- <-] Hbad. destruct (IH _ _ _ _ _ _ _ Hno2 H3 Hbad). discriminate.
    + intros [= <- <- <-] Hbad. destruct (IH _ _ _ _ _ _ _ Hno2 H3 Hbad) as (_ & -> & Hlast).
      auto.
  - intros [= <- <- <-]. contradiction.
Qed.

(** *** The first partition *)

Lemma comparable_sym x y : spn_values_comparable x y = spn_values_comparable y x.
Proof. destruct x, y; reflexivity. Qed.

Lemma comparable_trans x y z :
  spn_values_comparable x y = true ->
  spn_values_comparable y z = true ->
  spn_values_comparable x z = true.
Proof. destruct x, y, z; cbn; congruence. Qed.

Lemma uncomparable_with_itself x z :
  spn_values_comparable x x = false -> spn_values_comparable z x = false.
Proof. destruct x, z; cbn; congruence. Qed.

(** The first partition moves the pivot to the end; every other element
    of the array is then at an index before the last. *)
Lemma before_the_pivot a k0 :
  let right := spn_array_count a - 1 in
  let pivot_idx := 0 + Z.quot (right - 0) 2 in
  0 <= k0 < spn_array_count a -> k0 <> pivot_idx ->
  0 <= pivot_idx < right /\
  exists k, 0 <= k < right /\
            spn_array_get (rtlb_aux_swap a pivot_idx right) k = spn_array_get a k0.
Proof.
  intros right pivot_idx Hk0 Hne.
  assert (Hr : 0 < right).
  { subst right pivot_idx. destruct (Z.eq_dec (spn_array_count a) 1) as [H1 | H1]; [| lia].
    rewrite H1 in Hne, Hk0. change (0 + Z.quot (1 - 1 - 0) 2) with 0 in Hne. lia. }
  assert (Hpi : 0 <= pivot_idx < right).
  { subst pivot_idx. rewrite Z.quot_div_nonneg by lia. split.
    - apply Z.add_nonneg_nonneg; [lia | apply Z.div_pos; lia].
    - cut ((right - 0) / 2 < right); [lia |]. apply Z.div_lt_upper_bound; lia. }
  split; [exact Hpi |].
  destruct (Z.eq_dec k0 right) as [-> | Hne'].
  - exists pivot_idx. split; [lia |].
    rewrite array_get_swap_left by (subst right; lia). reflexivity.
  - exists k0. split; [subst right; lia |].
    rewrite array_get_swap_other by lia. reflexivity.
Qed.

(** *** Uncomparable elements *)

(** Without a comparator, the loop of the partition stops at the first
    element from [i] on that cannot be compared with the pivot; the
    elements from [i] on are still where they were before the loop. *)
Lemma partition_loop_uncomparable n :
  forall st i right store_idx pivot a0,
    Z.of_nat n = right - i ->
    0 <= store_idx <= i ->
    right < spn_array_count (st_arr st) ->
    (forall k, i <= k < right -> spn_array_get (st_arr st) k = spn_array_get a0 k) ->
    (exists k, i <= k < right /\
               spn_values_comparable (spn_array_get a0 k) pivot = false) ->
    exists k,
      i <= k < right /\
      spn_values_comparable (spn_array_get a0 k) pivot = false /\
      exists st',
        partition_loop n st i right store_idx pivot None =
          (st', PartError (Some (uncomparable_error (spn_array_get a0 k) pivot))) /\
        st_calls st' = st_calls st.
Proof.
  induction n as [|n IH]; intros st i right store_idx pivot a0 Hn Hs Hr Hsame (k & Hk & Hun).
  - lia.
  - cbn [partition_loop]. rewrite (inside_true (st_arr st) i) by lia. cbn [negb].
    rewrite (Hsame i) by lia.
    destruct (spn_values_comparable (spn_array_get a0 i) pivot) eqn:Hc; cbn [negb].
    + assert (Hki : k <> i) by congruence.
      rewrite (inside_true (st_arr st) store_idx) by lia. cbn [andb].
      set (b := spn_value_compare (spn_array_get a0 i) pivot <? 0).
      set (st1 := if b then mkSort (st_ctx st) (rtlb_aux_swap (st_arr st) i store_idx)
                                   (st_calls st)
                  else st).
      set (s1 := if b then store_idx + 1 else store_idx).
      destruct (IH st1 (i + 1) right s1 pivot a0) as (k' & Hk' & Hun' & st' & Hrun & Hcalls).
      * lia.
      * subst s1. destruct b; lia.
      * subst st1. destruct b; cbn [st_arr]; rewrite ?array_count_swap; exact Hr.
      * intros j Hj. subst st1. destruct b; cbn [st_arr].
        -- rewrite array_get_swap_other by lia. apply Hsame. lia.
        -- apply Hsame. lia.
      * exists k. split; [lia | exact Hun].
      * exists k'. split; [lia |]. split; [exact Hun' |]. exists st'.
        subst st1 s1. destruct b; cbn in *; auto.
    + exists i. split; [lia |]. split; [exact Hc |]. exists st. auto.
Qed.

Lemma sort_uncomparable ctx slot a p q :
  0 <= p < spn_array_count a ->
  0 <= q < spn_array_count a ->
  p <> q ->
  spn_values_comparable (spn_array_get a p) (spn_array_get a q) = false ->
  exists st x y,
    x ∈ a /\ y ∈ a /\ spn_values_comparable x y = false /\
    rtlb_sort ctx slot [Array a] = Ret (st, mkRes (-1) slot (Some (uncomparable_error x y))).
Proof.
  intros Hp Hq Hpq Hun.
  set (right := spn_array_count a - 1).
  set (pivot_idx := 0 + Z.quot (right - 0) 2).
  set (pivot := spn_array_get a pivot_idx).
  (* an element other than the pivot that cannot be compared with it *)
  assert (Hk0 : exists k0, 0 <= k0 < spn_array_count a /\ k0 <> pivot_idx /\
                           spn_values_comparable (spn_array_get a k0) pivot = false).
  { destruct (spn_values_comparable pivot pivot) eqn:Hself.
    - destruct (spn_values_comparable (spn_array_get a p) pivot) eqn:Hpp.
      + exists q. split; [lia |].
        assert (Hqp : spn_values_comparable (spn_array_get a q) pivot = false).
        { destruct (spn_values_comparable (spn_array_get a q) pivot) eqn:Hqp; [| reflexivity].
          rewrite comparable_sym in Hqp.
          rewrite (comparable_trans _ _ _ Hpp Hqp) in Hun. discriminate. }
        split; [| exact Hqp]. intros ->. fold pivot in Hqp. congruence.
      + exists p. split; [lia |].
        split; [| exact Hpp]. intros ->. fold pivot in Hpp. congruence.
    - destruct (Z.eq_dec p pivot_idx) as [-> | Hne].
      + exists q. split; [lia |]. split; [congruence |].
        apply uncomparable_with_itself. exact Hself.
      + exists p. split; [lia |]. split; [exact Hne |].
        apply uncomparable_with_itself. exact Hself. }
  destruct Hk0 as (k0 & Hk0 & Hne & Hun0).
  destruct (before_the_pivot a k0 Hk0 Hne) as (Hpi & k1 & Hk1 & Hget1).
  fold right pivot_idx in Hpi, Hk1, Hget1.
  set (a0 := rtlb_aux_swap a pivot_idx right) in *.
  destruct (partition_loop_uncomparable (Z.to_nat (right - 0))
              (mkSort ctx a0 []) 0 right 0 pivot a0)
    as (k & Hkr & Hunk & st' & Hrun & _); cbn [st_arr]; try lia.
  { subst a0. rewrite array_count_swap. lia. }
  { auto. }
  { exists k1. split; [exact Hk1 |]. rewrite Hget1. exact Hun0. }
  exists st', (spn_array_get a0 k), pivot.
  split; [subst a0; eapply swap_elem_of; [| | apply array_get_elem; rewrite array_count_swap];
          subst right; lia |].
  split; [apply array_get_elem; subst right; lia |].
  split; [exact Hunk |].
  unfold rtlb_sort.
  assert (Hlen : exists f, List.length a = S f).
  { unfold spn_array_count in Hp. destruct a; cbn in *; [lia | eauto]. }
  destruct Hlen as [f Hlen]. rewrite Hlen. cbn [rtlb_aux_qsort].
  fold right. destruct (Z.geb_spec 0 right); [lia |].
  unfold rtlb_aux_partition. cbn [st_arr st_ctx st_calls].
  fold pivot_idx. rewrite !inside_true by (subst right; lia). cbn [andb].
  fold pivot. fold a0. rewrite Hrun. reflexivity.
Qed.

(** *** A comparator that answers with something other than a Boolean *)

Lemma callfunc_answers f g ctx x y :
  answers f g ->
  spn_ctx_callfunc ctx f spn_nilval [x; y] = (set_errtype ctx SPN_ERROR_OK, 0, g x y).
Proof. intros [_ Hf]. unfold spn_ctx_callfunc. rewrite Hf. reflexivity. Qed.

(** The loop of the partition stops at the first element from [i] on for
    which the comparator answers with something other than a Boolean. *)
Lemma partition_loop_not_boolean f g n :
  answers f g ->
  forall st i right store_idx pivot a0,
    Z.of_nat n = right - i ->
    0 <= store_idx <= i ->
    right < spn_array_count (st_arr st) ->
    (forall k, i <= k < right -> spn_array_get (st_arr st) k = spn_array_get a0 k) ->
    (exists k, i <= k < right /\ isbool (g (spn_array_get a0 k) pivot) = false) ->
    exists st',
      partition_loop n st i right store_idx pivot (Some f)
      = (st', PartError (Some comparator_error)) /\
      st_arr st' ≡ₚ st_arr st /\
      exists calls c, st_calls st' = calls ++ [c] /\ not_a_boolean c.
Proof.
  intros Hf.
  induction n as [|n IH]; intros st i right store_idx pivot a0 Hn Hs Hr Hsame (k & Hk & Hun).
  - lia.
  - cbn [partition_loop]. rewrite (inside_true (st_arr st) i) by lia. cbn [negb].
    rewrite (proj1 Hf (st_ctx st) _ (st_arr st)).
    rewrite (callfunc_answers f g _ _ _ Hf). cbn [Z.eqb negb].
    rewrite (Hsame i) by lia.
    destruct (isbool (g (spn_array_get a0 i) pivot)) eqn:Hb.
    + assert (Hki : k <> i) by congruence.
      destruct (g (spn_array_get a0 i) pivot) as [| b | | | | | | | |] eqn:Hg; try discriminate.
      cbn [st_arr andb]. rewrite !inside_true by lia. cbn [andb].
      set (calls1 := st_calls st ++ [mkCall (spn_array_get a0 i, pivot) 0 (Bool b)]).
      set (st1 := if b then mkSort (set_errtype (st_ctx st) SPN_ERROR_OK)
                                   (rtlb_aux_swap (st_arr st) i store_idx) calls1
                  else mkSort (set_errtype (st_ctx st) SPN_ERROR_OK) (st_arr st) calls1).
      set (s1 := if b then store_idx + 1 else store_idx).
      destruct (IH st1 (i + 1) right s1 pivot a0) as (st' & Hrun & Hperm & Hlast).
      * lia.
      * subst s1. destruct b; lia.
      * subst st1. destruct b; cbn [st_arr]; rewrite ?array_count_swap; exact Hr.
      * intros j Hj. subst st1. destruct b; cbn [st_arr].
        -- rewrite array_get_swap_other by lia. apply Hsame. lia.
        -- apply Hsame. lia.
      * exists k. split; [lia | exact Hun].
      * exists st'. subst st1 s1 calls1. destruct b; cbn [st_arr st_ctx st_calls] in *.
        -- split; [exact Hrun |]. split; [| exact Hlast].
           rewrite Hperm. apply swap_permutation; lia.
        -- split; [exact Hrun |]. split; [exact Hperm | exact Hlast].
    + destruct (g (spn_array_get a0 i) pivot); try discriminate;
        (eexists; split; [reflexivity |]; cbn [st_arr st_calls]; split; [reflexivity |];
         eexists _, _; split; [reflexivity |]; split; reflexivity).
Qed.

Lemma sort_not_boolean ctx slot a f g k0 :
  isfunc f = true ->
  answers f g ->
  0 <= k0 < spn_array_count a ->
  k0 <> Z.quot (spn_array_count a - 1) 2 ->
  isbool (g (spn_array_get a k0) (spn_array_get a (Z.quot (spn_array_count a - 1) 2)))
  = false ->
  exists st,
    rtlb_sort ctx slot [Array a; f] = Ret (st, mkRes (-1) slot (Some comparator_error)) /\
    st_arr st ≡ₚ a /\
    exists calls c, st_calls st = calls ++ [c] /\ not_a_boolean c.
Proof.
  intros Hfun Hf Hk0 Hne Hun0.
  set (right := spn_array_count a - 1).
  set (pivot_idx := 0 + Z.quot (right - 0) 2).
  assert (Hpidx : Z.quot (spn_array_count a - 1) 2 = pivot_idx).
  { subst pivot_idx right. rewrite Z.sub_0_r. reflexivity. }
  rewrite Hpidx in Hne, Hun0.
  set (pivot := spn_array_get a pivot_idx) in *.
  destruct (before_the_pivot a k0 Hk0 Hne) as (Hpi & k1 & Hk1 & Hget1).
  fold right pivot_idx in Hpi, Hk1, Hget1.
  set (a0 := rtlb_aux_swap a pivot_idx right) in *.
  destruct (partition_loop_not_boolean f g (Z.to_nat (right - 0)) Hf
              (mkSort ctx a0 []) 0 right 0 pivot a0)
    as (st' & Hrun & Hperm & Hlast); cbn [st_arr]; try lia.
  { subst a0. rewrite array_count_swap. lia. }
  { auto. }
  { exists k1. split; [exact Hk1 |]. rewrite Hget1. exact Hun0. }
  exists st'. split; [| split; [| exact Hlast]].
  - unfold rtlb_sort. rewrite Hfun.
    assert (Hlen : exists m, List.length a = S m).
    { unfold spn_array_count in Hk0. destruct a; cbn in *; [lia | eauto]. }
    destruct Hlen as [m Hlen]. rewrite Hlen. cbn [rtlb_aux_qsort].
    fold right. destruct (Z.geb_spec 0 right); [lia |].
    unfold rtlb_aux_partition. cbn [st_arr st_ctx st_calls].
    fold pivot_idx. rewrite !inside_true by (subst right; lia). cbn [andb].
    fold pivot. fold a0. rewrite Hrun. reflexivity.
  - cbn [st_arr] in Hperm. rewrite Hperm. subst a0.
    apply swap_permutation; subst right; lia.
Qed.

End SortFacts.

Section SortSorts.
Context `{M : Machine} {K : Callbacks} `{V : ValueOps}.
Variable base : list SpnValue.
Variable lt : SpnValue -> SpnValue -> bool.
Variable comp : option SpnValue.
Hypothesis Hdec : decided_by comp lt base.
Hypothesis Hord : strict_order lt base.

Implicit Types (st : SortState) (a : list SpnValue).

Lemma quiet_refl st : quiet comp st st.
Proof. intros _. auto. Qed.

Lemma quiet_trans st1 st2 st3 :
  quiet comp st1 st2 -> quiet comp st2 st3 -> quiet comp st1 st3.
Proof.
  intros H12 H23 Hc. destruct (H12 Hc) as [Ha Hb]. destruct (H23 Hc) as [Ha' Hb'].
  split; congruence.
Qed.

Lemma decided_tame : tame comp.
Proof. unfold decided_by in Hdec. destruct comp; [apply Hdec | exact I]. Qed.

(** One turn of the loop of the partition on elements the test decides:
    the element goes before the others exactly when it is below the
    pivot. *)
Lemma partition_step_decided n st i right store_idx pivot :
  0 <= store_idx <= i -> i < spn_array_count (st_arr st) ->
  spn_array_get (st_arr st) i ∈ base -> pivot ∈ base ->
  exists st1,
    st_arr st1 = st_arr st /\ quiet comp st st1 /\
    partition_loop (S n) st i right store_idx pivot comp
    = if lt (spn_array_get (st_arr st) i) pivot then
        partition_loop n (mkSort (st_ctx st1) (rtlb_aux_swap (st_arr st) i store_idx)
                                 (st_calls st1))
                       (i + 1) right (store_idx + 1) pivot comp
      else partition_loop n st1 (i + 1) right store_idx pivot comp.
Proof.
  intros Hs Hi Hith Hpivot. cbn [partition_loop].
  rewrite (inside_true (st_arr st) i) by lia. cbn [negb].
  unfold decided_by in Hdec. unfold quiet. destruct comp as [f|].
  - rewrite (proj1 Hdec (st_ctx st) _ (st_arr st)).
    rewrite (callfunc_answers f _ _ _ _ Hdec). cbn [Z.eqb negb].
    exists (mkSort (set_errtype (st_ctx st) SPN_ERROR_OK) (st_arr st)
                   (st_calls st ++ [mkCall (spn_array_get (st_arr st) i, pivot) 0
                                           (Bool (lt (spn_array_get (st_arr st) i) pivot))])).
    split; [reflexivity |]. split; [discriminate |].
    cbn [st_arr st_ctx st_calls].
    destruct (lt (spn_array_get (st_arr st) i) pivot); [| reflexivity].
    rewrite !inside_true by lia. reflexivity.
  - destruct (Hdec _ _ Hith Hpivot) as [-> ->]. cbn [negb].
    exists st. split; [reflexivity |]. split; [auto |].
    destruct (spn_value_compare (spn_array_get (st_arr st) i) pivot <? 0); [| reflexivity].
    rewrite !inside_true by lia. destruct st; reflexivity.
Qed.

(** The loop of the partition ends with the pivot at the index it
    returns, the elements below the pivot before it and the others after
    it. *)
Lemma partition_loop_sorts left n :
  forall st i store_idx right pivot,
    Z.of_nat n = right - i ->
    0 <= left <= store_idx -> store_idx <= i ->
    right < spn_array_count (st_arr st) ->
    (forall x, x ∈ st_arr st -> x ∈ base) ->
    (forall k, left <= k < store_idx ->
               lt (spn_array_get (st_arr st) k) pivot = true) ->
    (forall k, store_idx <= k < i ->
               lt (spn_array_get (st_arr st) k) pivot = false) ->
    spn_array_get (st_arr st) right = pivot ->
    exists st' p,
      partition_loop n st i right store_idx pivot comp = (st', PartIndex p) /\
      quiet comp st st' /\
      store_idx <= p <= right /\
      within left right (st_arr st) (st_arr st') /\
      spn_array_get (st_arr st') p = pivot /\
      (forall k, left <= k < p -> lt (spn_array_get (st_arr st') k) pivot = true) /\
      (forall k, p < k <= right -> lt (spn_array_get (st_arr st') k) pivot = false).
Proof.
  induction n as [|n IH]; intros st i store_idx right pivot Hn Hl Hs Hr Hbase H1 H2 H3.
  - assert (i = right) by lia. subst i. cbn [partition_loop].
    rewrite !inside_true by lia. cbn [andb].
    eexists _, store_idx.
    split; [reflexivity |]. split; [intros _; auto |]. split; [lia |]. cbn [st_arr].
    split; [apply within_swap; lia |]. split.
    { rewrite array_get_swap_left by lia. exact H3. }
    split.
    + intros k Hk. rewrite array_get_swap_other by lia. apply H1. lia.
    + intros k Hk. destruct (Z.eq_dec k right) as [-> | Hne].
      * rewrite array_get_swap_right by lia. apply H2. lia.
      * rewrite array_get_swap_other by lia. apply H2. lia.
  - assert (Hpivot : pivot ∈ base).
    { apply Hbase. rewrite <- H3. apply array_get_elem. lia. }
    assert (Hith : spn_array_get (st_arr st) i ∈ base).
    { apply Hbase. apply array_get_elem. lia. }
    destruct (partition_step_decided n st i right store_idx pivot ltac:(lia) ltac:(lia)
                                     Hith Hpivot)
      as (st1 & Harr1 & Hq1 & ->).
    destruct (lt (spn_array_get (st_arr st) i) pivot) eqn:Hlt.
    + set (a1 := rtlb_aux_swap (st_arr st) i store_idx).
      assert (Hw1 : within left right (st_arr st) a1) by (apply within_swap; lia).
      assert (Hr1 : right < spn_array_count a1)
        by (subst a1; rewrite array_count_swap; exact Hr).
      assert (Hbase1 : forall x, x ∈ a1 -> x ∈ base).
      { intros x Hx. apply Hbase. eapply within_elem_of; [| | exact Hw1 | exact Hx]; lia. }
      assert (H11 : forall k, left <= k < store_idx + 1 ->
                              lt (spn_array_get a1 k) pivot = true).
      { intros k Hk. subst a1. destruct (Z.eq_dec k store_idx) as [-> | Hne].
        - rewrite array_get_swap_right by lia. exact Hlt.
        - rewrite array_get_swap_other by lia. apply H1. lia. }
      assert (H21 : forall k, store_idx + 1 <= k < i + 1 ->
                              lt (spn_array_get a1 k) pivot = false).
      { intros k Hk. subst a1. destruct (Z.eq_dec k i) as [-> | Hne].
        - rewrite array_get_swap_left by lia. apply H2. lia.
        - rewrite array_get_swap_other by lia. apply H2. lia. }
      assert (H31 : spn_array_get a1 right = pivot).
      { subst a1. rewrite array_get_swap_other by lia. exact H3. }
      destruct (IH (mkSort (st_ctx st1) a1 (st_calls st1)) (i + 1) (store_idx + 1) right pivot
                   ltac:(lia) ltac:(lia) ltac:(lia) Hr1 Hbase1 H11 H21 H31)
        as (st' & p & Hrun & Hq & Hp & Hw & Hpp & Hlow & Hhigh).
      exists st', p. cbn [st_arr st_ctx st_calls] in Hrun, Hw.
      split; [exact Hrun |]. split.
      { eapply quiet_trans; [exact Hq1 |]. intros Hc. exact (Hq Hc). }
      split; [lia |].
      split; [eapply within_trans; eassumption |].
      split; [exact Hpp |]. split; assumption.
    + assert (H21 : forall k, store_idx <= k < i + 1 ->
                              lt (spn_array_get (st_arr st1) k) pivot = false).
      { rewrite Harr1. intros k Hk.
        destruct (Z.eq_dec k i) as [-> | Hne]; [exact Hlt | apply H2; lia]. }
      rewrite <- Harr1 in Hr, Hbase, H1, H3.
      destruct (IH st1 (i + 1) store_idx right pivot
                   ltac:(lia) ltac:(lia) ltac:(lia) Hr Hbase H1 H21 H3)
        as (st' & p & Hrun & Hq & Hp & Hw & Hpp & Hlow & Hhigh).
      rewrite Harr1 in Hw.
      exists st', p. split; [exact Hrun |]. split; [eapply quiet_trans; eassumption |].
      split; [lia |]. split; [exact Hw |].
      split; [exact Hpp |]. split; assumption.
Qed.

Lemma partition_sorts st left right :
  0 <= left < right ->
  right < spn_array_count (st_arr st) ->
  (forall x, x ∈ st_arr st -> x ∈ base) ->
  exists st' p pivot,
    rtlb_aux_partition st left right comp = (st', PartIndex p) /\
    quiet comp st st' /\
    left <= p <= right /\
    within left right (st_arr st) (st_arr st') /\
    spn_array_get (st_arr st') p = pivot /\
    (forall k, left <= k < p -> lt (spn_array_get (st_arr st') k) pivot = true) /\
    (forall k, p < k <= right -> lt (spn_array_get (st_arr st') k) pivot = false).
Proof.
  intros Hl Hr Hbase. unfold rtlb_aux_partition.
  pose proof (quot_half left right ltac:(lia)) as Hq.
  set (pivot_idx := left + Z.quot (right - left) 2) in *.
  rewrite !inside_true by lia. cbn [andb].
  set (pivot := spn_array_get (st_arr st) pivot_idx).
  set (a1 := rtlb_aux_swap (st_arr st) pivot_idx right).
  assert (Hw1 : within left right (st_arr st) a1) by (apply within_swap; lia).
  assert (Hr1 : right < spn_array_count a1)
    by (subst a1; rewrite array_count_swap; exact Hr).
  assert (Hbase1 : forall x, x ∈ a1 -> x ∈ base).
  { intros x Hx. apply Hbase. eapply within_elem_of; [| | exact Hw1 | exact Hx]; lia. }
  assert (H31 : spn_array_get a1 right = pivot).
  { subst a1. rewrite array_get_swap_right by lia. reflexivity. }
  destruct (partition_loop_sorts left (Z.to_nat (right - left))
              (mkSort (st_ctx st) a1 (st_calls st)) left left right pivot
              ltac:(lia) ltac:(lia) ltac:(lia) Hr1 Hbase1
              ltac:(intros k Hk; lia) ltac:(intros k Hk; lia) H31)
    as (st' & p & Hrun & Hqt & Hp & Hw & Hpp & Hlow & Hhigh).
  exists st', p, pivot. cbn [st_arr st_ctx st_calls] in Hrun, Hw.
  split; [exact Hrun |]. split; [intros Hc; exact (Hqt Hc) |]. split; [lia |].
  split; [eapply within_trans; eassumption |].
  split; [exact Hpp |]. split; assumption.
Qed.

(** The sort succeeds, changes the array only between [left] and
    [right], and leaves it in order there: no element is below one that
    comes before it. *)
Lemma qsort_sorts fuel :
  forall st left right,
    0 <= left -> right < spn_array_count (st_arr st) ->
    right - left < Z.of_nat fuel ->
    (forall x, x ∈ st_arr st -> x ∈ base) ->
    exists st',
      rtlb_aux_qsort fuel st left right comp = Ret (st', 0, None) /\
      quiet comp st st' /\
      within left right (st_arr st) (st_arr st') /\
      forall i j, left <= i -> i < j -> j <= right ->
                  lt (spn_array_get (st_arr st') j) (spn_array_get (st_arr st') i) = false.
Proof.
  induction fuel as [|fuel IH]; intros st left right Hl Hr Hf Hbase.
  { exists st. cbn. destruct (Z.geb_spec left right); [| lia].
    split; [reflexivity |]. split; [apply quiet_refl |]. split; [apply within_refl |].
    intros i j Hi Hij Hj. lia. }
  cbn [rtlb_aux_qsort]. destruct (Z.geb_spec left right) as [Hge | Hlt].
  { exists st. split; [reflexivity |]. split; [apply quiet_refl |].
    split; [apply within_refl |]. intros i j Hi Hij Hj. lia. }
  destruct (partition_sorts st left right ltac:(lia) Hr Hbase)
    as (st1 & p & pivot & -> & Hq1 & Hp & Hw1 & Hpp & Hlow & Hhigh).
  assert (Hc1 : spn_array_count (st_arr st1) = spn_array_count (st_arr st)) by apply Hw1.
  assert (Hbase1 : forall x, x ∈ st_arr st1 -> x ∈ base).
  { intros x Hx. apply Hbase. eapply within_elem_of; [| | exact Hw1 | exact Hx]; lia. }
  destruct (IH st1 left (p - 1) Hl ltac:(lia) ltac:(lia) Hbase1)
    as (st2 & -> & Hq2 & Hw2 & Hs2).
  cbn [Z.eqb negb].
  assert (Hc2 : spn_array_count (st_arr st2) = spn_array_count (st_arr st1)) by apply Hw2.
  assert (Hbase2 : forall x, x ∈ st_arr st2 -> x ∈ base).
  { intros x Hx. apply Hbase1. eapply within_elem_of; [| | exact Hw2 | exact Hx]; lia. }
  destruct (IH st2 (p + 1) right ltac:(lia) ltac:(lia) ltac:(lia) Hbase2)
    as (st3 & -> & Hq3 & Hw3 & Hs3).
  cbn [Z.eqb negb].
  assert (Hc3 : spn_array_count (st_arr st3) = spn_array_count (st_arr st2)) by apply Hw3.
  assert (Hbase3 : forall x, x ∈ st_arr st3 -> x ∈ base).
  { intros x Hx. apply Hbase2. eapply within_elem_of; [| | exact Hw3 | exact Hx]; lia. }
  exists st3. split; [reflexivity |]. split.
  { eapply quiet_trans; [exact Hq1 |]. eapply quiet_trans; eassumption. }
  split.
  { eapply within_trans; [exact Hw1 |]. eapply within_trans.
    - eapply (within_widen left (p - 1) left right); [lia | lia | exact Hw2].
    - eapply (within_widen (p + 1) right left right); [lia | lia | exact Hw3]. }
  destruct Hw2 as (_ & Hout2 & Hin2). destruct Hw3 as (_ & Hout3 & Hin3).
  (* the pivot is at [p], what is below it before, the rest after *)
  assert (Hpivot3 : spn_array_get (st_arr st3) p = pivot).
  { rewrite Hout3, Hout2 by lia. exact Hpp. }
  assert (Hlow3 : forall k, left <= k < p -> lt (spn_array_get (st_arr st3) k) pivot = true).
  { intros k Hk. rewrite Hout3 by lia.
    destruct (Hin2 k ltac:(lia)) as (k' & Hk' & ->). apply Hlow. lia. }
  assert (Hhigh3 : forall k, p < k <= right ->
                             lt (spn_array_get (st_arr st3) k) pivot = false).
  { intros k Hk. destruct (Hin3 k ltac:(lia)) as (k' & Hk' & ->).
    rewrite Hout2 by lia. apply Hhigh. lia. }
  assert (Hel : forall k, left <= k <= right -> spn_array_get (st_arr st3) k ∈ base).
  { intros k Hk. apply Hbase3. apply array_get_elem. lia. }
  assert (Hpb : pivot ∈ base) by (rewrite <- Hpivot3; apply Hel; lia).
  intros i j Hi Hij Hj.
  destruct (Z_lt_dec j p) as [Hjp | Hjp].
  { rewrite !Hout3 by lia. apply Hs2; lia. }
  destruct (Z_lt_dec p i) as [Hpi | Hpi].
  { apply Hs3; lia. }
  destruct (Z.eq_dec i p) as [-> | Hip].
  { rewrite Hpivot3. apply Hhigh3. lia. }
  destruct (Z.eq_dec j p) as [-> | Hjp'].
  { rewrite Hpivot3.
    apply (lt_asymmetric Hord (Hel i ltac:(lia)) Hpb). apply Hlow3. lia. }
  destruct (lt (spn_array_get (st_arr st3) j) (spn_array_get (st_arr st3) i)) eqn:Hji;
    [| reflexivity].
  pose proof (lt_transitive Hord (Hel j ltac:(lia)) (Hel i ltac:(lia)) Hpb Hji
                (Hlow3 i ltac:(lia))) as Hbad.
  rewrite Hhigh3 in Hbad by lia. discriminate.
Qed.

End SortSorts.

Section SortTheorems.
Context `{M : Machine} {K : Callbacks} `{V : ValueOps}.

Lemma sort_start_fuel (a : list SpnValue) :
  spn_array_count a - 1 - 0 < Z.of_nat (List.length a).
Proof. unfold spn_array_count. lia. Qed.

Lemma sort_start_right ctx (a : list SpnValue) :
  spn_array_count a - 1 < spn_array_count (st_arr (mkSort ctx a [])).
Proof. cbn [st_arr]. lia. Qed.

(** With a comparator that answers every call with the Boolean [lt x y]
    and leaves the array alone, [lt] being transitive and not mutual on
    the elements: the sort succeeds and the array afterwards has the
    elements it had, none of them below, by [lt], one that comes before
    it. *)
Lemma sort_by_comparator ctx slot a f lt :
  isfunc f = true ->
  answers f (fun x y => Bool (lt x y)) ->
  strict_order lt a ->
  exists st,
    rtlb_sort ctx slot [Array a; f] = Ret (st, done_ok slot) /\
    st_arr st ≡ₚ a /\
    forall i j, 0 <= i -> i < j -> j < spn_array_count a ->
                lt (spn_array_get (st_arr st) j) (spn_array_get (st_arr st) i) = false.
Proof.
  intros Hf Hans Hord. cbn [rtlb_sort]. rewrite Hf.
  destruct (qsort_sorts a lt (Some f) Hans Hord (List.length a) (mkSort ctx a []) 0
                        (spn_array_count a - 1))
    as (st' & Hrun & _ & Hw & Hs);
    [lia | apply sort_start_right | apply sort_start_fuel | auto |].
  destruct (qsort_tame (List.length a) (mkSort ctx a []) 0 (spn_array_count a - 1) (Some f))
    as (st2 & code & e & Hrun2 & Hperm);
    [exact (proj1 Hans) | lia | apply sort_start_right | apply sort_start_fuel |].
  rewrite Hrun in Hrun2. injection Hrun2 as <- _ _.
  rewrite Hrun. exists st'. split; [reflexivity |]. split; [exact Hperm |].
  intros i j Hi Hij Hj. apply Hs; lia.
Qed.




End SortTheorems.

Section SortOnSample.
Import Sample.


Example sort_integers :
  exists st,
    rtlb_sort ctx0 Nil [Array [Int 3; Int 1; Int 2]] = Ret (st, done_ok Nil) /\
    st_arr st = [Int 1; Int 2; Int 3].
Proof. eexists. split; reflexivity. Qed.

Example sort_integers_with_less_than :
  exists st,
    rtlb_sort ctx0 Nil [Array [Int 3; Int 1; Int 2]; Func (Native "lt")]
      = Ret (st, done_ok Nil) /\
    st_arr st = [Int 1; Int 2; Int 3].
Proof. eexists. split; reflexivity. Qed.

(** A comparator that returns the integer 1: the first comparison is the
    last. *)
Example sort_with_integer_comparator :
  exists st,
    rtlb_sort ctx0 Nil [Array [Int 3; Int 1; Int 2]; Func (Native "one")]
      = Ret (st, mkRes (-1) Nil (Some comparator_error)) /\
    st_calls st = [mkCall (Int 3, Int 1) 0 (Int 1)].
Proof. eexists. split; reflexivity. Qed.

(** A comparator that never returns: neither does the sort. *)
Example sort_with_comparator_that_hangs :
  @rtlb_sort _ SampleNatives.unruly_machine SampleNatives.unruly value_ops
             ctx0 Nil [Array [Int 3; Int 1; Int 2]; Func (Native "hang")]
  = OutOfFuel.
Proof. reflexivity. Qed.

(** A comparator that empties the array it is sorting: the partition goes
    on with indices that are no longer inside the array. *)
Example sort_with_comparator_that_wipes :
  @rtlb_sort _ SampleNatives.unruly_machine SampleNatives.unruly value_ops
             ctx0 Nil [Array [Int 3; Int 1; Int 2]; Func (Native "wipe")]
  = Undefined.
Proof. reflexivity. Qed.

End SortOnSample.

Section BinarySearchFacts.
Context `{M : Machine} `{V : ValueOps}.

Variables (a : list SpnValue) (key : SpnValue).
Hypothesis Hcmp :
  forall x, x ∈ a -> spn_values_comparable key x = true /\ spn_values_comparable x key = true.
Hypothesis Hsorted : sorted a.
Hypothesis Hbetween :
  forall x y z, x ∈ key :: a -> y ∈ key :: a -> z ∈ key :: a ->
                value_lt x y = true -> value_lt x z = true \/ value_lt z y = true.

Lemma bsearch_sorted fuel (ctx : SpnContext) (slot : SpnValue) :
  forall lower upper,
    0 <= lower <= upper -> upper <= spn_array_count a ->
    upper - lower <= Z.of_nat fuel ->
    exists r,
      rtlb_aux_bsearch fuel ctx slot a key lower upper None = Ret (ctx, done_ok (Int r)) /\
      ((r = -1 /\
        forall k, lower <= k < upper ->
                  value_lt key (spn_array_get a k) = true \/
                  value_lt (spn_array_get a k) key = true) \/
       (lower <= r < upper /\
        value_lt key (spn_array_get a r) = false /\
        value_lt (spn_array_get a r) key = false)).
Proof.
  induction fuel as [|fuel IH]; intros lower upper Hl Hu Hf.
  { exists (-1). cbn [rtlb_aux_bsearch].
    destruct (Z.gtb_spec lower upper); [lia |]. destruct (Z.eqb_spec lower upper); [| lia].
    split; [reflexivity |]. left. split; [reflexivity | intros k Hk; lia]. }
  cbn [rtlb_aux_bsearch].
  destruct (Z.gtb_spec lower upper); [lia |].
  destruct (Z.eqb_spec lower upper) as [Heq | Hne].
  { exists (-1). split; [reflexivity |]. left. split; [reflexivity | intros k Hk; lia]. }
  set (middle := lower + (upper - lower) / 2).
  assert (Hm : lower <= middle < upper).
  { subst middle. pose proof (Z.div_pos (upper - lower) 2 ltac:(lia) ltac:(lia)).
    assert ((upper - lower) / 2 < upper - lower) by (apply Z.div_lt; lia). lia. }
  assert (Hin : forall k, 0 <= k < spn_array_count a -> spn_array_get a k ∈ key :: a).
  { intros k Hk. apply elem_of_cons. right. apply array_get_elem. exact Hk. }
  assert (Hkey : key ∈ key :: a) by (apply elem_of_cons; left; reflexivity).
  assert (Hmid : spn_array_get a middle ∈ a) by (apply array_get_elem; lia).
  destruct (Hcmp _ Hmid) as [Hc1 Hc2].
  unfold rtlb_aux_bsearch_compare. rewrite Hc1.
  fold (value_lt key (spn_array_get a middle)).
  destruct (value_lt key (spn_array_get a middle)) eqn:Hsmaller; cbn [Z.ltb Z.gtb Z.compare].
  - (* the key is below the middle element: the lower half *)
    destruct (IH lower middle ltac:(lia) ltac:(lia) ltac:(lia)) as (r & -> & Hr).
    exists r. split; [reflexivity |].
    destruct Hr as [[-> Hnone] | (Hr & Hf1 & Hf2)]; [left | right].
    + split; [reflexivity |]. intros k Hk.
      destruct (Z_lt_dec k middle) as [Hkm | Hkm]; [apply Hnone; lia |]. left.
      destruct (Z.eq_dec k middle) as [-> | Hne']; [exact Hsmaller |].
      destruct (Hbetween key (spn_array_get a middle) (spn_array_get a k)
                  Hkey (Hin middle ltac:(lia)) (Hin k ltac:(lia)) Hsmaller) as [H1 | H1];
        [exact H1 |].
      rewrite (Hsorted middle k) in H1 by lia. discriminate.
    + split; [lia | split; assumption].
  - rewrite Hc2. fold (value_lt (spn_array_get a middle) key).
    destruct (value_lt (spn_array_get a middle) key) eqn:Hgreater;
      cbn [Z.ltb Z.gtb Z.compare].
    + (* the key is above the middle element: the upper half *)
      destruct (IH (middle + 1) upper ltac:(lia) ltac:(lia) ltac:(lia)) as (r & -> & Hr).
      exists r. split; [reflexivity |].
      destruct Hr as [[-> Hnone] | (Hr & Hf1 & Hf2)]; [left | right].
      * split; [reflexivity |]. intros k Hk.
        destruct (Z_lt_dec middle k) as [Hkm | Hkm]; [apply Hnone; lia |]. right.
        destruct (Z.eq_dec k middle) as [-> | Hne']; [exact Hgreater |].
        destruct (Hbetween (spn_array_get a middle) key (spn_array_get a k)
                    (Hin middle ltac:(lia)) Hkey (Hin k ltac:(lia)) Hgreater) as [H1 | H1];
          [| exact H1].
        rewrite (Hsorted k middle) in H1 by lia. discriminate.
      * split; [lia | split; assumption].
    + exists middle. split; [reflexivity |]. right. split; [lia | split; assumption].
Qed.

End BinarySearchFacts.

Section BinarySearchTheorem.
Context `{M : Machine} `{V : ValueOps}.

(** [bsearch(a, key)] without a predicate, under three conditions: the
    elements of the array can be compared with the key; the array is in
    order; and on the key and the elements, whenever [x] is below [y],
    every [z] is above [x] or below [y] (so it is with integers; not with
    a NaN, which is neither below nor above anything).  Then the call
    returns, leaves the context alone, and its result is the index of an
    element that is neither below nor above the key, or -1 when every
    element is below or above the key. *)
Theorem bsearch_finds (ctx : SpnContext) (slot : SpnValue) (a : list SpnValue)
        (key : SpnValue) :
  (forall x, x ∈ a ->
             spn_values_comparable key x = true /\ spn_values_comparable x key = true) ->
  sorted a ->
  (forall x y z, x ∈ key :: a -> y ∈ key :: a -> z ∈ key :: a ->
                 value_lt x y = true -> value_lt x z = true \/ value_lt z y = true) ->
  exists r,
    rtlb_bsearch ctx slot [Array a; key] = Ret (ctx, done_ok (Int r)) /\
    ((r = -1 /\
      forall k, 0 <= k < spn_array_count a ->
                value_lt key (spn_array_get a k) = true \/
                value_lt (spn_array_get a k) key = true) \/
     (0 <= r < spn_array_count a /\
      value_lt key (spn_array_get a r) = false /\
      value_lt (spn_array_get a r) key = false)).
Proof.
  intros Hcmp Hsorted Hbetween. cbn [rtlb_bsearch].
  apply (bsearch_sorted a key Hcmp Hsorted Hbetween); unfold spn_array_count; lia.
Qed.

End BinarySearchTheorem.

(** ** The math library: min and max, factorial, binomial, power *)

Section MinMaxFacts.

Lemma min_loop_integers (l : list Z) :
  forall r, min_loop (map Int l) (Int r) = done_ok (Int (fold_left Z.min l r)).
Proof.
  induction l as [|x l IH]; intros r; cbn [map min_loop fold_left]; [reflexivity |].
  destruct (Z.ltb_spec x r); rewrite IH; do 3 f_equal; lia.
Qed.

Lemma max_loop_integers (l : list Z) :
  forall r, max_loop (map Int l) (Int r) = done_ok (Int (fold_left Z.max l r)).
Proof.
  induction l as [|x l IH]; intros r; cbn [map max_loop fold_left]; [reflexivity |].
  destruct (Z.gtb_spec x r); rewrite IH; do 3 f_equal; lia.
Qed.

Lemma fold_min_spec (l : list Z) :
  forall r, let m := fold_left Z.min l r in
            m ∈ r :: l /\ forall y, y ∈ r :: l -> m <= y.
Proof.
  induction l as [|x l IH]; intros r; cbn [fold_left].
  - split; [apply list_elem_of_singleton; reflexivity |].
    intros y Hy. apply list_elem_of_singleton in Hy. lia.
  - destruct (IH (Z.min r x)) as [Hin Hle]. split.
    + apply elem_of_cons in Hin. destruct Hin as [Hm | Hin].
      * rewrite Hm. destruct (Z.min_spec r x) as [[_ ->] | [_ ->]];
          [apply elem_of_cons; left; reflexivity |
           apply elem_of_cons; right; apply elem_of_cons; left; reflexivity].
      * apply elem_of_cons; right. apply elem_of_cons; right. exact Hin.
    + intros y Hy. pose proof (Hle (Z.min r x) ltac:(apply elem_of_cons; left; reflexivity)).
      apply elem_of_cons in Hy. destruct Hy as [-> | Hy]; [lia |].
      apply elem_of_cons in Hy. destruct Hy as [-> | Hy]; [lia |].
      apply Hle. apply elem_of_cons; right. exact Hy.
Qed.

Lemma fold_max_spec (l : list Z) :
  forall r, let m := fold_left Z.max l r in
            m ∈ r :: l /\ forall y, y ∈ r :: l -> y <= m.
Proof.
  induction l as [|x l IH]; intros r; cbn [fold_left].
  - split; [apply list_elem_of_singleton; reflexivity |].
    intros y Hy. apply list_elem_of_singleton in Hy. lia.
  - destruct (IH (Z.max r x)) as [Hin Hle]. split.
    + apply elem_of_cons in Hin. destruct Hin as [Hm | Hin].
      * rewrite Hm. destruct (Z.max_spec r x) as [[_ ->] | [_ ->]];
          [apply elem_of_cons; right; apply elem_of_cons; left; reflexivity |
           apply elem_of_cons; left; reflexivity].
      * apply elem_of_cons; right. apply elem_of_cons; right. exact Hin.
    + intros y Hy. pose proof (Hle (Z.max r x) ltac:(apply elem_of_cons; left; reflexivity)).
      apply elem_of_cons in Hy. destruct Hy as [-> | Hy]; [lia |].
      apply elem_of_cons in Hy. destruct Hy as [-> | Hy]; [lia |].
      apply Hle. apply elem_of_cons; right. exact Hy.
Qed.

Lemma min_loop_picks (argv : list SpnValue) :
  forallb isnum argv = true ->
  forall slot, isnum slot = true ->
    exists v, min_loop argv slot = done_ok v /\ v ∈ slot :: argv /\ isnum v = true.
Proof.
  induction argv as [|arg argv IH]; intros Hnum slot Hslot; cbn [min_loop].
  - exists slot. split; [reflexivity |]. split; [apply list_elem_of_singleton; reflexivity |].
    exact Hslot.
  - cbn [forallb] in Hnum. apply andb_prop in Hnum. destruct Hnum as [Harg Hnum].
    assert (Hpick : forall b : bool,
               exists v, min_loop argv (if b then arg else slot) = done_ok v /\
                         v ∈ slot :: arg :: argv /\ isnum v = true).
    { intros b. destruct (IH Hnum (if b then arg else slot) ltac:(destruct b; assumption))
        as (v & Hv & Hin & Hn).
      exists v. split; [exact Hv |]. split; [| exact Hn].
      apply elem_of_cons in Hin. destruct Hin as [-> | Hin].
      - destruct b; [apply elem_of_cons; right; apply elem_of_cons; left |
                     apply elem_of_cons; left]; reflexivity.
      - apply elem_of_cons; right. apply elem_of_cons; right. exact Hin. }
    destruct arg; try discriminate; destruct slot; try discriminate; apply Hpick.
Qed.

Lemma max_loop_picks (argv : list SpnValue) :
  forallb isnum argv = true ->
  forall slot, isnum slot = true ->
    exists v, max_loop argv slot = done_ok v /\ v ∈ slot :: argv /\ isnum v = true.
Proof.
  induction argv as [|arg argv IH]; intros Hnum slot Hslot; cbn [max_loop].
  - exists slot. split; [reflexivity |]. split; [apply list_elem_of_singleton; reflexivity |].
    exact Hslot.
  - cbn [forallb] in Hnum. apply andb_prop in Hnum. destruct Hnum as [Harg Hnum].
    assert (Hpick : forall b : bool,
               exists v, max_loop argv (if b then arg else slot) = done_ok v /\
                         v ∈ slot :: arg :: argv /\ isnum v = true).
    { intros b. destruct (IH Hnum (if b then arg else slot) ltac:(destruct b; assumption))
        as (v & Hv & Hin & Hn).
      exists v. split; [exact Hv |]. split; [| exact Hn].
      apply elem_of_cons in Hin. destruct Hin as [-> | Hin].
      - destruct b; [apply elem_of_cons; right; apply elem_of_cons; left |
                     apply elem_of_cons; left]; reflexivity.
      - apply elem_of_cons; right. apply elem_of_cons; right. exact Hin. }
    destruct arg; try discriminate; destruct slot; try discriminate; apply Hpick.
Qed.

(** [min] and [max] of one or more numbers succeed and return one of
    their arguments.  On integers [min] returns the least and [max] the
    greatest: an argument that no argument is below, or above. *)
Theorem min_max_pick (slot : SpnValue) :
  (forall argv, argv <> [] -> forallb isnum argv = true ->
     exists lo hi,
       rtlb_min slot argv = done_ok lo /\ rtlb_max slot argv = done_ok hi /\
       lo ∈ argv /\ hi ∈ argv) /\
  (forall x l,
     exists lo hi,
       rtlb_min slot (map Int (x :: l)) = done_ok (Int lo) /\
       rtlb_max slot (map Int (x :: l)) = done_ok (Int hi) /\
       lo ∈ x :: l /\ hi ∈ x :: l /\
       forall y, y ∈ x :: l -> lo <= y <= hi).
Proof.
  split.
  - intros [|a0 argv] Hne Hnum; [contradiction |].
    cbn [forallb] in Hnum. apply andb_prop in Hnum. destruct Hnum as [H0 Hnum].
    cbn [rtlb_min rtlb_max]. rewrite H0. cbn [negb].
    destruct (min_loop_picks argv Hnum a0 H0) as (lo & -> & Hlo & _).
    destruct (max_loop_picks argv Hnum a0 H0) as (hi & -> & Hhi & _).
    exists lo, hi. auto.
  - intros x l. cbn [map rtlb_min rtlb_max isnum isint orb negb].
    rewrite min_loop_integers, max_loop_integers.
    destruct (fold_min_spec l x) as [Hmin Hle]. destruct (fold_max_spec l x) as [Hmax Hge].
    eexists _, _. split; [reflexivity |]. split; [reflexivity |].
    split; [exact Hmin |]. split; [exact Hmax |].
    intros y Hy. split; [apply Hle | apply Hge]; exact Hy.
Qed.

End MinMaxFacts.

Section FactorialFacts.

Lemma factorial_pos n : 1 <= factorial n.
Proof. induction n as [|n IH]; cbn [factorial]; [lia | nia]. Qed.

Lemma factorial_S n : factorial (S n) = Z.of_nat (S n) * factorial n.
Proof. reflexivity. Qed.

Lemma factorial_mono n m : (n <= m)%nat -> factorial n <= factorial m.
Proof.
  induction 1 as [|m Hle IH]; [lia |].
  rewrite factorial_S. pose proof (factorial_pos m). nia.
Qed.

Lemma in_long_spec z : in_long z = true <-> LONG_MIN <= z <= LONG_MAX.
Proof. unfold in_long. rewrite andb_true_iff, !Z.leb_le. reflexivity. Qed.

Lemma long_bounds : LONG_MIN = -9223372036854775808 /\ LONG_MAX = 9223372036854775807.
Proof. split; reflexivity. Qed.

(** The loop of [fact] from [i + 1] on, with the factorial of [i] in
    [r]. *)
Lemma fact_loop_fits (n : nat) fuel :
  factorial n <= LONG_MAX ->
  forall i : nat,
    (1 <= i)%nat -> (i <= n)%nat -> (n - i <= fuel)%nat ->
    fact_loop fuel (Z.of_nat i + 1) (Z.of_nat n) (factorial i) = Ret (factorial n).
Proof.
  intros Hfit. induction fuel as [|fuel IH]; intros i Hi Hin Hf; cbn [fact_loop].
  - assert (i = n) by lia. subst i.
    destruct (Z.leb_spec (Z.of_nat n + 1) (Z.of_nat n)); [lia | reflexivity].
  - destruct (Z.leb_spec (Z.of_nat i + 1) (Z.of_nat n)) as [Hle | Hgt].
    + assert (Hnext : factorial i * (Z.of_nat i + 1) = factorial (S i)).
      { rewrite factorial_S. lia. }
      rewrite Hnext.
      pose proof (factorial_mono (S i) n ltac:(lia)). pose proof (factorial_pos (S i)).
      destruct long_bounds as [Hmin Hmax].
      rewrite (proj2 (in_long_spec (factorial (S i)))) by lia. cbn [negb].
      replace (Z.of_nat i + 1 + 1) with (Z.of_nat (S i) + 1) by lia.
      apply IH; lia.
    + assert (i = n) by lia. subst i. reflexivity.
Qed.

Lemma fact_loop_overflows (n : nat) fuel :
  LONG_MAX < factorial n ->
  forall i : nat,
    factorial i <= LONG_MAX ->
    (1 <= i)%nat -> (i <= n)%nat -> (n - i <= fuel)%nat ->
    fact_loop fuel (Z.of_nat i + 1) (Z.of_nat n) (factorial i) = Undefined.
Proof.
  intros Hover. induction fuel as [|fuel IH]; intros i Hfit Hi Hin Hf; cbn [fact_loop].
  - assert (i = n) by lia. subst i. lia.
  - assert (i <> n) by (intros ->; lia).
    destruct (Z.leb_spec (Z.of_nat i + 1) (Z.of_nat n)) as [Hle | Hgt]; [| lia].
    assert (Hnext : factorial i * (Z.of_nat i + 1) = factorial (S i)).
    { rewrite factorial_S. lia. }
    rewrite Hnext. pose proof (factorial_pos (S i)).
    destruct long_bounds as [Hmin Hmax].
    destruct (in_long (factorial (S i))) eqn:Hin'; cbn [negb]; [| reflexivity].
    apply in_long_spec in Hin'.
    replace (Z.of_nat i + 1 + 1) with (Z.of_nat (S i) + 1) by lia.
    apply IH; lia.
Qed.

(** [fact(n)] fails for a negative [n], returns the factorial of [n] for
    [n] from 0 to 20, and for a larger [n] multiplies past the range of
    [long], which C leaves undefined. *)
Theorem fact_computes (slot : SpnValue) (n : Z) :
  (n < 0 -> rtlb_fact slot [Int n] = Ret (raise (-3) slot "argument must not be negative" [])) /\
  (0 <= n <= 20 ->
   rtlb_fact slot [Int n] = Ret (done_ok (Int (factorial (Z.to_nat n))))) /\
  (20 < n -> rtlb_fact slot [Int n] = Undefined).
Proof.
  cbn [rtlb_fact].
  assert (H20 : factorial 20 <= LONG_MAX) by (vm_compute; discriminate).
  assert (H21 : LONG_MAX < factorial 21) by (vm_compute; reflexivity).
  split; [intros Hn; destruct (Z.ltb_spec n 0); [reflexivity | lia] |]. split.
  - intros Hn. destruct (Z.ltb_spec n 0); [lia |].
    destruct (Z.eq_dec n 0) as [-> | Hn0]; [reflexivity |].
    pose proof (fact_loop_fits (Z.to_nat n) (Z.to_nat n)) as Hloop.
    pose proof (factorial_mono (Z.to_nat n) 20 ltac:(lia)).
    specialize (Hloop ltac:(lia) 1%nat ltac:(lia) ltac:(lia) ltac:(lia)).
    rewrite Z2Nat.id in Hloop by lia.
    change (Z.of_nat 1 + 1) with 2 in Hloop. change (factorial 1) with 1 in Hloop.
    rewrite Hloop. reflexivity.
  - intros Hn. destruct (Z.ltb_spec n 0); [lia |].
    pose proof (fact_loop_overflows (Z.to_nat n) (Z.to_nat n)) as Hloop.
    pose proof (factorial_mono 21 (Z.to_nat n) ltac:(lia)).
    specialize (Hloop ltac:(lia) 1%nat ltac:(vm_compute; discriminate)
                      ltac:(lia) ltac:(lia) ltac:(lia)).
    rewrite Z2Nat.id in Hloop by lia.
    change (Z.of_nat 1 + 1) with 2 in Hloop. change (factorial 1) with 1 in Hloop.
    rewrite Hloop. reflexivity.
Qed.

End FactorialFacts.

(** ** [pow] on integers *)

Section PowFacts.

Lemma pow_loop_done fuel b r : pow_loop fuel b 0 r = Ret r.
Proof. destruct fuel; reflexivity. Qed.

Lemma in_long_abs z : Z.abs z <= LONG_MAX -> in_long z = true.
Proof. intros Hz. apply in_long_spec. destruct long_bounds as [-> Hmax]. lia. Qed.

(** An exponent splits into its lowest bit and the rest. *)
Lemma exponent_bits e :
  0 < e ->
  let d := if Z.land e 1 =? 0 then 0 else 1 in
  e = 2 * Z.shiftr e 1 + d /\ 0 <= Z.shiftr e 1 /\
  (Z.shiftr e 1 = 0 -> e = 1) /\
  (0 < Z.shiftr e 1 -> Z.log2 e = Z.log2 (Z.shiftr e 1) + 1).
Proof.
  intros He d. subst d.
  rewrite Z.shiftr_div_pow2 by lia. change (Z.land e 1) with (Z.land e (Z.ones 1)).
  rewrite Z.land_ones by lia. change (2 ^ 1) with 2.
  pose proof (Z.div_mod e 2 ltac:(lia)) as Hdm.
  pose proof (Z.mod_pos_bound e 2 ltac:(lia)) as Hm.
  assert (Hq : 0 <= e / 2) by (apply Z.div_pos; lia).
  destruct (Z.eqb_spec (e mod 2) 0) as [H0 | H1].
  - repeat split; try lia. intros Hq'.
    replace e with (2 * (e / 2)) at 1 by lia. rewrite Z.log2_double by lia. lia.
  - repeat split; try lia. intros Hq'.
    replace e with (2 * (e / 2) + 1) at 1 by lia. rewrite Z.log2_succ_double by lia. lia.
Qed.

Lemma pow_abs_square b q : 0 <= q -> Z.abs (b * b) ^ q = Z.abs b ^ (2 * q).
Proof.
  intros Hq. rewrite Z.abs_mul, Z.pow_mul_r by lia.
  f_equal. change 2 with (Z.succ 1). rewrite Z.pow_succ_r, Z.pow_1_r by lia. reflexivity.
Qed.

Lemma pow_square b q : 0 <= q -> (b * b) ^ q = b ^ (2 * q).
Proof.
  intros Hq. rewrite Z.pow_mul_r by lia.
  f_equal. change 2 with (Z.succ 1). rewrite Z.pow_succ_r, Z.pow_1_r by lia. reflexivity.
Qed.

Lemma pow_abs_grows b n m : 0 < n <= m -> Z.abs b ^ n <= Z.abs b ^ m.
Proof.
  intros Hnm. destruct (Z.eq_dec b 0) as [-> | Hb].
  - cbn [Z.abs]. rewrite !Z.pow_0_l by lia. lia.
  - apply Z.pow_le_mono_r; lia.
Qed.

(** The last square the loop takes is [b] to the least power of two
    above [e]; when that fits a [long], every step does. *)
Lemma pow_loop_fits fuel :
  forall b e r,
    0 < e -> Z.log2 e < Z.of_nat fuel ->
    Z.abs b ^ (2 ^ (Z.log2 e + 1)) <= LONG_MAX ->
    Z.abs r <= LONG_MAX -> Z.abs r * Z.abs b ^ e <= LONG_MAX ->
    pow_loop fuel b e r = Ret (r * b ^ e).
Proof.
  induction fuel as [|fuel IH]; intros b e r He Hfuel Hlast Hr Hprod.
  { pose proof (Z.log2_nonneg e). lia. }
  cbn [pow_loop]. destruct (Z.eqb_spec e 0); [lia |].
  destruct (exponent_bits e He) as (Hsplit & Hq & Hone & Hlog).
  set (q := Z.shiftr e 1) in *.
  set (d := if Z.land e 1 =? 0 then 0 else 1) in *.
  set (r' := if negb (Z.land e 1 =? 0) then r * b else r).
  assert (Hr' : r' = r * b ^ d /\ Z.abs r' = Z.abs r * Z.abs b ^ d).
  { subst r' d. destruct (Z.land e 1 =? 0); cbn [negb].
    - rewrite !Z.pow_0_r. lia.
    - rewrite !Z.pow_1_r, Z.abs_mul. lia. }
  destruct Hr' as [Hr'eq Hr'abs].
  assert (Hd : 0 <= d <= 1) by (subst d; destruct (Z.land e 1 =? 0); lia).
  assert (Hr'le : Z.abs r' <= LONG_MAX).
  { rewrite Hr'abs. destruct (Z.eq_dec d 0) as [Hd0 | Hd1].
    - rewrite Hd0, Z.pow_0_r, Z.mul_1_r. exact Hr.
    - pose proof (pow_abs_grows b d e ltac:(clear - Hd Hd1 He; lia)) as Hg.
      pose proof (Z.abs_nonneg r) as Hr0.
      etransitivity; [| exact Hprod]. apply Z.mul_le_mono_nonneg_l; assumption. }
  rewrite (in_long_abs r' Hr'le). cbn [negb].
  assert (Hsq : Z.abs (b * b) <= LONG_MAX).
  { pose proof (pow_abs_grows b 2 (2 ^ (Z.log2 e + 1))) as Hg.
    assert (2 <= 2 ^ (Z.log2 e + 1)).
    { pose proof (Z.log2_nonneg e).
      change 2 with (2 ^ 1) at 1. apply Z.pow_le_mono_r; lia. }
    specialize (Hg ltac:(lia)).
    rewrite Z.abs_mul. change 2 with (Z.succ 1) in Hg at 1.
    rewrite Z.pow_succ_r, Z.pow_1_r in Hg by lia. lia. }
  rewrite (in_long_abs (b * b) Hsq). cbn [negb].
  assert (Hexp : forall c, c ^ e = c ^ d * c ^ (2 * q)).
  { clear - Hsplit Hq Hd. intros c. rewrite Hsplit at 1.
    rewrite (Z.pow_add_r c (2 * q) d); [apply Z.mul_comm | lia | lia]. }
  pose proof (Hexp (Z.abs b)) as Hexpabs. specialize (Hexp b).
  destruct (Z.eq_dec q 0) as [Hq0 | Hq0].
  - rewrite Hq0, pow_loop_done. f_equal.
    rewrite Hr'eq, Hexp, Hq0. change (2 * 0) with 0. rewrite Z.pow_0_r. lia.
  - rewrite IH.
    + f_equal. rewrite pow_square, Hr'eq, Hexp by lia. lia.
    + lia.
    + clear - Hfuel Hlog Hq Hq0. lia.
    + rewrite pow_abs_square by (apply Z.pow_nonneg; lia).
      replace (2 * 2 ^ (Z.log2 q + 1)) with (2 ^ (Z.log2 e + 1)); [exact Hlast |].
      rewrite Hlog by lia. pose proof (Z.log2_nonneg q).
      rewrite (Z.pow_add_r 2 (Z.log2 q + 1) 1) by lia. change (2 ^ 1) with 2. lia.
    + exact Hr'le.
    + rewrite pow_abs_square, Hr'abs by lia. rewrite Hexpabs in Hprod. lia.
Qed.

(** When it does not fit, some step leaves the range of [long]. *)
Lemma pow_loop_overflows fuel :
  forall b e r,
    0 < e -> Z.log2 e < Z.of_nat fuel ->
    LONG_MAX < Z.abs b ^ (2 ^ (Z.log2 e + 1)) ->
    pow_loop fuel b e r = Undefined.
Proof.
  induction fuel as [|fuel IH]; intros b e r He Hfuel Hlast.
  { pose proof (Z.log2_nonneg e). lia. }
  cbn [pow_loop]. destruct (Z.eqb_spec e 0); [lia |].
  destruct (exponent_bits e He) as (Hsplit & Hq & Hone & Hlog).
  set (q := Z.shiftr e 1) in *.
  set (r' := if negb (Z.land e 1 =? 0) then r * b else r).
  destruct (in_long r'); cbn [negb]; [| reflexivity].
  destruct (in_long (b * b)) eqn:Hsq; cbn [negb]; [| reflexivity].
  apply in_long_spec in Hsq.
  destruct (Z.eq_dec q 0) as [Hq0 | Hq0].
  - specialize (Hone Hq0). subst e. exfalso.
    change (2 ^ (Z.log2 1 + 1)) with (Z.succ 1) in Hlast.
    rewrite Z.pow_succ_r, Z.pow_1_r, <- Z.abs_mul in Hlast by lia.
    assert (0 <= b * b) by nia. lia.
  - apply IH; [lia | clear - Hfuel Hlog Hq Hq0; lia |].
    rewrite pow_abs_square by (apply Z.pow_nonneg; lia).
    replace (2 * 2 ^ (Z.log2 q + 1)) with (2 ^ (Z.log2 e + 1)); [exact Hlast |].
    rewrite Hlog by lia. pose proof (Z.log2_nonneg q).
    rewrite (Z.pow_add_r 2 (Z.log2 q + 1) 1) by lia. change (2 ^ 1) with 2. lia.
Qed.

Context `{LibM}.

(** [pow(b, e)] with an integer base and an integer exponent [e > 0]
    squares the base once for every bit of [e], so it is defined exactly
    when [b] to the least power of two above [e] fits a [long]; then it
    returns [b ^ e].  [pow(b, 0)] is 1. *)
Theorem pow_integers (slot : SpnValue) (b e : Z) :
  0 <= e <= LONG_MAX ->
  rtlb_pow slot [Int b; Int e]
  = if (e =? 0) || (Z.abs b ^ (2 ^ (Z.log2 e + 1)) <=? LONG_MAX)
    then Ret (done_ok (Int (b ^ e)))
    else Undefined.
Proof.
  intros He. cbn [rtlb_pow isnum isint isfloat orb negb].
  destruct (Z.ltb_spec e 0); [lia |].
  destruct (Z.eqb_spec e 0) as [-> | He0]; [reflexivity |]. cbn [orb].
  assert (Hfuel : Z.log2 e < Z.of_nat 64).
  { apply Z.log2_lt_pow2; [lia |]. destruct long_bounds as [_ Hmax]. rewrite Hmax in He.
    change (2 ^ Z.of_nat 64) with 18446744073709551616. lia. }
  destruct (Z.leb_spec (Z.abs b ^ (2 ^ (Z.log2 e + 1))) LONG_MAX) as [Hfit | Hover].
  - rewrite (pow_loop_fits 64 b e 1); [rewrite Z.mul_1_l; reflexivity | lia | exact Hfuel
      | exact Hfit | destruct long_bounds as [_ ->]; lia |].
    change (Z.abs 1) with 1. rewrite Z.mul_1_l.
    pose proof (pow_abs_grows b e (2 ^ (Z.log2 e + 1))) as Hg.
    assert (e < 2 ^ (Z.log2 e + 1)).
    { pose proof (Z.log2_spec e ltac:(lia)) as Hs. rewrite <- Z.add_1_r in Hs. lia. }
    specialize (Hg ltac:(lia)). lia.
  - rewrite (pow_loop_overflows 64 b e 1); [reflexivity | lia | exact Hfuel | exact Hover].
Qed.

End PowFacts.

Section PowOnSample.

#[local] Existing Instance SampleNatives.libm.

(** [pow(3, 4)] is 81; [pow(2, 32)] squares past the range of [long]. *)
Lemma pow_integers_witness :
  rtlb_pow Nil [Int 3; Int 4] = Ret (done_ok (Int 81)) /\
  rtlb_pow Nil [Int 2; Int 32] = Undefined.
Proof.
  split.
  - exact (pow_integers Nil 3 4 ltac:(vm_compute; split; discriminate)).
  - exact (pow_integers Nil 2 32 ltac:(vm_compute; split; discriminate)).
Defined.

End PowOnSample.

(** ** [binom] *)

Section BinomialFacts.

Lemma binomial_nonneg n : forall k, 0 <= binomial n k.
Proof.
  induction n as [|n IH]; intros [|k]; cbn [binomial]; try lia.
  pose proof (IH k). pose proof (IH (S k)). lia.
Qed.

Lemma binomial_pascal n k :
  binomial (S n) (S k) = binomial n k + binomial n (S k).
Proof. reflexivity. Qed.

Lemma binomial_zero n : binomial n 0 = 1.
Proof. destruct n; reflexivity. Qed.

(** The absorption rule: [(k + 1) C(n + 1, k + 1) = (n + 1) C(n, k)]. *)
Lemma binomial_absorb n :
  forall k,
    Z.of_nat (S k) * binomial (S n) (S k) = Z.of_nat (S n) * binomial n k.
Proof.
  induction n as [|n IH]; intros k.
  - destruct k as [|k]; [reflexivity |].
    rewrite binomial_pascal. cbn [binomial]. lia.
  - destruct k as [|k].
    + rewrite binomial_pascal, !binomial_zero.
      pose proof (IH 0%nat) as H0. rewrite binomial_zero in H0. lia.
    + rewrite (binomial_pascal (S n) (S k)).
      pose proof (IH k) as H1. pose proof (IH (S k)) as H2.
      pose proof (binomial_pascal n k) as HP.
      assert (HnP : Z.of_nat n * binomial (S n) (S k)
                    = Z.of_nat n * binomial n k + Z.of_nat n * binomial n (S k))
        by (rewrite HP; lia).
      rewrite !Nat2Z.inj_succ in *. lia.
Qed.

Lemma binomial_factorials n :
  forall k, (k <= n)%nat ->
    binomial n k * factorial k * factorial (n - k) = factorial n.
Proof.
  induction n as [|n IH]; intros k Hk.
  - assert (k = 0%nat) by lia. subst k. reflexivity.
  - destruct k as [|k].
    + rewrite binomial_zero. change (factorial 0) with 1.
      rewrite Nat.sub_0_r. lia.
    + change (S n - S k)%nat with (n - k)%nat.
      rewrite (factorial_S k), (factorial_S n), <- (IH k) by lia.
      transitivity (Z.of_nat (S k) * binomial (S n) (S k)
                    * (factorial k * factorial (n - k))); [ring |].
      rewrite binomial_absorb. ring.
Qed.

(** [C(n, k) = C(n, n - k)]: why [binom] may count up to the lesser of
    [k] and [n - k]. *)
Lemma binomial_symmetric n k :
  (k <= n)%nat -> binomial n (n - k) = binomial n k.
Proof.
  intros Hk.
  pose proof (binomial_factorials n k Hk) as H1.
  pose proof (binomial_factorials n (n - k) ltac:(lia)) as H2.
  replace (n - (n - k))%nat with k in H2 by lia.
  pose proof (factorial_pos k). pose proof (factorial_pos (n - k)).
  assert (Hpos : 0 < factorial k * factorial (n - k)) by nia.
  apply (Z.mul_cancel_r _ _ (factorial k * factorial (n - k))); [lia |].
  rewrite <- H1 in H2. lia.
Qed.

(** The products the loop forms, [x C(a + x, x)], grow with [x]. *)
Lemma binom_product_grows (a : nat) x y :
  (x <= y)%nat ->
  Z.of_nat x * binomial (a + x) x <= Z.of_nat y * binomial (a + y) y.
Proof.
  induction 1 as [|y Hxy IH]; [lia |].
  etransitivity; [exact IH |].
  replace (a + S y)%nat with (S (a + y)) by lia.
  rewrite binomial_pascal.
  pose proof (binomial_nonneg (a + y) y). pose proof (binomial_nonneg (a + y) (S y)).
  nia.
Qed.

(** One turn of the loop: from [C(a + x, x)] to [C(a + x + 1, x + 1)]. *)
Lemma binom_step (a x : nat) :
  binomial (a + x) x * Z.of_nat (a + x + 1)
  = Z.of_nat (S x) * binomial (a + S x) (S x) /\
  Z.quot (binomial (a + x) x * Z.of_nat (a + x + 1)) (Z.of_nat x + 1)
  = binomial (a + S x) (S x).
Proof.
  pose proof (binomial_absorb (a + x) x) as Habs.
  replace (a + S x)%nat with (S (a + x)) by lia.
  replace (a + x + 1)%nat with (S (a + x)) by lia.
  split; [lia |].
  replace (binomial (a + x) x * Z.of_nat (S (a + x)))
    with (binomial (S (a + x)) (S x) * (Z.of_nat x + 1)) by lia.
  apply Z.quot_mul. lia.
Qed.

Lemma binom_loop_fits (a : nat) (t : nat) :
  forall x : nat,
    Z.of_nat (x + t) * binomial (a + (x + t)) (x + t) <= LONG_MAX ->
    Z.of_nat (a + x + t + 1) <= LONG_MAX ->
    binom_loop t (binomial (a + x) x) (Z.of_nat (a + x + 1)) (Z.of_nat x + 1)
    = Ret (binomial (a + (x + t)) (x + t)).
Proof.
  induction t as [|t IH]; intros x Hprod Hcount; cbn [binom_loop].
  - rewrite Nat.add_0_r. reflexivity.
  - destruct (binom_step a x) as [Hmul Hquot]. destruct long_bounds as [Hmin Hmax].
    pose proof (binom_product_grows a (S x) (x + S t) ltac:(lia)) as Hgrow.
    pose proof (binomial_nonneg (a + S x) (S x)).
    rewrite (proj2 (in_long_spec _)) by (rewrite Hmul; lia). cbn [negb].
    rewrite (proj2 (in_long_spec _)) by lia. cbn [negb].
    rewrite Hquot.
    replace (Z.of_nat (a + x + 1) + 1) with (Z.of_nat (a + S x + 1)) by lia.
    replace (Z.of_nat x + 1 + 1) with (Z.of_nat (S x) + 1) by lia.
    replace (x + S t)%nat with (S x + t)%nat in * by lia.
    apply IH; [exact Hprod | lia].
Qed.

Lemma binom_loop_product_overflows (a : nat) (t : nat) :
  forall x : nat,
    (1 <= t)%nat ->
    LONG_MAX < Z.of_nat (x + t) * binomial (a + (x + t)) (x + t) ->
    binom_loop t (binomial (a + x) x) (Z.of_nat (a + x + 1)) (Z.of_nat x + 1)
    = Undefined.
Proof.
  induction t as [|t IH]; intros x Ht Hprod; [lia |]. cbn [binom_loop].
  destruct (binom_step a x) as [Hmul Hquot].
  destruct (in_long _) eqn:Hfit; cbn [negb]; [| reflexivity].
  destruct (in_long (Z.of_nat (a + x + 1) + 1)); cbn [negb]; [| reflexivity].
  apply in_long_spec in Hfit. rewrite Hmul in Hfit.
  destruct t as [|t].
  - replace (x + 1)%nat with (S x) in Hprod by lia. lia.
  - rewrite Hquot.
    replace (Z.of_nat (a + x + 1) + 1) with (Z.of_nat (a + S x + 1)) by lia.
    replace (Z.of_nat x + 1 + 1) with (Z.of_nat (S x) + 1) by lia.
    replace (x + S (S t))%nat with (S x + S t)%nat in * by lia.
    apply IH; [lia | exact Hprod].
Qed.

Lemma binom_loop_counter_overflows (t : nat) :
  forall p i j,
    (1 <= t)%nat -> LONG_MAX < i + Z.of_nat t ->
    binom_loop t p i j = Undefined.
Proof.
  induction t as [|t IH]; intros p i j Ht Hcount; [lia |]. cbn [binom_loop].
  destruct (in_long (p * i)); cbn [negb]; [| reflexivity].
  destruct (in_long (i + 1)) eqn:Hfit; cbn [negb]; [| reflexivity].
  apply in_long_spec in Hfit.
  destruct t as [|t]; [lia |]. apply IH; lia.
Qed.

(** [binom(n, k)] with [0 <= k <= n] multiplies and divides [m] times,
    [m] the lesser of [k] and [n - k], and counts up to [n + 1].  It is
    defined exactly when [n + 1] and the greatest product, [m C(n, m)],
    fit a [long]; then it returns the binomial coefficient [C(n, k)]. *)
Theorem binom_computes (slot : SpnValue) (n k : Z) :
  0 <= k <= n ->
  rtlb_binom slot [Int n; Int k]
  = let m := Z.min k (n - k) in
    if (n <? LONG_MAX) && (m * binomial (Z.to_nat n) (Z.to_nat m) <=? LONG_MAX)
    then Ret (done_ok (Int (binomial (Z.to_nat n) (Z.to_nat k))))
    else Undefined.
Proof.
  intros Hk. cbn [rtlb_binom]. cbv zeta.
  destruct (Z.ltb_spec n 0); [lia |]. destruct (Z.ltb_spec k 0); [lia |].
  destruct (Z.ltb_spec n k); [lia |]. cbn [orb].
  assert (Hm : (if k <? n - k then k else n - k) = Z.min k (n - k)).
  { destruct (Z.ltb_spec k (n - k)); lia. }
  rewrite Hm. set (m := Z.min k (n - k)).
  assert (Hm0 : 0 <= m <= n) by lia.
  assert (Hsym : binomial (Z.to_nat n) (Z.to_nat m) = binomial (Z.to_nat n) (Z.to_nat k)).
  { destruct (Z.min_spec k (n - k)) as [[_ Heq] | [_ Heq]]; fold m in Heq; rewrite Heq;
      [reflexivity |].
    rewrite Z2Nat.inj_sub by lia. apply binomial_symmetric. lia. }
  set (a := Z.to_nat (n - m)). set (t := Z.to_nat m).
  assert (Hn : Z.to_nat n = (a + (0 + t))%nat) by lia.
  assert (Hi : n - m + 1 = Z.of_nat (a + 0 + 1)) by lia.
  assert (Hmt : m = Z.of_nat (0 + t)) by lia.
  destruct long_bounds as [Hmin Hmax].
  destruct (Z.ltb_spec n LONG_MAX) as [Hcount | Hcount]; cbn [andb].
  - rewrite (proj2 (in_long_spec (n - m + 1))) by lia. cbn [negb].
    rewrite Hi.
    destruct (Z.leb_spec (m * binomial (Z.to_nat n) t) LONG_MAX) as [Hfit | Hover].
    + pose proof (binom_loop_fits a t 0) as Hloop.
      rewrite <- Hn, <- Hmt, (binomial_zero (a + 0)) in Hloop.
      change (0 + t)%nat with t in Hloop. change (Z.of_nat 0 + 1) with 1 in Hloop.
      rewrite Hloop by lia. fold t in Hsym. rewrite <- Hsym. reflexivity.
    + pose proof (binom_loop_product_overflows a t 0) as Hloop.
      rewrite <- Hn, <- Hmt, (binomial_zero (a + 0)) in Hloop.
      change (0 + t)%nat with t in Hloop. change (Z.of_nat 0 + 1) with 1 in Hloop.
      assert (t <> 0%nat).
      { intros Ht. assert (m = 0) by lia. lia. }
      rewrite Hloop by lia. reflexivity.
  - destruct (in_long (n - m + 1)) eqn:Hfit; cbn [negb]; [| reflexivity].
    apply in_long_spec in Hfit.
    rewrite (binom_loop_counter_overflows t 1 (n - m + 1) 1); [reflexivity | lia | lia].
Qed.

(** [binom(5, 3)] is 10. *)
Lemma binom_computes_witness :
  rtlb_binom Nil [Int 5; Int 3] = Ret (done_ok (Int 10)).
Proof. exact (binom_computes Nil 5 3 ltac:(lia)). Defined.

End BinomialFacts.

(** ** Classes of numbers *)

Section ClassFacts.

Lemma SFeqb_refl_finite s m e : SFeqb (S754_finite s m e) (S754_finite s m e) = true.
Proof.
  unfold SFeqb, SFcompare.
  destruct s; rewrite Z.compare_refl, Pos.compare_cont_refl; reflexivity.
Qed.

(** A finite [double] minus itself is zero. *)
Lemma dsub_diag_finite s m e : dsub (S754_finite s m e) (S754_finite s m e) = S754_zero false.
Proof.
  unfold dsub, SFsub. rewrite Z.min_id. unfold shl_align. rewrite Z.sub_diag.
  reflexivity.
Qed.

Lemma isnan_spec x :
  rtlb_aux_isnan x = match x with S754_nan => true | _ => false end.
Proof.
  unfold rtlb_aux_isnan. destruct x as [s | s | | s m e]; try (destruct s; reflexivity);
    [reflexivity |].
  rewrite SFeqb_refl_finite. reflexivity.
Qed.

Lemma isinf_spec x :
  rtlb_aux_isinf x = match x with S754_infinity _ => true | _ => false end.
Proof.
  unfold rtlb_aux_isinf. destruct x as [s | s | | s m e]; try (destruct s; reflexivity);
    [reflexivity |].
  rewrite dsub_diag_finite, SFeqb_refl_finite. reflexivity.
Qed.

Lemma isfin_spec x :
  rtlb_aux_isfin x
  = match x with S754_zero _ | S754_finite _ _ _ => true | _ => false end.
Proof.
  unfold rtlb_aux_isfin. destruct x as [s | s | | s m e]; try (destruct s; reflexivity);
    [reflexivity |].
  rewrite dsub_diag_finite, SFeqb_refl_finite. reflexivity.
Qed.

(** A [long] converts to a finite [double]. *)
Lemma of_long_finite i :
  LONG_MIN <= i <= LONG_MAX ->
  match of_long i with S754_zero _ | S754_finite _ _ _ => True | _ => False end.
Proof.
  intros Hi. destruct long_bounds as [Hmin Hmax].
  destruct i as [|p|p]; [exact I | |]; unfold of_long; cbn [binary_normalize].
  - destruct (binary_round_finite dprec demax dprec_pos false p 0) as (m & e & ->);
      [unfold demax; lia | unfold emin, dprec, demax; lia | | exact I].
    assert (ndigits p <= 64) by (apply ndigits_lt_pow; lia).
    unfold demax. lia.
  - destruct (binary_round_finite dprec demax dprec_pos true p 0) as (m & e & ->);
      [unfold demax; lia | unfold emin, dprec, demax; lia | | exact I].
    assert (ndigits p <= 64) by (apply ndigits_lt_pow; lia).
    unfold demax. lia.
Qed.

(** [isnan], [isinf] and [isfin], written with [==], [!=] and [x - x]
    only, tell a NaN, an infinity and every other number apart: of any
    number exactly one of them holds, and of an integer it is [isfin]. *)
Theorem number_classes (slot v : SpnValue) :
  isnum v = true ->
  rtlb_isnan slot [v]
  = done_ok (Bool match val2float v with S754_nan => true | _ => false end) /\
  rtlb_isinf slot [v]
  = done_ok (Bool match val2float v with S754_infinity _ => true | _ => false end) /\
  rtlb_isfin slot [v]
  = done_ok (Bool match val2float v with
                  | S754_zero _ | S754_finite _ _ _ => true
                  | _ => false
                  end) /\
  (forall i, v = Int i -> LONG_MIN <= i <= LONG_MAX ->
             rtlb_isfin slot [v] = done_ok (Bool true)).
Proof.
  intros Hnum.
  assert (Hval : forall fn, rtlb_aux_fltclass slot [v] fn = done_ok (Bool (fn (val2float v)))).
  { intros fn. unfold rtlb_aux_fltclass. rewrite Hnum. reflexivity. }
  unfold rtlb_isnan, rtlb_isinf, rtlb_isfin. rewrite !Hval.
  rewrite isnan_spec, isinf_spec, isfin_spec.
  repeat split. intros i -> Hi. cbn [val2float].
  pose proof (of_long_finite i Hi) as Hfin.
  destruct (of_long i); [reflexivity | contradiction | contradiction | reflexivity].
Qed.

(** The integer 7 is finite, not infinite and not a NaN. *)
Lemma number_classes_witness :
  rtlb_isnan Nil [Int 7] = done_ok (Bool false) /\
  rtlb_isinf Nil [Int 7] = done_ok (Bool false) /\
  rtlb_isfin Nil [Int 7] = done_ok (Bool true).
Proof.
  destruct (number_classes Nil (Int 7) eq_refl) as (Hnan & Hinf & Hfin & _).
  split; [exact Hnan | split; [exact Hinf | exact Hfin]].
Defined.

End ClassFacts.

(** ** [sgn] and [abs] *)

Section SignFacts.

(** [sgn] of an integer is its sign; of a float it is [+1.0] or [-1.0]
    by the sign, also of an infinity, [+0.0] of either zero, and a NaN of
    a NaN.  [abs] of an integer is its absolute value, but for the least
    [long], whose negation C leaves undefined; [abs] of a float clears
    the sign. *)
Theorem sgn_and_abs (slot : SpnValue) :
  (forall i, rtlb_sgn slot [Int i] = done_ok (Int (Z.sgn i))) /\
  (forall x, rtlb_sgn slot [Float x]
             = done_ok (Float match x with
                              | S754_nan => S754_nan
                              | S754_zero _ => S754_zero false
                              | S754_infinity s | S754_finite s _ _ => d_one s
                              end)) /\
  (forall i, LONG_MIN < i <= LONG_MAX ->
             rtlb_abs slot [Int i] = Ret (done_ok (Int (Z.abs i)))) /\
  rtlb_abs slot [Int LONG_MIN] = Undefined /\
  (forall x, rtlb_abs slot [Float x] = Ret (done_ok (Float (SFabs x)))).
Proof.
  split; [| split; [| split; [| split]]].
  - intros i. cbn [rtlb_sgn]. unfold makeint.
    destruct (Z.gtb_spec i 0); [rewrite Z.sgn_pos by lia; reflexivity |].
    destruct (Z.ltb_spec i 0); [rewrite Z.sgn_neg by lia; reflexivity |].
    assert (i = 0) by lia. subst i. reflexivity.
  - intros [s | s | | s m e]; try (destruct s; reflexivity). reflexivity.
  - intros i Hi. cbn [rtlb_abs]. destruct long_bounds as [Hmin Hmax].
    destruct (Z.ltb_spec i 0).
    + rewrite (proj2 (in_long_spec (- i))) by lia. cbn [negb].
      rewrite Z.abs_neq by lia. reflexivity.
    + rewrite Z.abs_eq by lia. reflexivity.
  - reflexivity.
  - intros x. reflexivity.
Qed.

End SignFacts.

(** ** The context: what a load keeps *)

Section LoadFacts.
Context `{M : Machine}.

Lemma loadstring_extends ctx str : load_extends ctx (spn_ctx_loadstring ctx str).
Proof.
  unfold load_extends, spn_ctx_loadstring. cbv zeta.
  destruct (spn_parser_parse _ str) as [p [ast|]]; cbn; [| auto].
  destruct (spn_compiler_compile _ ast) as [c [[b n]|]]; cbn; [| auto].
  split; [reflexivity |]. split; [reflexivity |]. exists n. reflexivity.
Qed.


Lemma loadstring_resets ctx str :
  spn_ctx_loadstring (set_errtype ctx SPN_ERROR_OK) str = spn_ctx_loadstring ctx str.
Proof. reflexivity. Qed.

(** Loading or executing a source file that can be read is loading or
    executing its text: [loadsrcfile] and [execsrcfile] give what
    [loadstring] and [execstring] give on the contents of the file. *)
Theorem srcfile_is_its_text (ctx : SpnContext) (fname src : string) (slot : SpnValue) :
  spn_read_text_file fname = Some src ->
  spn_ctx_loadsrcfile ctx fname = spn_ctx_loadstring ctx src /\
  spn_ctx_execsrcfile ctx fname slot = spn_ctx_execstring ctx src slot.
Proof.
  intros Hread.
  assert (Hload : spn_ctx_loadsrcfile ctx fname = spn_ctx_loadstring ctx src).
  { unfold spn_ctx_loadsrcfile. cbv zeta. rewrite Hread. apply loadstring_resets. }
  split; [exact Hload |].
  unfold spn_ctx_execsrcfile, spn_ctx_execstring. rewrite Hload. reflexivity.
Qed.

End LoadFacts.

Section LoadOnSample.
Import Sample.

(** The file [main.spn] of the sample holds [return 1]. *)
Lemma srcfile_is_its_text_witness :
  spn_ctx_loadsrcfile ctx0 "main.spn" = spn_ctx_loadstring ctx0 "return 1" /\
  spn_ctx_execsrcfile ctx0 "main.spn" Nil = spn_ctx_execstring ctx0 "return 1" Nil.
Proof. exact (srcfile_is_its_text ctx0 "main.spn" "return 1" Nil eq_refl). Defined.

End LoadOnSample.

(** ** The callbacks and the searches on the samples *)

Section CallbacksOnSample.
Import Sample.
#[local] Existing Instance SampleNatives.machine | 0.

(** Folding [plus] over 1, 2, 3 from 0 gives 6, after three calls. *)
Lemma map_filter_reduce_compute_witness :
  rtlb_reduce ctx0 Nil [Array [Int 1; Int 2; Int 3]; Int 0; Func (Native "plus")]
  = (after_calls ctx0 3, done_ok (Int 6)).
Proof.
  exact (proj2 (proj2
    (map_filter_reduce_compute ctx0 Nil [Int 1; Int 2; Int 3]
       (Func (Native "plus")) (Func (Native "positive")) (Int 0)
       SampleNatives.plus SampleNatives.positive
       eq_refl eq_refl (fun _ _ _ => eq_refl) (fun _ _ _ => eq_refl)))).
Defined.

(** The first positive element of -1, 0, 5 is found by [pfind]. *)
Lemma any_all_pfind_compute_witness :
  exists calls r,
    rtlb_pfind ctx0 Nil [Array [Int (-1); Int 0; Int 5]; Func (Native "positive")]
    = (after_calls ctx0 calls, done_ok (Int r)) /\
    ((r = -1 /\
      forall k, 0 <= k < 3 ->
                SampleNatives.positive [spn_array_get [Int (-1); Int 0; Int 5] k] = false) \/
     (0 <= r < 3 /\
      SampleNatives.positive [spn_array_get [Int (-1); Int 0; Int 5] r] = true /\
      forall k, 0 <= k < r ->
                SampleNatives.positive [spn_array_get [Int (-1); Int 0; Int 5] k] = false)).
Proof.
  exact (proj2 (proj2
    (any_all_pfind_compute ctx0 Nil [Int (-1); Int 0; Int 5]
       (Func (Native "positive")) SampleNatives.positive
       eq_refl (fun _ _ _ => eq_refl)))).
Defined.

(** A function the machine does not know stops [reduce] at once. *)
Lemma callback_failure_stops_witness :
  exists ctx',
    rtlb_reduce ctx0 (Int 9) [Array [Int 1]; Int 0; Func (Native "nope")]
    = (ctx', mkRes (-4) (Int 9) None) /\
    spn_ctx_geterrtype ctx' = SPN_ERROR_RUNTIME.
Proof.
  refine (proj1 (proj2
    (callback_failure_stops ctx0 (Int 9) [Int 1] (Func (Native "nope")) (Int 0)
       eq_refl _ _))).
  - intros ctx slot argv. cbn. discriminate.
  - discriminate.
Defined.

End CallbacksOnSample.

Section OrderOnSample.
Import Sample.

Lemma elem_of_integers (l : list Z) x : x ∈ map Int l -> exists z, x = Int z.
Proof.
  intros Hx. apply list_elem_of_fmap in Hx. destruct Hx as (z & -> & _). eauto.
Qed.

(** The built-in order of the sample orders every array of integers. *)
Lemma integers_ordered (l : list Z) : ordered_elements (map Int l).
Proof.
  split.
  - intros x y Hx Hy.
    destruct (elem_of_integers l x Hx) as [a ->].
    destruct (elem_of_integers l y Hy) as [b ->]. reflexivity.
  - intros x y z Hx Hy Hz.
    destruct (elem_of_integers l x Hx) as [a ->].
    destruct (elem_of_integers l y Hy) as [b ->].
    destruct (elem_of_integers l z Hz) as [c ->].
    unfold value_lt. cbn. rewrite !Z.ltb_lt. lia.
  - intros x y Hx Hy.
    destruct (elem_of_integers l x Hx) as [a ->].
    destruct (elem_of_integers l y Hy) as [b ->].
    unfold value_lt. cbn. rewrite Z.ltb_lt, Z.ltb_ge. lia.
Qed.


Lemma integers_sorted_sample : sorted [Int 1; Int 3; Int 5].
Proof.
  intros i j Hi Hij Hj. change (spn_array_count _ - 1) with 2 in Hj.
  assert (Hcases : (i = 0 /\ j = 1) \/ (i = 0 /\ j = 2) \/ (i = 1 /\ j = 2)) by lia.
  destruct Hcases as [[-> ->] | [[-> ->] | [-> ->]]]; reflexivity.
Qed.

(** Searching 3 in 1, 3, 5. *)
Lemma bsearch_finds_witness :
  exists r,
    rtlb_bsearch ctx0 Nil [Array [Int 1; Int 3; Int 5]; Int 3] = Ret (ctx0, done_ok (Int r)) /\
    ((r = -1 /\
      forall k, 0 <= k < 3 ->
                value_lt (Int 3) (spn_array_get [Int 1; Int 3; Int 5] k) = true \/
                value_lt (spn_array_get [Int 1; Int 3; Int 5] k) (Int 3) = true) \/
     (0 <= r < 3 /\
      value_lt (Int 3) (spn_array_get [Int 1; Int 3; Int 5] r) = false /\
      value_lt (spn_array_get [Int 1; Int 3; Int 5] r) (Int 3) = false)).
Proof.
  refine (bsearch_finds ctx0 Nil [Int 1; Int 3; Int 5] (Int 3) _ integers_sorted_sample _).
  - intros x Hx. destruct (elem_of_integers [1; 3; 5] x Hx) as [a ->].
    split; reflexivity.
  - intros x y z Hx Hy Hz.
    destruct (elem_of_integers [3; 1; 3; 5] x Hx) as [a ->].
    destruct (elem_of_integers [3; 1; 3; 5] y Hy) as [b ->].
    destruct (elem_of_integers [3; 1; 3; 5] z Hz) as [c ->].
    unfold value_lt. cbn. rewrite !Z.ltb_lt. lia.
Defined.

End OrderOnSample.
